(** * traccuracy: division classification and IoU matching

    A shallow embedding of
    - [src/traccuracy/track_errors/_divisions.py]
    - [src/traccuracy/matchers/_iou.py]
    together with the properties their specification states. *)

From Stdlib Require Import ZArith Lia.
From stdpp Require Import base option list sorting gmap gmultiset.

Local Open Scope Z_scope.
Set Default Proof Using "Type".

(** ** Python runtime: exceptions and fallible computations *)

Inductive exn : Type :=
  | ValueError
  | AttributeError
  | IndexError
  | KeyError.

Inductive result (A : Type) : Type :=
  | Ok (a : A)
  | Raise (e : exn).
Arguments Ok {A} a.
Arguments Raise {A} e.

Global Instance result_ret : MRet result := λ A a, Ok a.

Global Instance result_bind : MBind result := λ A B k c,
  match c with
  | Ok a => k a
  | Raise e => Raise e
  end.

Definition raises {A : Type} (c : result A) : Prop :=
  match c with
  | Ok _ => False
  | Raise _ => True
  end.

(** ** The tracking graph *)

(** Node keys are hashable Python values; natural numbers stand for them. *)
Definition node : Type := nat.
Bind Scope nat_scope with node.

(** Modelled from the spec: the [NodeFlag] enumeration of
    [traccuracy._tracking_graph], which the two modules only import; the
    four division flags the spec names are its members used here. *)
Inductive NodeFlag : Type :=
  | TP_DIV
  | FP_DIV
  | FN_DIV
  | WC_DIV.

Global Instance NodeFlag_eq_dec : EqDecision NodeFlag.
Proof. solve_decision. Defined.

(** The value stored under the key ["min_buffer_correct"]: the [np.nan]
    object or an integer frame buffer. *)
Inductive buffer_value : Type :=
  | NaN
  | Frames (n : Z).

Global Instance buffer_value_eq_dec : EqDecision buffer_value.
Proof. solve_decision. Defined.

(** The attribute dictionary of one node: the frame and label attributes
    (the keys [frame_key] and [label_key]), the flags set to [True], and
    the optional ["min_buffer_correct"] entry. *)
Record NodeInfo : Type := mkNodeInfo {
  frame : Z;
  label : nat;
  flags : list NodeFlag;
  min_buffer_correct : option buffer_value
}.

Global Instance NodeInfo_eq_dec : EqDecision NodeInfo.
Proof. solve_decision. Defined.

(** The integer type of a label array: its width in bits and whether
    it is signed. *)
Record int_dtype : Type := mk_int_dtype {
  bits : N;
  signed : bool
}.

(** A segmentation volume: its [shape], the integer type of its
    elements and one flattened labeled frame per index along the first
    axis. *)
Record Segmentation : Type := mkSegmentation {
  shape : list nat;
  dtype : int_dtype;
  frames : list (list nat)
}.

(** Modelled from the spec: the [TrackingGraph] class, which the two
    modules only import.  Following the spec's data model and its list
    of consumed interfaces: a directed graph whose nodes carry attributes
    (with [graph_nodes] in the graph's node order and [graph_edges] its
    edges), an optional segmentation, the frame range
    [[start_frame, end_frame)] and the per-graph boolean saying that
    division annotations are done. *)
Record TrackingGraph : Type := mkTrackingGraph {
  graph_nodes : list (node * NodeInfo);
  graph_edges : list (node * node);
  segmentation : option Segmentation;
  start_frame : Z;
  end_frame : Z;
  division_annotations : bool
}.

(** [g.graph.nodes[n]] *)
Fixpoint lookup_node (l : list (node * NodeInfo)) (n : node) : option NodeInfo :=
  match l with
  | [] => None
  | (k, i) :: l' => if decide (k = n) then Some i else lookup_node l' n
  end.

Definition node_info (g : TrackingGraph) (n : node) : option NodeInfo :=
  lookup_node (graph_nodes g) n.

(** In-place update of the attribute dictionary of node [n]. *)
Definition update_node (f : NodeInfo → NodeInfo) (n : node)
    (l : list (node * NodeInfo)) : list (node * NodeInfo) :=
  (λ e : node * NodeInfo, if decide (e.1 = n) then (e.1, f e.2) else e) <$> l.

Definition with_nodes (g : TrackingGraph) (l : list (node * NodeInfo)) : TrackingGraph :=
  {| graph_nodes := l;
     graph_edges := graph_edges g;
     segmentation := segmentation g;
     start_frame := start_frame g;
     end_frame := end_frame g;
     division_annotations := division_annotations g |}.

Definition set_division_annotations (g : TrackingGraph) (b : bool) : TrackingGraph :=
  {| graph_nodes := graph_nodes g;
     graph_edges := graph_edges g;
     segmentation := segmentation g;
     start_frame := start_frame g;
     end_frame := end_frame g;
     division_annotations := b |}.

(** [g.graph.successors(n)] and [g.graph.predecessors(n)] for a node [n]
    of the graph: the end points of the edges that leave and that enter
    [n].  For a key that is not a node of the graph networkx raises
    [NetworkXError]; the two modules call them on division nodes, on
    flagged nodes and on end points of edges, and the properties of the
    walks below are stated for a start node of the graph. *)
Definition successors (g : TrackingGraph) (n : node) : list node :=
  (filter (λ e : node * node, e.1 = n) (graph_edges g)).*2.

Definition predecessors (g : TrackingGraph) (n : node) : list node :=
  (filter (λ e : node * node, e.2 = n) (graph_edges g)).*1.

(** Modelled from the spec: [TrackingGraph.get_divisions], the nodes of
    out-degree at least two (the spec's division nodes). *)
Definition get_divisions (g : TrackingGraph) : list node :=
  filter (λ n, (2 ≤ length (successors g n))%nat) (graph_nodes g).*1.

Definition has_flag (f : NodeFlag) (i : NodeInfo) : bool :=
  bool_decide (f ∈ flags i).

Definition add_flag (f : NodeFlag) (i : NodeInfo) : NodeInfo :=
  {| frame := frame i;
     label := label i;
     flags := if has_flag f i then flags i else f :: flags i;
     min_buffer_correct := min_buffer_correct i |}.

(** Modelled from the spec: [TrackingGraph.set_flag_on_node] with the
    value [True], an attribute write of the flag on the node. *)
Definition set_flag_on_node (g : TrackingGraph) (n : node) (f : NodeFlag) : TrackingGraph :=
  with_nodes g (update_node (add_flag f) n (graph_nodes g)).

(** Modelled from the spec: [TrackingGraph.get_nodes_with_flag], the
    nodes whose flag attribute is set. *)
Definition get_nodes_with_flag (g : TrackingGraph) (f : NodeFlag) : list node :=
  (filter (λ e : node * NodeInfo, has_flag f e.2 = true) (graph_nodes g)).*1.

Definition node_has_flag (g : TrackingGraph) (n : node) (f : NodeFlag) : bool :=
  match node_info g n with
  | Some i => has_flag f i
  | None => false
  end.

(** [g.graph.nodes[n]["min_buffer_correct"] = v] *)
Definition set_buffer (v : buffer_value) (i : NodeInfo) : NodeInfo :=
  {| frame := frame i;
     label := label i;
     flags := flags i;
     min_buffer_correct := Some v |}.

Definition set_min_buffer_correct (g : TrackingGraph) (n : node) (v : buffer_value)
    : TrackingGraph :=
  with_nodes g (update_node (set_buffer v) n (graph_nodes g)).

(** ** The matched dataset *)

(** Modelled from the spec: the [Matched] class, which the two modules
    only import.  It owns the two graphs and the node-pair mapping;
    its single-match lookups return the first match in mapping order, or
    [None]. *)
Record Matched : Type := mkMatched {
  gt_graph : TrackingGraph;
  pred_graph : TrackingGraph;
  mapping : list (node * node)
}.

Fixpoint first_pred_for (l : list (node * node)) (g : node) : option node :=
  match l with
  | [] => None
  | (a, b) :: l' => if decide (a = g) then Some b else first_pred_for l' g
  end.

Fixpoint first_gt_for (l : list (node * node)) (p : node) : option node :=
  match l with
  | [] => None
  | (a, b) :: l' => if decide (b = p) then Some a else first_gt_for l' p
  end.

Definition get_gt_pred_match (m : Matched) (g : node) : option node :=
  first_pred_for (mapping m) g.

Definition get_pred_gt_match (m : Matched) (p : node) : option node :=
  first_gt_for (mapping m) p.

(** [collections.Counter] over node keys and [None]: a multiset. *)
Definition Counter (l : list (option node)) : gmultiset (option node) :=
  list_to_set_disj l.

Definition Counter_eqb (l1 l2 : list (option node)) : bool :=
  bool_decide (Counter l1 = Counter l2).

(** [list.remove(x)]: drops the first occurrence. *)
Fixpoint list_remove (x : node) (l : list node) : list node :=
  match l with
  | [] => []
  | y :: l' => if decide (x = y) then l' else y :: list_remove x l'
  end.

(** ** Division classification: [_divisions.py] *)

Definition with_gt (m : Matched) (g : TrackingGraph) : Matched :=
  {| gt_graph := g; pred_graph := pred_graph m; mapping := mapping m |}.

Definition with_pred (m : Matched) (g : TrackingGraph) : Matched :=
  {| gt_graph := gt_graph m; pred_graph := g; mapping := mapping m |}.

(** One iteration of the loop over [div_gt]; the state is the matched
    dataset, annotated in place, and the working list [div_pred]. *)
Definition classify_gt_division (st : Matched * list node) (gt_node : node)
    : Matched * list node :=
  let m := st.1 in
  let div_pred := st.2 in
  let g_gt := gt_graph m in
  let g_pred := pred_graph m in
  let pred_node := get_gt_pred_match m gt_node in
  let m' :=
    match pred_node with
    | None => with_gt m (set_flag_on_node g_gt gt_node FN_DIV)
    | Some p =>
        if bool_decide (p ∉ div_pred) then
          with_gt m (set_flag_on_node g_gt gt_node FN_DIV)
        else
          let succ_gt := successors g_gt gt_node in
          let succ_pred := get_pred_gt_match m <$> successors g_pred p in
          let cnt_gt := Some <$> succ_gt in
          let cnt_pred := succ_pred in
          if Counter_eqb cnt_gt cnt_pred then
            with_pred (with_gt m (set_flag_on_node g_gt gt_node TP_DIV))
                      (set_flag_on_node g_pred p TP_DIV)
          else
            with_pred (with_gt m (set_flag_on_node g_gt gt_node WC_DIV))
                      (set_flag_on_node g_pred p WC_DIV)
    end in
  let div_pred' :=
    match pred_node with
    | Some p => if bool_decide (p ∈ div_pred) then list_remove p div_pred else div_pred
    | None => div_pred
    end in
  (m', div_pred').

(** The loop over the remaining predicted divisions. *)
Definition flag_false_positives (m : Matched) (div_pred : list node) : Matched :=
  foldl (λ m fp_div, with_pred m (set_flag_on_node (pred_graph m) fp_div FP_DIV))
        m div_pred.

(** The state after the loop over the ground-truth divisions. *)
Definition classify_gt_divisions (m : Matched) : Matched * list node :=
  foldl classify_gt_division (m, get_divisions (pred_graph m))
        (get_divisions (gt_graph m)).

Definition _classify_divisions (matched_data : Matched) : Matched :=
  let g_gt := gt_graph matched_data in
  let g_pred := pred_graph matched_data in
  if division_annotations g_gt && division_annotations g_pred then
    matched_data
  else
    let st := classify_gt_divisions matched_data in
    let m := flag_false_positives st.1 st.2 in
    with_pred (with_gt m (set_division_annotations (gt_graph m) true))
              (set_division_annotations (pred_graph m) true).

(** The loop of [_get_pred_by_t], [k] iterations from [n]. *)
Fixpoint pred_steps (g : TrackingGraph) (k : nat) (n : node) : result (option node) :=
  match k with
  | O => Ok (Some n)
  | S k' =>
      match predecessors g n with
      | [] => Ok None
      | [p] => pred_steps g k' p
      | _ :: _ :: _ => Raise ValueError
      end
  end.

Definition _get_pred_by_t (g : TrackingGraph) (n : node) (delta_frames : Z)
    : result (option node) :=
  pred_steps g (Z.to_nat delta_frames) n.

(** The loop of [_get_succ_by_t], [k] iterations from [n]. *)
Fixpoint succ_steps (g : TrackingGraph) (k : nat) (n : node) : option node :=
  match k with
  | O => Some n
  | S k' =>
      match successors g n with
      | [s] => succ_steps g k' s
      | _ => None
      end
  end.

Definition _get_succ_by_t (g : TrackingGraph) (n : node) (delta_frames : Z)
    : option node :=
  succ_steps g (Z.to_nat delta_frames) n.

(** [(a, b) in mapper], where a walk may have produced [None]. *)
Definition in_mapper (m : Matched) (a b : option node) : bool :=
  match a, b with
  | Some x, Some y => bool_decide ((x, y) ∈ mapping m)
  | _, _ => false
  end.

(** [info.get("min_buffer_correct", np.nan) is not np.nan] *)
Definition is_not_nan (i : NodeInfo) : bool :=
  match min_buffer_correct i with
  | Some (Frames _) => true
  | Some NaN => false
  | None => false
  end.

(** The two branches that decide the variable [correct] for a pair that
    was not skipped: parents and daughters are compared [|t_fp - t_fn|]
    frames apart.  A [continue] of the source is the answer [false]. *)
Definition lineages_match (m : Matched) (fp_node fn_node : node) (t_fp t_fn : Z)
    : result bool :=
  let g_gt := gt_graph m in
  let g_pred := pred_graph m in
  if bool_decide (t_fp < t_fn) then
    fn_pred ← _get_pred_by_t g_gt fn_node (t_fn - t_fp);
    if negb (in_mapper m fn_pred (Some fp_node)) then Ok false
    else
      let fp_succ :=
        (λ n, _get_succ_by_t g_pred n (t_fn - t_fp)) <$> successors g_pred fp_node in
      let fn_succ := successors g_gt fn_node in
      let fn_succ_mapped := get_gt_pred_match m <$> fn_succ in
      if negb (Counter_eqb fp_succ fn_succ_mapped) then Ok false
      else Ok true
  else
    fp_pred ← _get_pred_by_t g_pred fp_node (t_fp - t_fn);
    if negb (in_mapper m (Some fn_node) fp_pred) then Ok false
    else
      let fn_succ :=
        (λ n, _get_succ_by_t g_gt n (t_fp - t_fn)) <$> successors g_gt fn_node in
      let fp_succ := successors g_pred fp_node in
      let fp_succ_mapped := get_pred_gt_match m <$> fp_succ in
      if negb (Counter_eqb fp_succ_mapped fn_succ) then Ok false
      else Ok true.

(** The body of the loop over [itertools.product(fp_divs, fn_divs)] for
    one pair.  Besides the dataset it answers whether the pair was
    written, for the log of writes that [correct_pairs] keeps. *)
Definition correct_pair (n_frames : Z) (m : Matched) (pr : node * node)
    : result (Matched * bool) :=
  let fp_node := pr.1 in
  let fn_node := pr.2 in
  let g_gt := gt_graph m in
  let g_pred := pred_graph m in
  match node_info g_pred fp_node, node_info g_gt fn_node with
  | Some fp_node_info, Some fn_node_info =>
      let t_fp := frame fp_node_info in
      let t_fn := frame fn_node_info in
      if is_not_nan fp_node_info || is_not_nan fn_node_info then Ok (m, false)
      else if bool_decide (Z.abs (t_fp - t_fn) > n_frames) || bool_decide (t_fp = t_fn)
      then Ok (m, false)
      else
        correct ← lineages_match m fp_node fn_node t_fp t_fn;
        if correct : bool then
          let m1 := with_gt m (set_min_buffer_correct g_gt fn_node (Frames n_frames)) in
          let m2 :=
            with_pred m1 (set_min_buffer_correct (pred_graph m1) fp_node (Frames n_frames)) in
          Ok (m2, true)
        else Ok (m, false)
  | _, _ => Raise KeyError
  end.

(** The loop over the pairs; the second component lists, in order, the
    pairs whose nodes were written. *)
Fixpoint correct_pairs (n_frames : Z) (pairs : list (node * node)) (m : Matched)
    : result (Matched * list (node * node)) :=
  match pairs with
  | [] => Ok (m, [])
  | pr :: rest =>
      r ← correct_pair n_frames m pr;
      r' ← correct_pairs n_frames rest r.1;
      Ok (r'.1, if r.2 : bool then pr :: r'.2 else r'.2)
  end.

(** [itertools.product(a, b)] *)
Definition product (a b : list node) : list (node * node) :=
  x ← a; (λ y, (x, y)) <$> b.

Definition division_pairs (m : Matched) : list (node * node) :=
  let fp_divs := get_nodes_with_flag (pred_graph m) FP_DIV in
  let fn_divs := get_nodes_with_flag (gt_graph m) FN_DIV in
  product fp_divs fn_divs.

Definition _correct_shifted_divisions (matched_data : Matched) (n_frames : Z)
    : result Matched :=
  r ← correct_pairs n_frames (division_pairs matched_data) matched_data;
  Ok r.1.

(** Marks every node carrying the flag with the [np.nan] value. *)
Definition mark_nan (g : TrackingGraph) (f : NodeFlag) : TrackingGraph :=
  foldl (λ g n, set_min_buffer_correct g n NaN) g (get_nodes_with_flag g f).

(** The passes for the buffers of [deltas], in order. *)
Fixpoint correct_passes (deltas : list Z) (m : Matched) : result Matched :=
  match deltas with
  | [] => Ok m
  | delta :: rest =>
      m' ← _correct_shifted_divisions m delta;
      correct_passes rest m'
  end.

(** [range(1, max_frame_buffer + 1)] *)
Definition buffer_range (max_frame_buffer : Z) : list Z :=
  Z.of_nat <$> seq 1 (Z.to_nat max_frame_buffer).

Definition init_buffers (m : Matched) : Matched :=
  let m1 := with_gt m (mark_nan (gt_graph m) FN_DIV) in
  with_pred m1 (mark_nan (pred_graph m1) FP_DIV).

Definition evaluate_division_events (matched_data : Matched) (max_frame_buffer : Z)
    : result Matched :=
  let m := _classify_divisions matched_data in
  let m := init_buffers m in
  correct_passes (buffer_range max_frame_buffer) m.

(** ** Reading the annotations *)

(** The ["min_buffer_correct"] entry of a node, if the node has one. *)
Definition buffer_of (g : TrackingGraph) (n : node) : option buffer_value :=
  node_info g n ≫= min_buffer_correct.

(** The node carries a recorded frame buffer (an entry that is not
    [np.nan]). *)
Definition recorded (g : TrackingGraph) (n : node) : bool :=
  match node_info g n with
  | Some i => is_not_nan i
  | None => false
  end.

Definition frame_of (g : TrackingGraph) (n : node) : option Z :=
  frame <$> node_info g n.

(** The checks of the loop body that do not read ["min_buffer_correct"]:
    the pair is at most [n_frames] frames apart, not in the same frame,
    and parents and daughters match. *)
Definition reconcilable (n_frames : Z) (m : Matched) (fp_node fn_node : node) : bool :=
  match frame_of (pred_graph m) fp_node, frame_of (gt_graph m) fn_node with
  | Some t_fp, Some t_fn =>
      negb (bool_decide (Z.abs (t_fp - t_fn) > n_frames) || bool_decide (t_fp = t_fn))
      && match lineages_match m fp_node fn_node t_fp t_fn with
         | Ok true => true
         | _ => false
         end
  | _, _ => false
  end.

(** The two writes at the end of the loop body. *)
Definition write_pair (n_frames : Z) (m : Matched) (pr : node * node) : Matched :=
  with_pred (with_gt m (set_min_buffer_correct (gt_graph m) pr.2 (Frames n_frames)))
            (set_min_buffer_correct (pred_graph m) pr.1 (Frames n_frames)).

(** Two datasets that differ at most in ["min_buffer_correct"] entries. *)
Definition same_lineage (m m' : Matched) : Prop :=
  mapping m' = mapping m
  ∧ graph_edges (gt_graph m') = graph_edges (gt_graph m)
  ∧ graph_edges (pred_graph m') = graph_edges (pred_graph m)
  ∧ (∀ k, frame_of (gt_graph m') k = frame_of (gt_graph m) k)
  ∧ (∀ k, frame_of (pred_graph m') k = frame_of (pred_graph m) k)
  ∧ (∀ k f, node_has_flag (gt_graph m') k f = node_has_flag (gt_graph m) k f)
  ∧ (∀ k f, node_has_flag (pred_graph m') k f = node_has_flag (pred_graph m) k f)
  ∧ (∀ f, get_nodes_with_flag (gt_graph m') f = get_nodes_with_flag (gt_graph m) f)
  ∧ (∀ f, get_nodes_with_flag (pred_graph m') f = get_nodes_with_flag (pred_graph m) f).

(** Recorded buffers are kept from [m] to [m']; an entry that changes
    was not a recorded buffer. *)
Definition buffers_kept (g g' : TrackingGraph) : Prop :=
  ∀ k v, buffer_of g k = Some (Frames v) → buffer_of g' k = Some (Frames v).

(** ** IoU matching: [_iou.py] *)

(** [l[i]] on a sequence. *)
Definition getitem {A : Type} (l : list A) (i : nat) : result A :=
  match l !! i with
  | Some x => Ok x
  | None => Raise IndexError
  end.

(** Arithmetic on a scalar of an integer type wraps around: the number
    of values of the type, its largest value, and the value that a
    result [z] is stored as. *)
Definition dtype_modulus (d : int_dtype) : Z := 2 ^ Z.of_N (bits d).

Definition dtype_max (d : int_dtype) : Z :=
  if signed d then dtype_modulus d / 2 - 1 else dtype_modulus d - 1.

Definition wrap (d : int_dtype) (z : Z) : Z :=
  if signed d
  then (z + dtype_modulus d / 2) mod dtype_modulus d - dtype_modulus d / 2
  else z mod dtype_modulus d.

Definition uint8 : int_dtype := {| bits := 8; signed := false |}.

(** [np.max] of an array of labels; it raises on an array without
    elements. *)
Definition np_max (a : list nat) : result nat :=
  match a with
  | [] => Raise ValueError
  | x :: l => Ok (foldl Nat.max x l)
  end.

(** [np.logical_and(gt == g, res == p).sum()] and
    [np.logical_or(gt == g, res == p).sum()] on two flattened frames. *)
Definition intersection_sum (gt res : list nat) (g p : nat) : Z :=
  Z.of_nat (length (filter (λ e : nat * nat, e.1 = g ∧ e.2 = p) (zip gt res))).

Definition union_sum (gt res : list nat) (g p : nat) : Z :=
  Z.of_nat (length (filter (λ e : nat * nat, e.1 = g ∨ e.2 = p) (zip gt res))).

(** The region of a label in a frame, in the words of the
    specification: the set of the positions that carry the label. *)
Definition region (frame : list nat) (l : nat) : gset nat :=
  list_to_set (filter (λ i : nat, frame !! i = Some l) (seq 0 (length frame))).

(** A Python value handed to the matcher: a tracking graph or some
    other object; of another object only the [segmentation] attribute
    matters, whether it exists and what it holds. *)
Inductive py_object : Type :=
  | a_tracking_graph (g : TrackingGraph)
  | another_object (segmentation_attr : option (option Segmentation)).

(** [isinstance(o, TrackingGraph)] *)
Definition isinstance_TrackingGraph (o : py_object) : bool :=
  match o with
  | a_tracking_graph _ => true
  | another_object _ => false
  end.

(** [o.segmentation] *)
Definition get_segmentation (o : py_object) : result (option Segmentation) :=
  match o with
  | a_tracking_graph g => Ok (segmentation g)
  | another_object (Some s) => Ok s
  | another_object None => Raise AttributeError
  end.

(** [range(gt.start_frame, gt.end_frame)] under [enumerate]. *)
Definition enumerate_frame_range (g : TrackingGraph) : list (nat * Z) :=
  (λ i : nat, (i, start_frame g + Z.of_nat i))
    <$> seq 0 (Z.to_nat (end_frame g - start_frame g)).

Section Iou.
(** Floating-point numbers are kept abstract: the type of the entries
    of the array [iou], its zero, the true division of two integers
    and the comparison [>=]. *)
Variable F : Type.
Variable fzero : F.
Variable fdiv : Z → Z → F.
Variable fge : F → F → bool.

(** The overlap candidate finder [get_labels_with_overlap] of
    [_compute_overlap.py], a collaborator of this module: from two
    frames, the parallel sequences of ground-truth and predicted label
    ids (its third result is not used). *)
Variable get_labels_with_overlap : list nat → list nat → list nat * list nat.

(** The node lookups [get_nodes_in_frame] and
    [get_nodes_with_attribute] of [TrackingGraph], collaborators of this
    module: the second one is called with the label key, and takes the
    criterion on the label and the list [limit_to]. *)
Variable get_nodes_in_frame : TrackingGraph → Z → list node.
Variable get_nodes_with_attribute : TrackingGraph → (nat → bool) → list node → list node.

(** [np.zeros((r, c))]; a negative dimension is an error. *)
Definition np_zeros (r c : Z) : result (list (list F)) :=
  if decide (r < 0 ∨ c < 0) then Raise ValueError
  else Ok (replicate (Z.to_nat r) (replicate (Z.to_nat c) fzero)).

(** [iou[i, j]] and [iou[i, j] = v] *)
Definition table_get (iou : list (list F)) (i j : nat) : option F :=
  iou !! i ≫= (λ row, row !! j).

Definition table_set (iou : list (list F)) (i j : nat) (v : F)
    : result (list (list F)) :=
  match iou !! i with
  | Some row =>
      if decide (j < length row)%nat then Ok (<[i := <[j := v]> row]> iou)
      else Raise IndexError
  | None => Raise IndexError
  end.

(** The loop over [range(len(overlapping_gt_labels))]. *)
Fixpoint fill_iou (gt res : list nat)
    (overlapping_gt_labels overlapping_res_labels : list nat)
    (indices : list nat) (iou : list (list F)) : result (list (list F)) :=
  match indices with
  | [] => Ok iou
  | index :: rest =>
      iou_gt_idx ← getitem overlapping_gt_labels index;
      iou_res_idx ← getitem overlapping_res_labels index;
      if decide (length gt = length res) then
        let intersection := intersection_sum gt res iou_gt_idx iou_res_idx in
        let union := union_sum gt res iou_gt_idx iou_res_idx in
        iou' ← table_set iou iou_gt_idx iou_res_idx (fdiv intersection union);
        fill_iou gt res overlapping_gt_labels overlapping_res_labels rest iou'
      else Raise ValueError
  end.

(** [np.where(iou >= threshold)]: the tuple of the row indices and of
    the column indices of the entries that pass, in row-major order. *)
Fixpoint row_where (threshold : F) (j : nat) (row : list F) : list nat :=
  match row with
  | [] => []
  | x :: row' =>
      if fge x threshold then j :: row_where threshold (S j) row'
      else row_where threshold (S j) row'
  end.

Fixpoint table_where (threshold : F) (i : nat) (iou : list (list F))
    : list (nat * nat) :=
  match iou with
  | [] => []
  | row :: iou' =>
      ((λ j, (i, j)) <$> row_where threshold 0 row)
      ++ table_where threshold (S i) iou'
  end.

Definition np_where_ge (iou : list (list F)) (threshold : F) : list (list nat) :=
  let hits := table_where threshold 0 iou in
  [hits.*1; hits.*2].

(** The array [iou] when the loop is done.  [np.max(gt) + 1] and
    [np.max(res) + 1] are scalars of the integer types of the two
    frames. *)
Definition iou_array (gt_dtype res_dtype : int_dtype) (gt res : list nat)
    : result (list (list F)) :=
  max_gt ← np_max gt;
  max_res ← np_max res;
  iou ← np_zeros (wrap gt_dtype (Z.of_nat max_gt + 1))
                 (wrap res_dtype (Z.of_nat max_res + 1));
  let overlapping := get_labels_with_overlap gt res in
  fill_iou gt res overlapping.1 overlapping.2 (seq 0 (length overlapping.1)) iou.

Definition _match_nodes (gt_dtype res_dtype : int_dtype) (gt res : list nat)
    (threshold : F) : result (list nat * list nat) :=
  iou ← iou_array gt_dtype res_dtype gt res;
  let pairs := np_where_ge iou threshold in
  match pairs with
  | gtcells :: rescells :: _ => Ok (gtcells, rescells)
  | _ => Ok ([], [])
  end.

(** The loop over the zipped [matches] for the frame [t]. *)
Fixpoint append_matches (gt pred : TrackingGraph) (t : Z)
    (ids : list (nat * nat)) (mapper : list (node * node))
    : result (list (node * node)) :=
  match ids with
  | [] => Ok mapper
  | (gt_id, pred_id) :: rest =>
      gt_node ←
        getitem (get_nodes_with_attribute gt (λ x, bool_decide (x = gt_id))
                   (get_nodes_in_frame gt t)) 0;
      pred_node ←
        getitem (get_nodes_with_attribute pred (λ x, bool_decide (x = pred_id))
                   (get_nodes_in_frame pred t)) 0;
      append_matches gt pred t rest (mapper ++ [(gt_node, pred_node)])
  end.

(** The node that the loop body finds for a label in the frame [t]:
    the first result of the lookup, if there is one. *)
Definition looked_up (g : TrackingGraph) (t : Z) (label_id : nat) : option node :=
  get_nodes_with_attribute g (λ x, bool_decide (x = label_id))
    (get_nodes_in_frame g t) !! 0%nat.

(** The loop over the frames. *)
Fixpoint match_frames (gt pred : TrackingGraph) (seg_gt seg_pred : Segmentation)
    (threshold : F) (its : list (nat * Z)) (mapper : list (node * node))
    : result (list (node * node)) :=
  match its with
  | [] => Ok mapper
  | (i, t) :: rest =>
      frame_gt ← getitem (frames seg_gt) i;
      frame_pred ← getitem (frames seg_pred) i;
      matches ← _match_nodes (dtype seg_gt) (dtype seg_pred) frame_gt frame_pred
                  threshold;
      mapper' ← append_matches gt pred t (zip matches.1 matches.2) mapper;
      match_frames gt pred seg_gt seg_pred threshold rest mapper'
  end.

Definition match_iou (gt pred : py_object) (threshold : F)
    : result (list (node * node)) :=
  match gt, pred with
  | a_tracking_graph g, a_tracking_graph p =>
      let mapper := [] in
      match segmentation g, segmentation p with
      | Some seg_gt, Some seg_pred =>
          if decide (shape seg_gt ≠ shape seg_pred) then Raise ValueError
          else
            match_frames g p seg_gt seg_pred threshold (enumerate_frame_range g) mapper
      | _, _ => Raise AttributeError (* [None] has no attribute [shape] *)
      end
  | _, _ => Raise ValueError
  end.

(** [IOUMatcher._compute_mapping], for a matcher with the given
    [iou_threshold]. *)
Definition _compute_mapping (iou_threshold : F) (gt_graph pred_graph : py_object)
    : result Matched :=
  seg_gt ← get_segmentation gt_graph;
  if decide (seg_gt = None) then Raise ValueError
  else
    seg_pred ← get_segmentation pred_graph;
    if decide (seg_pred = None) then Raise ValueError
    else
      mapping ← match_iou gt_graph pred_graph iou_threshold;
      match gt_graph, pred_graph with
      | a_tracking_graph g, a_tracking_graph p =>
          Ok {| gt_graph := g; pred_graph := p; mapping := mapping |}
      | _, _ => Raise ValueError (* not reached: [match_iou] has raised *)
      end.

(** The label pairs at the given indices of the two parallel
    sequences. *)
Definition proposed (overlapping_gt_labels overlapping_res_labels : list nat)
    (indices : list nat) : list (nat * nat) :=
  i ← indices;
  match overlapping_gt_labels !! i, overlapping_res_labels !! i with
  | Some g, Some p => [(g, p)]
  | _, _ => []
  end.

(** The entry that the loop writes for the labels [g] and [p]. *)
Definition iou_value (gt res : list nat) (g p : nat) : F :=
  fdiv (intersection_sum gt res g p) (union_sum gt res g p).

(** Intersection over union of two regions, in the words of the
    specification: [|A ∩ B| / |A ∪ B|]. *)
Definition IoU (A B : gset nat) : F :=
  fdiv (Z.of_nat (size (A ∩ B))) (Z.of_nat (size (A ∪ B))).
End Iou.

Arguments np_zeros {F} fzero r c.
Arguments table_get {F} iou i j.
Arguments table_set {F} iou i j v.
Arguments fill_iou {F} fdiv gt res _ _ indices iou.
Arguments row_where {F} fge threshold j row.
Arguments table_where {F} fge threshold i iou.
Arguments np_where_ge {F} fge iou threshold.
Arguments iou_array {F} fzero fdiv get_labels_with_overlap gt_dtype res_dtype gt res.
Arguments _match_nodes {F} fzero fdiv fge get_labels_with_overlap gt_dtype res_dtype
  gt res threshold.
Arguments match_frames {F} fzero fdiv fge get_labels_with_overlap
  get_nodes_in_frame get_nodes_with_attribute gt pred _ _ threshold its mapper.
Arguments match_iou {F} fzero fdiv fge get_labels_with_overlap
  get_nodes_in_frame get_nodes_with_attribute gt pred threshold.
Arguments _compute_mapping {F} fzero fdiv fge get_labels_with_overlap
  get_nodes_in_frame get_nodes_with_attribute iou_threshold _ _.
Arguments iou_value {F} fdiv gt res g p.
Arguments IoU {F} fdiv A B.

(** A floating-point stand-in for the examples: fractions of integers,
    compared by cross multiplication; a fraction with denominator 0
    (the result of 0/0) compares false, as [nan] does. *)
Definition fraction : Type := Z * Z.

Definition fraction_zero : fraction := (0, 1).

Definition fraction_div (a b : Z) : fraction := (a, b).

Definition fraction_ge (a b : fraction) : bool :=
  if decide (a.2 = 0 ∨ b.2 = 0) then false
  else bool_decide (b.1 * a.2 ≤ a.1 * b.2).

(** A candidate finder for the examples: the pairs of non-background
    labels that share a position, each once. *)
Definition shared_labels (gt res : list nat) : list nat * list nat :=
  let pairs :=
    remove_dups (filter (λ e : nat * nat, e.1 ≠ 0%nat ∧ e.2 ≠ 0%nat) (zip gt res)) in
  (pairs.*1, pairs.*2).

(** Node lookups for the examples: the nodes of a frame, and the nodes
    of [limit_to] whose label passes the criterion. *)
Definition nodes_in_frame (g : TrackingGraph) (t : Z) : list node :=
  (filter (λ e : node * NodeInfo, frame e.2 = t) (graph_nodes g)).*1.

Definition nodes_with_attribute (g : TrackingGraph) (criterion : nat → bool)
    (limit_to : list node) : list node :=
  (filter (λ e : node * NodeInfo, e.1 ∈ limit_to ∧ criterion (label e.2) = true)
          (graph_nodes g)).*1.

(** Two frames of six pixels: label 1 covers three pixels in the first
    and two of them in the second; label 2 covers the same two pixels in
    both. *)
Definition frame_a : list nat := [1; 1; 1; 0; 2; 2]%nat.
Definition frame_b : list nat := [1; 1; 0; 0; 2; 2]%nat.


(** ** Concrete datasets *)

(** A node at frame [t] with no flag and no annotation. *)
Definition plain_node (n : node) (t : Z) : node * NodeInfo :=
  (n, {| frame := t; label := 0%nat; flags := []; min_buffer_correct := None |}).

Definition plain_graph (ns : list (node * NodeInfo)) (es : list (node * node))
    : TrackingGraph :=
  {| graph_nodes := ns; graph_edges := es; segmentation := None;
     start_frame := 0; end_frame := 0; division_annotations := false |}.

(** Ground truth: node 1 at frame 5 divides into 2 and 3 at frame 6. *)
Definition late_gt : TrackingGraph :=
  plain_graph [plain_node 1 5; plain_node 2 6; plain_node 3 6]
              [(1, 2); (1, 3)]%nat.

(** Prediction: node 11 at frame 5 continues as 12 at frame 6, which
    divides into 13 and 14 at frame 7. *)
Definition late_pred : TrackingGraph :=
  plain_graph [plain_node 11 5; plain_node 12 6; plain_node 13 7; plain_node 14 7]
              [(11, 12); (12, 13); (12, 14)]%nat.

(** The predicted daughters are matched to the ground-truth daughters. *)
Definition late_division : Matched :=
  {| gt_graph := late_gt; pred_graph := late_pred;
     mapping := [(1, 11); (2, 13); (3, 14)]%nat |}.

(** Ground truth in which the daughters 2 and 3 continue into frame 7
    as 4 and 5. *)
Definition shifted_gt : TrackingGraph :=
  plain_graph [plain_node 1 5; plain_node 2 6; plain_node 3 6;
               plain_node 4 7; plain_node 5 7]
              [(1, 2); (1, 3); (2, 4); (3, 5)]%nat.

(** The predicted daughters, at frame 7, are matched to the
    ground-truth nodes of frame 7. *)
Definition shifted_division : Matched :=
  {| gt_graph := shifted_gt; pred_graph := late_pred;
     mapping := [(1, 11); (4, 13); (5, 14)]%nat |}.

(** The prediction of [late_pred] in which node 11, the predecessor of
    the dividing node 12, has the two predecessors 9 and 10. *)
Definition merged_pred : TrackingGraph :=
  plain_graph [plain_node 9 4; plain_node 10 4; plain_node 11 5; plain_node 12 6;
               plain_node 13 7; plain_node 14 7]
              [(9, 11); (10, 11); (11, 12); (12, 13); (12, 14)]%nat.

Definition merged_division : Matched :=
  {| gt_graph := shifted_gt; pred_graph := merged_pred;
     mapping := [(1, 11); (4, 13); (5, 14)]%nat |}.

(** The prediction of [late_pred] in which the dividing node 12 itself
    has the two predecessors 10 and 11. *)
Definition merging_pred : TrackingGraph :=
  plain_graph [plain_node 10 5; plain_node 11 5; plain_node 12 6;
               plain_node 13 7; plain_node 14 7]
              [(10, 12); (11, 12); (12, 13); (12, 14)]%nat.

Definition merging_division : Matched :=
  {| gt_graph := shifted_gt; pred_graph := merging_pred;
     mapping := [(1, 11); (4, 13); (5, 14)]%nat |}.

(** A division matched to a division: node 1 divides into 2 and 3, the
    predicted node 11 into 12 and 13.  The predicted daughter 12 is
    matched twice, first to the ground-truth node 7 and then to the
    daughter 2. *)
Definition twice_matched_gt : TrackingGraph :=
  plain_graph [plain_node 1 5; plain_node 2 6; plain_node 3 6; plain_node 7 6]
              [(1, 2); (1, 3)]%nat.

Definition twice_matched_pred : TrackingGraph :=
  plain_graph [plain_node 11 5; plain_node 12 6; plain_node 13 6]
              [(11, 12); (11, 13)]%nat.

Definition twice_matched : Matched :=
  {| gt_graph := twice_matched_gt; pred_graph := twice_matched_pred;
     mapping := [(1, 11); (7, 12); (2, 12); (3, 13)]%nat |}.

(** The same graphs with a mapping in which no node occurs twice. *)
Definition once_matched : Matched :=
  {| gt_graph := twice_matched_gt; pred_graph := twice_matched_pred;
     mapping := [(1, 11); (2, 12); (3, 13)]%nat |}.

(** Two FP divisions compete for one FN division.  Ground truth: 1 at
    frame 4 continues as 2, which divides at frame 5 into 3 and 4; 3
    continues as 5, and 4 divides at frame 6 into 6 and 7.  Prediction:
    20 divides at frame 4 into 21 and 22; 21 continues as 23, which
    divides at frame 6 into 25 and 26; 22 continues as 24 and 27.  The
    mapping is one-to-one and node 23 comes first in the node order. *)
Definition contested_gt : TrackingGraph :=
  plain_graph [plain_node 1 4; plain_node 2 5; plain_node 3 6; plain_node 4 6;
               plain_node 5 7; plain_node 6 7; plain_node 7 7]
              [(1, 2); (2, 3); (2, 4); (3, 5); (4, 6); (4, 7)]%nat.

Definition contested_pred : TrackingGraph :=
  plain_graph [plain_node 23 6; plain_node 20 4; plain_node 21 5; plain_node 22 5;
               plain_node 24 6; plain_node 25 7; plain_node 26 7; plain_node 27 7]
              [(20, 21); (20, 22); (21, 23); (22, 24); (23, 25); (23, 26);
               (24, 27)]%nat.

Definition contested_division : Matched :=
  {| gt_graph := contested_gt; pred_graph := contested_pred;
     mapping := [(1, 20); (2, 21); (3, 23); (4, 24); (5, 25); (7, 27)]%nat |}.

(** The datasets above after the baseline classification and the
    marking of the FP and FN divisions with [np.nan]. *)
Definition shifted_ready : Matched := init_buffers (_classify_divisions shifted_division).
Definition merged_ready : Matched := init_buffers (_classify_divisions merged_division).
Definition merging_ready : Matched := init_buffers (_classify_divisions merging_division).

(** [contested_division] after the baseline classification and the
    marking. *)
Definition contested_ready : Matched :=
  init_buffers (_classify_divisions contested_division).

(** Two shifted divisions that do not compete.  Ground truth: 1 at
    frame 5 divides into 2 and 3, which continue as 4 and 5; 21 at frame
    5 divides into 22 and 23, which continue as 24 and 25 and then as 26
    and 27.  Prediction: 11 continues as 12, which divides at frame 6
    into 13 and 14; 31 continues as 32 and 33, and 33 divides at frame 7
    into 34 and 35.  The first division is one frame late, the second
    two frames. *)
Definition two_shifts_gt : TrackingGraph :=
  plain_graph [plain_node 1 5; plain_node 2 6; plain_node 3 6; plain_node 4 7;
               plain_node 5 7; plain_node 21 5; plain_node 22 6; plain_node 23 6;
               plain_node 24 7; plain_node 25 7; plain_node 26 8; plain_node 27 8]
              [(1, 2); (1, 3); (2, 4); (3, 5); (21, 22); (21, 23); (22, 24);
               (23, 25); (24, 26); (25, 27)]%nat.

Definition two_shifts_pred : TrackingGraph :=
  plain_graph [plain_node 11 5; plain_node 12 6; plain_node 13 7; plain_node 14 7;
               plain_node 31 5; plain_node 32 6; plain_node 33 7; plain_node 34 8;
               plain_node 35 8]
              [(11, 12); (12, 13); (12, 14); (31, 32); (32, 33); (33, 34);
               (33, 35)]%nat.

Definition two_shifts : Matched :=
  {| gt_graph := two_shifts_gt; pred_graph := two_shifts_pred;
     mapping := [(1, 11); (4, 13); (5, 14); (21, 31); (26, 34); (27, 35)]%nat |}.

Definition two_shifts_ready : Matched := init_buffers (_classify_divisions two_shifts).

(** The node list [ns] with the nodes of [first] moved to the front, in
    the order of [first]. *)
Definition reorder (first : list node) (ns : list (node * NodeInfo))
    : list (node * NodeInfo) :=
  omap (λ k, (λ i, (k, i)) <$> lookup_node ns k) first
  ++ filter (λ e : node * NodeInfo, e.1 ∉ first) ns.

(** Two FP divisions that compete for one FN division, each with an FN
    division of its own two frames away.  The graphs are those of
    [contested_division], with the ground-truth node 5 continued as 8,
    which divides at frame 8 into 9 and 10.  The FP division 20 (frame
    4) and the FP division 23 (frame 6) both reconcile with the FN
    division 2 (frame 5) at buffer 1; 20 reconciles with the FN division
    4 (frame 6) and 23 with the FN division 8 (frame 8) at buffer 2.
    The two arguments give the order of the FP divisions in the
    predicted graph and of the FN divisions in the ground truth. *)
Definition rival_gt_nodes : list (node * NodeInfo) :=
  [plain_node 1 4; plain_node 2 5; plain_node 3 6; plain_node 4 6; plain_node 5 7;
   plain_node 6 7; plain_node 7 7; plain_node 8 8; plain_node 9 9; plain_node 10 9].

Definition rival_pred_nodes : list (node * NodeInfo) :=
  [plain_node 20 4; plain_node 21 5; plain_node 22 5; plain_node 23 6;
   plain_node 24 6; plain_node 25 7; plain_node 26 7; plain_node 27 7].

Definition rival_division (fp_order fn_order : list node) : Matched :=
  {| gt_graph :=
       plain_graph (reorder fn_order rival_gt_nodes)
                   [(1, 2); (2, 3); (2, 4); (3, 5); (4, 6); (4, 7); (5, 8);
                    (8, 9); (8, 10)]%nat;
     pred_graph :=
       plain_graph (reorder fp_order rival_pred_nodes)
                   [(20, 21); (20, 22); (21, 23); (22, 24); (23, 25); (23, 26);
                    (24, 27)]%nat;
     mapping := [(1, 20); (2, 21); (3, 23); (4, 24); (5, 25); (7, 27)]%nat |}.

(** ** Shapes of graphs *)

(** No node has more than one predecessor: the graph has no merge. *)
Definition merge_free (g : TrackingGraph) : bool :=
  forallb (λ e : node * node, bool_decide (length (predecessors g e.2) ≤ 1)%nat)
          (graph_edges g).

(** Every edge leads from a node of some frame to a node of the next
    frame. *)
Definition edge_consecutive (g : TrackingGraph) (e : node * node) : bool :=
  match frame_of g e.1, frame_of g e.2 with
  | Some t, Some t' => bool_decide (t' = t + 1)
  | _, _ => false
  end.

Definition consecutive_frames (g : TrackingGraph) : bool :=
  forallb (edge_consecutive g) (graph_edges g).

(** ** Footprints *)

(** [i'] is [i] with flags added and nothing else changed. *)
Definition flags_added (i i' : NodeInfo) : Prop :=
  frame i' = frame i
  ∧ label i' = label i
  ∧ min_buffer_correct i' = min_buffer_correct i
  ∧ flags i ⊆ flags i'.

(** [g'] is [g] with flags added on some nodes; the annotations-done
    boolean may differ. *)
Definition only_flags_added (g g' : TrackingGraph) : Prop :=
  graph_edges g' = graph_edges g
  ∧ segmentation g' = segmentation g
  ∧ start_frame g' = start_frame g
  ∧ end_frame g' = end_frame g
  ∧ Forall2 (λ e e' : node * NodeInfo, e'.1 = e.1 ∧ flags_added e.2 e'.2)
            (graph_nodes g) (graph_nodes g').

(** [i'] is [i] up to the ["min_buffer_correct"] entry. *)
Definition buffer_changed (i i' : NodeInfo) : Prop :=
  frame i' = frame i ∧ label i' = label i ∧ flags i' = flags i.

(** [g'] is [g] up to ["min_buffer_correct"] entries. *)
Definition only_buffers_changed (g g' : TrackingGraph) : Prop :=
  graph_edges g' = graph_edges g
  ∧ segmentation g' = segmentation g
  ∧ start_frame g' = start_frame g
  ∧ end_frame g' = end_frame g
  ∧ division_annotations g' = division_annotations g
  ∧ Forall2 (λ e e' : node * NodeInfo, e'.1 = e.1 ∧ buffer_changed e.2 e'.2)
            (graph_nodes g) (graph_nodes g').

(** ** Order of the matches *)

(** Row-major order of index pairs, the order of [np.where]. *)
Definition row_major (a b : nat * nat) : Prop :=
  (a.1 < b.1)%nat ∨ (a.1 = b.1 ∧ (a.2 < b.2)%nat).

(** ** Segmented graphs *)

(** A node at frame [t] with the segmentation label [l]. *)
Definition labelled_node (n : node) (t : Z) (l : nat) : node * NodeInfo :=
  (n, {| frame := t; label := l; flags := []; min_buffer_correct := None |}).

(** Two graphs of one frame each, segmented by [frame_a] and [frame_b];
    the nodes carry the labels 1 and 2. *)
Definition segmented_gt : TrackingGraph :=
  {| graph_nodes := [labelled_node 1 0 1; labelled_node 2 0 2];
     graph_edges := [];
     segmentation := Some {| shape := [1; 6]%nat; dtype := uint8; frames := [frame_a] |};
     start_frame := 0; end_frame := 1; division_annotations := false |}.

Definition segmented_pred : TrackingGraph :=
  {| graph_nodes := [labelled_node 11 0 1; labelled_node 12 0 2];
     graph_edges := [];
     segmentation := Some {| shape := [1; 6]%nat; dtype := uint8; frames := [frame_b] |};
     start_frame := 0; end_frame := 1; division_annotations := false |}.

(** * Properties *)

(** Closes a decidable goal on closed terms by evaluation. *)
Ltac by_evaluation :=
  match goal with
  | |- ?P => apply (@bool_decide_unpack P _); vm_compute; exact I
  end.

Example Counter_eqb_perm :
  Counter_eqb [Some 1%nat; None; Some 2%nat] [None; Some 2%nat; Some 1%nat] = true.
Proof. vm_compute. reflexivity. Qed.

Example Counter_eqb_mult :
  Counter_eqb [None; None] [None] = false.
Proof. vm_compute. reflexivity. Qed.

(** ** Facts about the graph operations *)

Section graph_facts.
Implicit Types (g : TrackingGraph) (n k : node) (f : NodeFlag)
  (l : list (node * NodeInfo)) (i : NodeInfo).

Lemma lookup_update_node (u : NodeInfo → NodeInfo) n l k :
  lookup_node (update_node u n l) k
  = if decide (k = n) then u <$> lookup_node l k else lookup_node l k.
Proof.
  induction l as [|[a i] l IH]; simpl.
  - by destruct (decide (k = n)).
  - destruct (decide (a = n)) as [->|Hne]; simpl.
    + destruct (decide (n = k)) as [->|]; [by rewrite decide_True|].
      rewrite IH. by destruct (decide (k = n)).
    + destruct (decide (a = k)) as [->|]; [by rewrite decide_False|].
      by rewrite IH.
Qed.

Lemma update_node_keys (u : NodeInfo → NodeInfo) n l :
  (update_node u n l).*1 = l.*1.
Proof.
  unfold update_node. rewrite <- list_fmap_compose.
  apply list_fmap_ext. intros _ [a i] _. simpl. by destruct (decide (a = n)).
Qed.

Lemma lookup_node_is_Some l n : is_Some (lookup_node l n) ↔ n ∈ l.*1.
Proof.
  induction l as [|[a i] l IH]; simpl.
  - split; [by intros [? ?]|by intros ?%elem_of_nil].
  - rewrite elem_of_cons. destruct (decide (a = n)) as [->|Hne].
    + split; eauto.
    + rewrite IH. naive_solver.
Qed.

Lemma has_flag_add_flag f f' i :
  has_flag f' (add_flag f i) = bool_decide (f' = f) || has_flag f' i.
Proof.
  unfold add_flag, has_flag. simpl. unfold has_flag.
  destruct (bool_decide_reflect (f ∈ flags i)) as [Hin|Hin];
    destruct (bool_decide_reflect (f' = f)) as [->|Hne]; simpl.
  - by apply bool_decide_eq_true_2.
  - done.
  - apply bool_decide_eq_true_2, elem_of_cons. by left.
  - apply bool_decide_ext. rewrite elem_of_cons. naive_solver.
Qed.

Lemma node_info_set_flag g n f k :
  node_info (set_flag_on_node g n f) k
  = if decide (k = n) then add_flag f <$> node_info g k else node_info g k.
Proof. apply lookup_update_node. Qed.

Lemma node_info_set_buffer g n v k :
  node_info (set_min_buffer_correct g n v) k
  = if decide (k = n) then set_buffer v <$> node_info g k else node_info g k.
Proof. apply lookup_update_node. Qed.

Lemma node_has_flag_set_ne g n f k f' :
  k ≠ n ∨ f' ≠ f →
  node_has_flag (set_flag_on_node g n f) k f' = node_has_flag g k f'.
Proof.
  intros Hne. unfold node_has_flag. rewrite node_info_set_flag.
  destruct (decide (k = n)) as [->|]; [|done].
  destruct (node_info g n) as [i|]; simpl; [|done].
  rewrite has_flag_add_flag. destruct Hne as [?|?]; [done|].
  by rewrite bool_decide_eq_false_2.
Qed.

Lemma node_has_flag_set_eq g n f :
  is_Some (node_info g n) →
  node_has_flag (set_flag_on_node g n f) n f = true.
Proof.
  intros [i Hi]. unfold node_has_flag. rewrite node_info_set_flag, decide_True by done.
  rewrite Hi. simpl. rewrite has_flag_add_flag. by rewrite bool_decide_eq_true_2.
Qed.

Lemma node_has_flag_set_mono g n f k f' :
  node_has_flag g k f' = true →
  node_has_flag (set_flag_on_node g n f) k f' = true.
Proof.
  unfold node_has_flag. rewrite node_info_set_flag.
  destruct (decide (k = n)) as [->|]; [|done].
  destruct (node_info g n); simpl; [|done].
  rewrite has_flag_add_flag. intros ->. by rewrite orb_true_r.
Qed.

Lemma is_Some_node_info_set_flag g n f k :
  is_Some (node_info (set_flag_on_node g n f) k) ↔ is_Some (node_info g k).
Proof.
  unfold node_info, set_flag_on_node. simpl.
  by rewrite !lookup_node_is_Some, update_node_keys.
Qed.

Lemma successors_set_flag g n f k :
  successors (set_flag_on_node g n f) k = successors g k.
Proof. done. Qed.

Lemma get_divisions_set_flag g n f :
  get_divisions (set_flag_on_node g n f) = get_divisions g.
Proof.
  unfold get_divisions, set_flag_on_node. simpl. by rewrite update_node_keys.
Qed.

Lemma get_divisions_is_node g n :
  n ∈ get_divisions g → is_Some (node_info g n).
Proof.
  unfold get_divisions. intros [_ H]%list_elem_of_filter.
  by apply lookup_node_is_Some.
Qed.
End graph_facts.


(** ** The classifier *)

Section classifier_facts.
Implicit Types (m : Matched) (st : Matched * list node) (g p k : node)
  (f : NodeFlag) (gs work : list node).

Lemma list_remove_subset p k work : k ∈ list_remove p work → k ∈ work.
Proof.
  induction work as [|a work IH]; simpl; [done|].
  destruct (decide (p = a)) as [->|?]; rewrite ?elem_of_cons; naive_solver.
Qed.

Lemma list_remove_other p k work : k ≠ p → k ∈ work → k ∈ list_remove p work.
Proof.
  intros Hne. induction work as [|a work IH]; simpl; [done|].
  destruct (decide (p = a)) as [->|?]; rewrite ?elem_of_cons; naive_solver.
Qed.

Lemma list_remove_NoDup p work : NoDup work → p ∉ list_remove p work.
Proof.
  induction 1 as [|a work Ha Hnd IH]; simpl; [apply not_elem_of_nil|].
  destruct (decide (p = a)) as [->|?]; [done|].
  rewrite elem_of_cons. naive_solver.
Qed.

Lemma list_remove_NoDup_2 p work : NoDup work → NoDup (list_remove p work).
Proof.
  induction 1 as [|a work Ha Hnd IH]; simpl; [constructor|].
  destruct (decide (p = a)) as [->|?]; [done|].
  constructor; [|done]. intros ?%list_remove_subset. done.
Qed.

(** What one iteration does, case by case. *)
Lemma classify_gt_division_FN st g :
  (get_gt_pred_match st.1 g = None
   ∨ ∃ p, get_gt_pred_match st.1 g = Some p ∧ p ∉ st.2) →
  classify_gt_division st g
  = (with_gt st.1 (set_flag_on_node (gt_graph st.1) g FN_DIV), st.2).
Proof.
  unfold classify_gt_division. intros [Hm|(p & Hm & Hp)]; rewrite Hm; [done|].
  by rewrite bool_decide_eq_true_2, bool_decide_eq_false_2.
Qed.

Lemma classify_gt_division_div st g p :
  get_gt_pred_match st.1 g = Some p → p ∈ st.2 →
  let fl :=
    if Counter_eqb (Some <$> successors (gt_graph st.1) g)
                   (get_pred_gt_match st.1 <$> successors (pred_graph st.1) p)
    then TP_DIV else WC_DIV in
  classify_gt_division st g
  = (with_pred (with_gt st.1 (set_flag_on_node (gt_graph st.1) g fl))
               (set_flag_on_node (pred_graph st.1) p fl),
     list_remove p st.2).
Proof.
  intros Hm Hp. unfold classify_gt_division. rewrite Hm.
  rewrite bool_decide_eq_false_2 by (by intros []).
  rewrite bool_decide_eq_true_2 by done.
  by destruct (Counter_eqb _ _).
Qed.

(** Every iteration is one of the two. *)
Lemma classify_gt_division_cases st g :
  classify_gt_division st g
  = (with_gt st.1 (set_flag_on_node (gt_graph st.1) g FN_DIV), st.2)
  ∨ ∃ p fl, get_gt_pred_match st.1 g = Some p ∧ p ∈ st.2 ∧
      classify_gt_division st g
      = (with_pred (with_gt st.1 (set_flag_on_node (gt_graph st.1) g fl))
                   (set_flag_on_node (pred_graph st.1) p fl),
         list_remove p st.2).
Proof.
  destruct (get_gt_pred_match st.1 g) as [p|] eqn:Hm.
  - destruct (decide (p ∈ st.2)) as [Hp|Hp].
    + right. eexists p, _. split_and!; [done..|].
      by apply classify_gt_division_div.
    + left. apply classify_gt_division_FN. eauto.
  - left. apply classify_gt_division_FN. eauto.
Qed.

Lemma classify_gt_division_mapping st g :
  mapping (classify_gt_division st g).1 = mapping st.1.
Proof.
  destruct (classify_gt_division_cases st g) as [->|(p & fl & _ & _ & ->)]; done.
Qed.

Lemma classify_gt_division_successors st g k :
  successors (gt_graph (classify_gt_division st g).1) k = successors (gt_graph st.1) k
  ∧ successors (pred_graph (classify_gt_division st g).1) k
    = successors (pred_graph st.1) k.
Proof.
  destruct (classify_gt_division_cases st g) as [->|(p & fl & _ & _ & ->)]; done.
Qed.

Lemma classify_gt_division_is_Some st g k :
  (is_Some (node_info (gt_graph (classify_gt_division st g).1) k)
   ↔ is_Some (node_info (gt_graph st.1) k))
  ∧ (is_Some (node_info (pred_graph (classify_gt_division st g).1) k)
     ↔ is_Some (node_info (pred_graph st.1) k)).
Proof.
  destruct (classify_gt_division_cases st g) as [->|(p & fl & _ & _ & ->)]; simpl;
    rewrite ?is_Some_node_info_set_flag; done.
Qed.

Lemma classify_gt_division_mono st g k f :
  (node_has_flag (gt_graph st.1) k f = true →
   node_has_flag (gt_graph (classify_gt_division st g).1) k f = true)
  ∧ (node_has_flag (pred_graph st.1) k f = true →
     node_has_flag (pred_graph (classify_gt_division st g).1) k f = true).
Proof.
  destruct (classify_gt_division_cases st g) as [->|(p & fl & _ & _ & ->)]; simpl;
    split; auto using node_has_flag_set_mono.
Qed.

Lemma classify_gt_division_gt_other st g k f :
  k ≠ g →
  node_has_flag (gt_graph (classify_gt_division st g).1) k f
  = node_has_flag (gt_graph st.1) k f.
Proof.
  intros Hne.
  destruct (classify_gt_division_cases st g) as [->|(p & fl & _ & _ & ->)]; simpl;
    apply node_has_flag_set_ne; auto.
Qed.

Lemma classify_gt_division_work_subset st g p :
  p ∈ (classify_gt_division st g).2 → p ∈ st.2.
Proof.
  destruct (classify_gt_division_cases st g) as [->|(q & fl & _ & _ & ->)]; simpl;
    eauto using list_remove_subset.
Qed.

Lemma classify_gt_division_work_keep st g p :
  get_gt_pred_match st.1 g ≠ Some p → p ∈ st.2 →
  p ∈ (classify_gt_division st g).2.
Proof.
  intros Hne Hp.
  destruct (classify_gt_division_cases st g) as [->|(q & fl & Hq & _ & ->)]; simpl;
    [done|].
  apply list_remove_other; [congruence|done].
Qed.

(** The loop over the ground-truth divisions. *)
Lemma gt_loop_mapping gs st :
  mapping (foldl classify_gt_division st gs).1 = mapping st.1.
Proof.
  revert st. induction gs as [|a gs IH]; intros st; simpl; [done|].
  by rewrite IH, classify_gt_division_mapping.
Qed.

Lemma gt_loop_successors gs st k :
  successors (gt_graph (foldl classify_gt_division st gs).1) k
  = successors (gt_graph st.1) k
  ∧ successors (pred_graph (foldl classify_gt_division st gs).1) k
    = successors (pred_graph st.1) k.
Proof.
  revert st. induction gs as [|a gs IH]; intros st; simpl; [done|].
  destruct (IH (classify_gt_division st a)) as [-> ->].
  apply classify_gt_division_successors.
Qed.

Lemma gt_loop_is_Some gs st k :
  (is_Some (node_info (gt_graph (foldl classify_gt_division st gs).1) k)
   ↔ is_Some (node_info (gt_graph st.1) k))
  ∧ (is_Some (node_info (pred_graph (foldl classify_gt_division st gs).1) k)
     ↔ is_Some (node_info (pred_graph st.1) k)).
Proof.
  revert st. induction gs as [|a gs IH]; intros st; simpl; [done|].
  destruct (IH (classify_gt_division st a)) as [-> ->].
  apply classify_gt_division_is_Some.
Qed.

Lemma gt_loop_mono gs st k f :
  (node_has_flag (gt_graph st.1) k f = true →
   node_has_flag (gt_graph (foldl classify_gt_division st gs).1) k f = true)
  ∧ (node_has_flag (pred_graph st.1) k f = true →
     node_has_flag (pred_graph (foldl classify_gt_division st gs).1) k f = true).
Proof.
  revert st. induction gs as [|a gs IH]; intros st; simpl; [done|].
  destruct (IH (classify_gt_division st a)) as [H1 H2].
  destruct (classify_gt_division_mono st a k f) as [H3 H4]. auto.
Qed.

Lemma gt_loop_work_subset gs st p :
  p ∈ (foldl classify_gt_division st gs).2 → p ∈ st.2.
Proof.
  revert st. induction gs as [|a gs IH]; intros st; simpl; [done|].
  intros H%IH. by eapply classify_gt_division_work_subset.
Qed.

Lemma gt_loop_work_keep gs st p :
  (∀ g, g ∈ gs → get_gt_pred_match st.1 g ≠ Some p) → p ∈ st.2 →
  p ∈ (foldl classify_gt_division st gs).2.
Proof.
  revert st. induction gs as [|a gs IH]; intros st Hgs Hp; simpl; [done|].
  apply IH.
  - intros g Hg. unfold get_gt_pred_match. rewrite classify_gt_division_mapping.
    apply Hgs. by right.
  - apply classify_gt_division_work_keep; [|done]. apply Hgs. by left.
Qed.

(** The loop over the remaining predicted divisions touches the
    predicted graph only, and only adds [FP_DIV]. *)
Lemma flag_false_positives_gt work m :
  gt_graph (flag_false_positives m work) = gt_graph m.
Proof.
  revert m. induction work as [|a work IH]; intros m; simpl; [done|].
  unfold flag_false_positives in IH. by rewrite IH.
Qed.

Lemma flag_false_positives_mono work m k f :
  node_has_flag (pred_graph m) k f = true →
  node_has_flag (pred_graph (flag_false_positives m work)) k f = true.
Proof.
  revert m. induction work as [|a work IH]; intros m H; simpl; [done|].
  apply IH. simpl. by apply node_has_flag_set_mono.
Qed.

Lemma flag_false_positives_flags work m p :
  p ∈ work → is_Some (node_info (pred_graph m) p) →
  node_has_flag (pred_graph (flag_false_positives m work)) p FP_DIV = true.
Proof.
  revert m. induction work as [|a work IH]; intros m Hp Hs; [by inversion Hp|].
  simpl. apply elem_of_cons in Hp as [->|Hp].
  - apply flag_false_positives_mono. simpl. by apply node_has_flag_set_eq.
  - apply IH; [done|]. simpl. by apply is_Some_node_info_set_flag.
Qed.

Lemma flag_false_positives_other work m k f :
  k ∉ work ∨ f ≠ FP_DIV →
  node_has_flag (pred_graph (flag_false_positives m work)) k f
  = node_has_flag (pred_graph m) k f.
Proof.
  revert m. induction work as [|a work IH]; intros m H; simpl; [done|].
  unfold flag_false_positives in IH. rewrite IH.
  - simpl. apply node_has_flag_set_ne. rewrite not_elem_of_cons in H. naive_solver.
  - rewrite not_elem_of_cons in H. naive_solver.
Qed.

(** The result of a classification that is not skipped. *)
Lemma classify_divisions_run m :
  division_annotations (gt_graph m) && division_annotations (pred_graph m) = false →
  ∀ k f,
    node_has_flag (gt_graph (_classify_divisions m)) k f
    = node_has_flag (gt_graph (classify_gt_divisions m).1) k f
    ∧ node_has_flag (pred_graph (_classify_divisions m)) k f
      = node_has_flag
          (pred_graph (flag_false_positives (classify_gt_divisions m).1
                                            (classify_gt_divisions m).2)) k f.
Proof.
  intros Hg k f. unfold _classify_divisions. rewrite Hg. simpl.
  unfold node_has_flag, node_info. simpl.
  by rewrite flag_false_positives_gt.
Qed.
End classifier_facts.

(** ** The classifier: theorems *)

Lemma gt_loop_FN (gs : list node) (st : Matched * list node) (g : node) :
  (get_gt_pred_match st.1 g = None
   ∨ ∃ p, get_gt_pred_match st.1 g = Some p ∧ p ∉ st.2) →
  is_Some (node_info (gt_graph st.1) g) →
  (∀ f, f ≠ FN_DIV →
     node_has_flag (gt_graph (foldl classify_gt_division st gs).1) g f
     = node_has_flag (gt_graph st.1) g f)
  ∧ (g ∈ gs →
     node_has_flag (gt_graph (foldl classify_gt_division st gs).1) g FN_DIV = true).
Proof.
  revert st. induction gs as [|a gs IH]; intros st Hc Hs; simpl.
  { split; [done|]. by intros ?%elem_of_nil. }
  destruct (IH (classify_gt_division st a)) as [IH1 IH2].
  { unfold get_gt_pred_match in *. rewrite classify_gt_division_mapping.
    destruct Hc as [?|(p & ? & Hp)]; [by left|right].
    exists p. split; [done|]. intros ?%classify_gt_division_work_subset. done. }
  { by apply classify_gt_division_is_Some. }
  split.
  - intros f Hf. rewrite IH1 by done.
    destruct (decide (a = g)) as [->|Hne].
    + rewrite classify_gt_division_FN by done. simpl.
      apply node_has_flag_set_ne. by right.
    + by apply classify_gt_division_gt_other.
  - intros [->|Hin]%elem_of_cons; [|by apply IH2].
    apply gt_loop_mono. rewrite classify_gt_division_FN by done. simpl.
    by apply node_has_flag_set_eq.
Qed.

(** C5: when the classification is not skipped, a ground-truth division
    node [g] that has no matched predicted node, or whose matched
    predicted node is not a predicted division, is flagged [FN_DIV] by
    the classifier, and the classifier gives it no other flag: whether
    [g] carries [TP_DIV] or [WC_DIV] is left as it was. *)
Theorem unmatched_division_flagged_FN (m : Matched) (g : node) :
  division_annotations (gt_graph m) && division_annotations (pred_graph m) = false →
  g ∈ get_divisions (gt_graph m) →
  (get_gt_pred_match m g = None
   ∨ ∃ p, get_gt_pred_match m g = Some p ∧ p ∉ get_divisions (pred_graph m)) →
  node_has_flag (gt_graph (_classify_divisions m)) g FN_DIV = true
  ∧ ∀ f, f ≠ FN_DIV →
      node_has_flag (gt_graph (_classify_divisions m)) g f
      = node_has_flag (gt_graph m) g f.
Proof.
  intros Hrun Hg Hc.
  destruct (gt_loop_FN (get_divisions (gt_graph m))
              (m, get_divisions (pred_graph m)) g) as [H1 H2].
  { done. }
  { by apply get_divisions_is_node. }
  split.
  - destruct (classify_divisions_run m Hrun g FN_DIV) as [-> _]. by apply H2.
  - intros f Hf. destruct (classify_divisions_run m Hrun g f) as [-> _].
    by apply H1.
Qed.

Lemma unmatched_division_flagged_FN_witness :
  division_annotations (gt_graph late_division)
    && division_annotations (pred_graph late_division) = false
  ∧ (1%nat : node) ∈ get_divisions (gt_graph late_division)
  ∧ node_has_flag (gt_graph (_classify_divisions late_division)) 1%nat FN_DIV = true.
Proof.
  assert (H1 : (1%nat : node) ∈ get_divisions (gt_graph late_division)).
  { vm_compute. constructor. }
  split; [reflexivity|]. split; [exact H1|].
  apply (unmatched_division_flagged_FN late_division 1%nat); [reflexivity|exact H1|].
  right. exists 11%nat. split; [reflexivity|].
  vm_compute. inversion 1 as [|? ? ? H]; inversion H.
Defined.

(** C6: when the classification is not skipped, every predicted
    division node that is still in the working list when the loop over
    the ground-truth divisions ends is flagged [FP_DIV]; a predicted
    division that no ground-truth division is matched to is still in
    that list. *)
Theorem unconsumed_division_flagged_FP (m : Matched) (p : node) :
  division_annotations (gt_graph m) && division_annotations (pred_graph m) = false →
  (p ∈ (classify_gt_divisions m).2 →
   node_has_flag (pred_graph (_classify_divisions m)) p FP_DIV = true)
  ∧ (p ∈ get_divisions (pred_graph m) →
     (∀ g, g ∈ get_divisions (gt_graph m) → get_gt_pred_match m g ≠ Some p) →
     p ∈ (classify_gt_divisions m).2).
Proof.
  intros Hrun. split.
  - intros Hp. destruct (classify_divisions_run m Hrun p FP_DIV) as [_ ->].
    apply flag_false_positives_flags; [done|].
    apply gt_loop_is_Some. simpl.
    apply get_divisions_is_node.
    by apply gt_loop_work_subset in Hp.
  - intros Hp Hg. by apply gt_loop_work_keep.
Qed.

Lemma unconsumed_division_flagged_FP_witness :
  division_annotations (gt_graph late_division)
    && division_annotations (pred_graph late_division) = false
  ∧ (12%nat : node) ∈ (classify_gt_divisions late_division).2
  ∧ node_has_flag (pred_graph (_classify_divisions late_division)) 12%nat FP_DIV = true.
Proof.
  assert (H1 : (12%nat : node) ∈ (classify_gt_divisions late_division).2).
  { vm_compute. constructor. }
  split; [reflexivity|]. split; [exact H1|].
  apply (unconsumed_division_flagged_FP late_division 12%nat); [reflexivity|exact H1].
Defined.

(** C7: the classifier is idempotent.  After a call both graphs carry
    the annotations-done flag; a call on graphs that both carry it
    returns the dataset as it is; hence a second call changes nothing. *)
Theorem classify_divisions_idempotent (m : Matched) :
  _classify_divisions (_classify_divisions m) = _classify_divisions m
  ∧ division_annotations (gt_graph (_classify_divisions m)) = true
  ∧ division_annotations (pred_graph (_classify_divisions m)) = true
  ∧ (division_annotations (gt_graph m) = true →
     division_annotations (pred_graph m) = true →
     _classify_divisions m = m).
Proof.
  assert (Hskip : ∀ m', division_annotations (gt_graph m') = true →
                        division_annotations (pred_graph m') = true →
                        _classify_divisions m' = m').
  { intros m' H1 H2. unfold _classify_divisions. by rewrite H1, H2. }
  assert (Hdone : division_annotations (gt_graph (_classify_divisions m)) = true
                  ∧ division_annotations (pred_graph (_classify_divisions m)) = true).
  { unfold _classify_divisions.
    destruct (division_annotations (gt_graph m)) eqn:H1;
      destruct (division_annotations (pred_graph m)) eqn:H2; simpl; auto. }
  destruct Hdone as [H1 H2]. split_and!; [by apply Hskip|done|done|apply Hskip].
Qed.

Lemma classify_divisions_idempotent_witness :
  division_annotations (gt_graph (_classify_divisions late_division)) = true
  ∧ division_annotations (pred_graph (_classify_divisions late_division)) = true
  ∧ _classify_divisions (_classify_divisions late_division)
    = _classify_divisions late_division.
Proof.
  split; [reflexivity|]. split; [reflexivity|].
  destruct (classify_divisions_idempotent (_classify_divisions late_division))
    as (_ & _ & _ & H).
  apply H; reflexivity.
Defined.

(** ** The shifted-division corrector *)

Section corrector_facts.
Implicit Types (m : Matched) (g : TrackingGraph) (k fp fn : node)
  (pr : node * node) (n v : Z) (f : NodeFlag).

Lemma recorded_buffer_of g k :
  recorded g k = true ↔ ∃ v, buffer_of g k = Some (Frames v).
Proof.
  unfold recorded, buffer_of, is_not_nan.
  destruct (node_info g k) as [i|]; simpl; [|naive_solver].
  destruct (min_buffer_correct i) as [[|v]|]; naive_solver.
Qed.

Lemma get_nodes_with_flag_set_buffer g k (bv : buffer_value) f :
  get_nodes_with_flag (set_min_buffer_correct g k bv) f = get_nodes_with_flag g f.
Proof.
  unfold get_nodes_with_flag, set_min_buffer_correct, update_node. simpl.
  induction (graph_nodes g) as [|[a i] l IH]; [done|]. csimpl.
  rewrite !filter_cons. simpl.
  destruct (decide (a = k)); simpl;
    change (has_flag f (set_buffer bv i)) with (has_flag f i);
    destruct (decide (has_flag f i = true)); csimpl; by rewrite IH.
Qed.

Lemma frame_of_set_buffer g k (bv : buffer_value) k' :
  frame_of (set_min_buffer_correct g k bv) k' = frame_of g k'.
Proof.
  unfold frame_of. rewrite node_info_set_buffer.
  destruct (decide (k' = k)); [|done]. by destruct (node_info g k').
Qed.

Lemma node_has_flag_set_buffer g k (bv : buffer_value) k' f :
  node_has_flag (set_min_buffer_correct g k bv) k' f = node_has_flag g k' f.
Proof.
  unfold node_has_flag. rewrite node_info_set_buffer.
  destruct (decide (k' = k)); [|done]. by destruct (node_info g k').
Qed.

Lemma buffer_of_set_buffer g k (bv : buffer_value) k' :
  buffer_of (set_min_buffer_correct g k bv) k'
  = if decide (k' = k) then node_info g k' ≫= (λ _, Some bv) else buffer_of g k'.
Proof.
  unfold buffer_of. rewrite node_info_set_buffer.
  destruct (decide (k' = k)); [|done]. by destruct (node_info g k').
Qed.

Lemma same_lineage_refl m : same_lineage m m.
Proof. by repeat split. Qed.

Lemma same_lineage_trans m1 m2 m3 :
  same_lineage m1 m2 → same_lineage m2 m3 → same_lineage m1 m3.
Proof.
  intros (A1 & A2 & A3 & A4 & A5 & A6 & A7 & A8 & A9)
         (B1 & B2 & B3 & B4 & B5 & B6 & B7 & B8 & B9).
  repeat split; intros; congruence.
Qed.

Lemma same_lineage_write n m pr : same_lineage m (write_pair n m pr).
Proof.
  repeat split; simpl; intros;
    auto using frame_of_set_buffer, node_has_flag_set_buffer,
      get_nodes_with_flag_set_buffer.
Qed.

Lemma pred_steps_ext g g' (j : nat) k :
  graph_edges g' = graph_edges g → pred_steps g' j k = pred_steps g j k.
Proof.
  intros He. revert k. induction j as [|j IH]; intros k; simpl; [done|].
  unfold predecessors. rewrite He.
  destruct ((filter _ (graph_edges g)).*1) as [|a [|b l]]; auto.
Qed.

Lemma succ_steps_ext g g' (j : nat) k :
  graph_edges g' = graph_edges g → succ_steps g' j k = succ_steps g j k.
Proof.
  intros He. revert k. induction j as [|j IH]; intros k; simpl; [done|].
  unfold successors. rewrite He.
  destruct ((filter _ (graph_edges g)).*2) as [|a [|b l]]; auto.
Qed.

Lemma lineages_match_ext m m' fp fn (t_fp t_fn : Z) :
  same_lineage m m' →
  lineages_match m' fp fn t_fp t_fn = lineages_match m fp fn t_fp t_fn.
Proof.
  intros (Hm & Hg & Hp & _).
  unfold lineages_match, _get_pred_by_t, _get_succ_by_t, in_mapper,
    get_gt_pred_match, get_pred_gt_match, successors.
  rewrite !(pred_steps_ext _ _ _ _ Hg), !(pred_steps_ext _ _ _ _ Hp), Hm, Hg, Hp.
  case_bool_decide.
  - destruct (pred_steps _ _ _) as [o|e]; simpl; [|done].
    destruct o; simpl; [|done].
    destruct (negb _); [done|].
    erewrite list_fmap_ext; [done|].
    intros _ x _. simpl. by apply succ_steps_ext.
  - destruct (pred_steps _ _ _) as [o|e]; simpl; [|done].
    destruct o; simpl; [|done].
    destruct (negb _); [done|].
    erewrite (list_fmap_ext (λ x : node, succ_steps (gt_graph m') _ x)); [done|].
    intros _ x _. simpl. by apply succ_steps_ext.
Qed.

Lemma reconcilable_ext n m m' fp fn :
  same_lineage m m' → reconcilable n m' fp fn = reconcilable n m fp fn.
Proof.
  intros H. unfold reconcilable.
  pose proof H as (_ & _ & _ & Hfg & Hfp & _).
  rewrite Hfg, Hfp.
  destruct (frame_of (pred_graph m) fp) as [t_fp|]; [|done].
  destruct (frame_of (gt_graph m) fn) as [t_fn|]; [|done].
  by rewrite (lineages_match_ext m m').
Qed.
End corrector_facts.

Section corrector_step.
Implicit Types (m : Matched) (g : TrackingGraph) (k fp fn : node)
  (pr : node * node) (n v : Z) (w : bool).

Lemma recorded_false_buffer_of g k v :
  recorded g k = false → buffer_of g k ≠ Some (Frames v).
Proof.
  intros Hr Hb. assert (recorded g k = true) by (apply recorded_buffer_of; eauto).
  congruence.
Qed.

(** A pair with a node that carries a recorded buffer is skipped. *)
Lemma correct_pair_skip n m pr :
  is_Some (node_info (pred_graph m) pr.1) → is_Some (node_info (gt_graph m) pr.2) →
  recorded (pred_graph m) pr.1 || recorded (gt_graph m) pr.2 = true →
  correct_pair n m pr = Ok (m, false).
Proof.
  intros [ifp Hfp] [ifn Hfn]. unfold correct_pair, recorded.
  rewrite Hfp, Hfn. by intros ->.
Qed.

(** The two ways in which the loop body ends without an exception. *)
Lemma correct_pair_Ok n m pr m' w :
  correct_pair n m pr = Ok (m', w) →
  is_Some (node_info (pred_graph m) pr.1) ∧ is_Some (node_info (gt_graph m) pr.2)
  ∧ ((w = true ∧ m' = write_pair n m pr
      ∧ recorded (pred_graph m) pr.1 = false ∧ recorded (gt_graph m) pr.2 = false
      ∧ reconcilable n m pr.1 pr.2 = true)
     ∨ (w = false ∧ m' = m
        ∧ (recorded (pred_graph m) pr.1 = true ∨ recorded (gt_graph m) pr.2 = true
           ∨ reconcilable n m pr.1 pr.2 = false))).
Proof.
  unfold correct_pair, reconcilable, recorded, frame_of.
  destruct (node_info (pred_graph m) pr.1) as [ifp|]; [|done].
  destruct (node_info (gt_graph m) pr.2) as [ifn|]; [|done]. simpl.
  intros H. split; [eauto|]. split; [eauto|].
  destruct (is_not_nan ifp); simpl in H; [right; naive_solver|].
  destruct (is_not_nan ifn); simpl in H; [right; naive_solver|].
  destruct (_ || _); simpl in H |- *; [right; naive_solver|].
  destruct (lineages_match _ _ _ _ _) as [[|]|e]; simpl in H;
    [left|right|done]; naive_solver.
Qed.

Lemma correct_pair_same_lineage n m pr m' w :
  correct_pair n m pr = Ok (m', w) → same_lineage m m'.
Proof.
  intros (_ & _ & [(_ & -> & _)|(_ & -> & _)])%correct_pair_Ok.
  - apply same_lineage_write.
  - apply same_lineage_refl.
Qed.

Lemma buffer_of_write_pred n m pr k :
  buffer_of (pred_graph (write_pair n m pr)) k
  = if decide (k = pr.1)
    then node_info (pred_graph m) k ≫= (λ _, Some (Frames n))
    else buffer_of (pred_graph m) k.
Proof. apply buffer_of_set_buffer. Qed.

Lemma buffer_of_write_gt n m pr k :
  buffer_of (gt_graph (write_pair n m pr)) k
  = if decide (k = pr.2)
    then node_info (gt_graph m) k ≫= (λ _, Some (Frames n))
    else buffer_of (gt_graph m) k.
Proof. apply buffer_of_set_buffer. Qed.

Lemma correct_pair_buffers_kept n m pr m' w :
  correct_pair n m pr = Ok (m', w) →
  buffers_kept (gt_graph m) (gt_graph m')
  ∧ buffers_kept (pred_graph m) (pred_graph m').
Proof.
  intros (_ & _ & [(_ & -> & Hp & Hg & _)|(_ & -> & _)])%correct_pair_Ok;
    [|by split; intros ? ? ?].
  split; intros k v Hk.
  - rewrite buffer_of_write_gt. destruct (decide (k = pr.2)) as [->|]; [|done].
    by apply recorded_false_buffer_of in Hk.
  - rewrite buffer_of_write_pred. destruct (decide (k = pr.1)) as [->|]; [|done].
    by apply recorded_false_buffer_of in Hk.
Qed.

(** The loop body raises exactly when a node is missing or when a
    pair that is not skipped has a walk that raises. *)
Lemma correct_pair_Raise n m pr e :
  correct_pair n m pr = Raise e ↔
  (e = KeyError
   ∧ (node_info (pred_graph m) pr.1 = None ∨ node_info (gt_graph m) pr.2 = None))
  ∨ ∃ t_fp t_fn,
      frame_of (pred_graph m) pr.1 = Some t_fp
      ∧ frame_of (gt_graph m) pr.2 = Some t_fn
      ∧ recorded (pred_graph m) pr.1 = false ∧ recorded (gt_graph m) pr.2 = false
      ∧ Z.abs (t_fp - t_fn) ≤ n ∧ t_fp ≠ t_fn
      ∧ lineages_match m pr.1 pr.2 t_fp t_fn = Raise e.
Proof.
  unfold correct_pair, recorded, frame_of.
  destruct (node_info (pred_graph m) pr.1) as [ifp|]; simpl; [|naive_solver].
  destruct (node_info (gt_graph m) pr.2) as [ifn|]; simpl; [|naive_solver].
  destruct (is_not_nan ifp); simpl; [naive_solver|].
  destruct (is_not_nan ifn); simpl; [naive_solver|].
  repeat case_bool_decide; simpl; try (split; [done|]; naive_solver lia).
  destruct (lineages_match m pr.1 pr.2 (frame ifp) (frame ifn)) as [[|]|e'] eqn:Hl;
    simpl.
  - split; [done|].
    intros [[_ [?|?]]|(t1 & t2 & [= <-] & [= <-] & _ & _ & _ & _ & ?)];
      [done..|congruence].
  - split; [done|].
    intros [[_ [?|?]]|(t1 & t2 & [= <-] & [= <-] & _ & _ & _ & _ & ?)];
      [done..|congruence].
  - split.
    + intros [= ->]. right. exists (frame ifp), (frame ifn).
      split_and!; try done; lia.
    + intros [[_ [?|?]]|(t1 & t2 & [= <-] & [= <-] & _ & _ & _ & _ & ?)];
        [done..|congruence].
Qed.
End corrector_step.

Section corrector_loop.
Implicit Types (m : Matched) (g : TrackingGraph) (k fp fn : node)
  (pr : node * node) (pairs ws : list (node * node)) (n v : Z) (w : bool).

Lemma correct_pairs_cons n pr pairs m m' ws :
  correct_pairs n (pr :: pairs) m = Ok (m', ws) ↔
  ∃ m1 w ws', correct_pair n m pr = Ok (m1, w)
    ∧ correct_pairs n pairs m1 = Ok (m', ws')
    ∧ ws = (if w then [pr] else []) ++ ws'.
Proof.
  simpl. destruct (correct_pair n m pr) as [[m1 w]|e] eqn:E1; simpl.
  - destruct (correct_pairs n pairs m1) as [[m2 ws']|e] eqn:E2; simpl.
    + split.
      * intros [= <- <-]. exists m1, w, ws'. split_and!; [done..|by destruct w].
      * intros (? & ? & ? & [= <- <-] & E & ->). rewrite E2 in E.
        injection E as <- <-. by destruct w.
    + split; [done|]. intros (? & ? & ? & [= <- <-] & E & _). congruence.
  - split; [done|]. by intros (? & ? & ? & ? & _).
Qed.

Lemma correct_pairs_app n l1 l2 m m' ws :
  correct_pairs n (l1 ++ l2) m = Ok (m', ws) ↔
  ∃ m1 ws1 ws2, correct_pairs n l1 m = Ok (m1, ws1)
    ∧ correct_pairs n l2 m1 = Ok (m', ws2)
    ∧ ws = ws1 ++ ws2.
Proof.
  revert m ws. induction l1 as [|pr l1 IH]; intros m ws.
  - simpl. split.
    + intros H. by exists m, [], ws.
    + by intros (? & ? & ? & [= <- <-] & ? & ->).
  - rewrite <- app_comm_cons, correct_pairs_cons. split.
    + intros (m1 & w & ws' & H1 & (m2 & ws1 & ws2 & H2 & H3 & ->)%IH & ->).
      exists m2, ((if w then [pr] else []) ++ ws1), ws2.
      split_and!; [|done|by rewrite app_assoc].
      apply correct_pairs_cons. by exists m1, w, ws1.
    + intros (m2 & ws1 & ws2 & (m1 & w & ws' & H1 & H2 & ->)%correct_pairs_cons
              & H3 & ->).
      exists m1, w, (ws' ++ ws2). split_and!; [done| |by rewrite app_assoc].
      apply IH. by exists m2, ws', ws2.
Qed.

Lemma correct_pairs_same_lineage n pairs m m' ws :
  correct_pairs n pairs m = Ok (m', ws) → same_lineage m m'.
Proof.
  revert m ws. induction pairs as [|pr pairs IH]; intros m ws.
  - intros [= <- <-]. apply same_lineage_refl.
  - intros (m1 & w & ws' & H1 & H2 & _)%correct_pairs_cons.
    eapply same_lineage_trans; eauto using correct_pair_same_lineage.
Qed.

Lemma correct_pairs_buffers_kept n pairs m m' ws :
  correct_pairs n pairs m = Ok (m', ws) →
  buffers_kept (gt_graph m) (gt_graph m')
  ∧ buffers_kept (pred_graph m) (pred_graph m').
Proof.
  revert m ws. induction pairs as [|pr pairs IH]; intros m ws.
  - intros [= <- <-]. by split; intros ? ? ?.
  - intros (m1 & w & ws' & H1 & H2 & _)%correct_pairs_cons.
    destruct (correct_pair_buffers_kept _ _ _ _ _ H1) as [A1 A2].
    destruct (IH _ _ H2) as [B1 B2].
    split; intros k v Hk; auto.
Qed.

Lemma buffers_kept_recorded g g' k :
  buffers_kept g g' → recorded g k = true → recorded g' k = true.
Proof.
  intros H [v Hv]%recorded_buffer_of. apply recorded_buffer_of. eauto.
Qed.

Lemma buffers_kept_recorded_false g g' k :
  buffers_kept g g' → recorded g' k = false → recorded g k = false.
Proof.
  intros H Hr. destruct (recorded g k) eqn:E; [|done].
  by rewrite (buffers_kept_recorded _ _ _ H E) in Hr.
Qed.

(** What the log of writes says about each of its pairs. *)
Lemma correct_pairs_log n pairs m m' ws pr :
  correct_pairs n pairs m = Ok (m', ws) → pr ∈ ws →
  pr ∈ pairs
  ∧ recorded (pred_graph m) pr.1 = false ∧ recorded (gt_graph m) pr.2 = false
  ∧ reconcilable n m pr.1 pr.2 = true
  ∧ buffer_of (pred_graph m') pr.1 = Some (Frames n)
  ∧ buffer_of (gt_graph m') pr.2 = Some (Frames n).
Proof.
  revert m ws. induction pairs as [|p0 pairs IH]; intros m ws.
  - intros [= <- <-]. by intros ?%elem_of_nil.
  - intros (m1 & w & ws' & H1 & H2 & ->)%correct_pairs_cons Hin.
    destruct (correct_pairs_buffers_kept _ _ _ _ _ H2) as [K1 K2].
    destruct (correct_pair_buffers_kept _ _ _ _ _ H1) as [J1 J2].
    pose proof (correct_pair_same_lineage _ _ _ _ _ H1) as Hs.
    assert (Hrest : pr ∈ ws' →
      pr ∈ p0 :: pairs
      ∧ recorded (pred_graph m) pr.1 = false ∧ recorded (gt_graph m) pr.2 = false
      ∧ reconcilable n m pr.1 pr.2 = true
      ∧ buffer_of (pred_graph m') pr.1 = Some (Frames n)
      ∧ buffer_of (gt_graph m') pr.2 = Some (Frames n)).
    { intros Hin'. destruct (IH _ _ H2 Hin') as (A1 & A2 & A3 & A4 & A5 & A6).
      split_and!; try done.
      - by right.
      - by eapply buffers_kept_recorded_false.
      - by eapply buffers_kept_recorded_false.
      - by rewrite <- (reconcilable_ext n m m1). }
    apply correct_pair_Ok in H1
      as ([ifp Hfp] & [ifn Hfn] & [(-> & -> & R1 & R2 & R3)|(-> & -> & _)]);
      [|by apply Hrest].
    simpl in Hin. apply elem_of_cons in Hin as [->|Hin]; [|by apply Hrest].
    split_and!; try done.
    + by left.
    + apply K2. rewrite buffer_of_write_pred, decide_True by done. by rewrite Hfp.
    + apply K1. rewrite buffer_of_write_gt, decide_True by done. by rewrite Hfn.
Qed.

(** No node is written twice in one call. *)
Lemma correct_pairs_log_NoDup n pairs m m' ws :
  correct_pairs n pairs m = Ok (m', ws) → NoDup ws.*1 ∧ NoDup ws.*2.
Proof.
  revert m ws. induction pairs as [|p0 pairs IH]; intros m ws.
  - intros [= <- <-]. split; constructor.
  - intros (m1 & w & ws' & H1 & H2 & ->)%correct_pairs_cons.
    destruct (IH _ _ H2) as [N1 N2].
    apply correct_pair_Ok in H1
      as ([ifp Hfp] & [ifn Hfn] & [(-> & -> & R1 & R2 & R3)|(-> & -> & _)]);
      [|done].
    simpl. split; constructor; try done.
    + intros (pr & Heq & Hin)%list_elem_of_fmap.
      destruct (correct_pairs_log _ _ _ _ _ _ H2 Hin) as (_ & A & _).
      rewrite <- Heq in A. revert A.
      unfold recorded. simpl. rewrite node_info_set_buffer, decide_True by done.
      by rewrite Hfp.
    + intros (pr & Heq & Hin)%list_elem_of_fmap.
      destruct (correct_pairs_log _ _ _ _ _ _ H2 Hin) as (_ & _ & A & _).
      rewrite <- Heq in A. revert A.
      unfold recorded. simpl. rewrite node_info_set_buffer, decide_True by done.
      by rewrite Hfn.
Qed.

(** Where a buffer found after the call comes from. *)
Lemma correct_pairs_provenance n pairs m m' ws k (bv : buffer_value) :
  correct_pairs n pairs m = Ok (m', ws) →
  (buffer_of (pred_graph m') k = Some bv →
   buffer_of (pred_graph m) k = Some bv ∨ (bv = Frames n ∧ k ∈ ws.*1))
  ∧ (buffer_of (gt_graph m') k = Some bv →
     buffer_of (gt_graph m) k = Some bv ∨ (bv = Frames n ∧ k ∈ ws.*2)).
Proof.
  revert m ws. induction pairs as [|p0 pairs IH]; intros m ws.
  - intros [= <- <-]. auto.
  - intros (m1 & w & ws' & H1 & H2 & ->)%correct_pairs_cons.
    destruct (IH _ _ H2) as [I1 I2].
    apply correct_pair_Ok in H1
      as ([ifp Hfp] & [ifn Hfn] & [(-> & -> & R1 & R2 & R3)|(-> & -> & _)]);
      [|done].
    split; intros Hb.
    + destruct (I1 Hb) as [Hb'|[-> Hin]].
      * rewrite buffer_of_write_pred in Hb'.
        destruct (decide (k = p0.1)) as [->|]; [|by left].
        rewrite Hfp in Hb'. simpl in Hb'. injection Hb' as <-.
        right. split; [done|]. simpl. by left.
      * right. split; [done|]. simpl. by right.
    + destruct (I2 Hb) as [Hb'|[-> Hin]].
      * rewrite buffer_of_write_gt in Hb'.
        destruct (decide (k = p0.2)) as [->|]; [|by left].
        rewrite Hfn in Hb'. simpl in Hb'. injection Hb' as <-.
        right. split; [done|]. simpl. by left.
      * right. split; [done|]. simpl. by right.
Qed.

(** After the call, every pair of the iteration that passes the
    checks has a node with a recorded buffer. *)
Lemma correct_pairs_cover n pairs m m' ws pr :
  correct_pairs n pairs m = Ok (m', ws) → pr ∈ pairs →
  reconcilable n m pr.1 pr.2 = true →
  recorded (pred_graph m') pr.1 = true ∨ recorded (gt_graph m') pr.2 = true.
Proof.
  revert m ws. induction pairs as [|p0 pairs IH]; intros m ws.
  - intros _ ?%elem_of_nil. done.
  - intros (m1 & w & ws' & H1 & H2 & ->)%correct_pairs_cons Hin Hr.
    destruct (correct_pairs_buffers_kept _ _ _ _ _ H2) as [K1 K2].
    pose proof (correct_pair_same_lineage _ _ _ _ _ H1) as Hs.
    apply elem_of_cons in Hin as [->|Hin].
    + apply correct_pair_Ok in H1
        as ([ifp Hfp] & [ifn Hfn]
            & [(-> & -> & R1 & R2 & R3)|(-> & -> & [R|[R|R]])]).
      * left. apply (buffers_kept_recorded _ _ _ K2).
        unfold recorded. simpl. rewrite node_info_set_buffer, decide_True by done.
        by rewrite Hfp.
      * left. by apply (buffers_kept_recorded _ _ _ K2).
      * right. by apply (buffers_kept_recorded _ _ _ K1).
      * congruence.
    + eapply IH; [done..|]. by rewrite (reconcilable_ext n m m1).
Qed.
End corrector_loop.

(** ** The corrector: theorems *)

Lemma correct_shifted_divisions_Ok (m : Matched) (n_frames : Z) (m' : Matched) :
  _correct_shifted_divisions m n_frames = Ok m' ↔
  ∃ ws, correct_pairs n_frames (division_pairs m) m = Ok (m', ws).
Proof.
  unfold _correct_shifted_divisions.
  destruct (correct_pairs n_frames (division_pairs m) m) as [[m1 ws]|e]; simpl.
  - split; [intros [= <-]; eauto|]. by intros (? & [= <- <-]).
  - split; [done|]. by intros (? & ?).
Qed.



(** The walk raises exactly when a node it steps back from has more
    than one predecessor. *)
Lemma pred_steps_Raise (g : TrackingGraph) (j : nat) (n : node) (e : exn) :
  pred_steps g j n = Raise e ↔
  e = ValueError
  ∧ ∃ (i : nat) (x : node),
      (i < j)%nat ∧ pred_steps g i n = Ok (Some x)
      ∧ (2 ≤ length (predecessors g x))%nat.
Proof.
  revert n. induction j as [|j IH]; intros n.
  - simpl. split; [done|]. intros (_ & i & x & ? & _). lia.
  - simpl. destruct (predecessors g n) as [|p [|q l]] eqn:Hp.
    + split; [done|]. intros (_ & [|i] & x & _ & Hx & Hl); simpl in Hx.
      * injection Hx as <-. rewrite Hp in Hl. simpl in Hl. lia.
      * by rewrite Hp in Hx.
    + rewrite IH. split.
      * intros (-> & i & x & ? & ? & ?). split; [done|].
        exists (S i), x. simpl. rewrite Hp. split_and!; [lia|done..].
      * intros (-> & [|i] & x & Hi & Hx & Hl); simpl in Hx.
        -- injection Hx as <-. rewrite Hp in Hl. simpl in Hl. lia.
        -- rewrite Hp in Hx. split; [done|]. exists i, x. split_and!; [lia|done..].
    + split.
      * intros [= <-]. split; [done|]. exists 0%nat, n.
        split_and!; [lia|done|]. rewrite Hp. simpl. lia.
      * by intros (-> & _).
Qed.

Lemma correct_pairs_Raise_at (n_frames : Z) (l1 l2 : list (node * node))
    (pr : node * node) (m m1 : Matched) (ws1 : list (node * node)) (e : exn) :
  correct_pairs n_frames l1 m = Ok (m1, ws1) →
  correct_pair n_frames m1 pr = Raise e →
  correct_pairs n_frames (l1 ++ pr :: l2) m = Raise e.
Proof.
  revert m ws1. induction l1 as [|p0 l1 IH]; intros m ws1.
  - intros [= <- <-] H. simpl. by rewrite H.
  - simpl. destruct (correct_pair n_frames m p0) as [[m0 w]|e0]; simpl; [|done].
    destruct (correct_pairs n_frames l1 m0) as [[m2 ws2]|e0] eqn:E; simpl; [|done].
    intros [= <- <-] H. by rewrite (IH _ _ E H).
Qed.

(** C4: the backward walk raises when a node it steps back from (the
    later division node or an ancestor reached before the last step)
    has more than one predecessor, and then the corrector raises too,
    provided it makes that walk: the pair is not skipped and no earlier
    pair raised. *)
Theorem merge_on_walk_raises (m : Matched) (n_frames : Z)
    (l1 l2 : list (node * node)) (fp fn : node) (m1 : Matched)
    (ws1 : list (node * node)) (t_fp t_fn : Z) (j : nat) (x : node) :
  division_pairs m = l1 ++ (fp, fn) :: l2 →
  correct_pairs n_frames l1 m = Ok (m1, ws1) →
  recorded (pred_graph m1) fp = false →
  recorded (gt_graph m1) fn = false →
  frame_of (pred_graph m) fp = Some t_fp →
  frame_of (gt_graph m) fn = Some t_fn →
  Z.abs (t_fp - t_fn) ≤ n_frames →
  t_fp ≠ t_fn →
  let later := if bool_decide (t_fp < t_fn) then (gt_graph m, fn) else (pred_graph m, fp) in
  (j < Z.to_nat (Z.abs (t_fp - t_fn)))%nat →
  pred_steps later.1 j later.2 = Ok (Some x) →
  (2 ≤ length (predecessors later.1 x))%nat →
  _get_pred_by_t later.1 later.2 (Z.abs (t_fp - t_fn)) = Raise ValueError
  ∧ _correct_shifted_divisions m n_frames = Raise ValueError.
Proof.
  intros Hsplit H1 R1 R2 F1 F2 Habs Hne later Hj Hx Hl.
  assert (Hwalk : _get_pred_by_t later.1 later.2 (Z.abs (t_fp - t_fn))
                  = Raise ValueError).
  { apply pred_steps_Raise. split; [done|]. eauto. }
  split; [done|].
  unfold _correct_shifted_divisions. rewrite Hsplit.
  rewrite (correct_pairs_Raise_at _ _ _ _ _ _ _ ValueError H1); [done|].
  pose proof (correct_pairs_same_lineage _ _ _ _ _ H1) as Hs.
  apply correct_pair_Raise. right. exists t_fp, t_fn. simpl.
  pose proof Hs as (_ & _ & _ & Hfg & Hfp & _).
  rewrite Hfg, Hfp. split_and!; try done.
  rewrite (lineages_match_ext m m1) by done.
  unfold lineages_match. subst later.
  case_bool_decide; simpl in Hwalk.
  - replace (t_fn - t_fp) with (Z.abs (t_fp - t_fn)) by lia. by rewrite Hwalk.
  - replace (t_fp - t_fn) with (Z.abs (t_fp - t_fn)) by lia. by rewrite Hwalk.
Qed.

Lemma merge_on_walk_raises_witness :
  division_pairs merging_ready = [] ++ (12, 1)%nat :: []
  ∧ (2 ≤ length (predecessors (pred_graph merging_ready) 12))%nat
  ∧ _correct_shifted_divisions merging_ready 1 = Raise ValueError.
Proof.
  assert (H0 : division_pairs merging_ready = [] ++ (12, 1)%nat :: [])
    by reflexivity.
  split; [exact H0|]. split; [vm_compute; lia|].
  refine (proj2 (merge_on_walk_raises merging_ready 1 [] [] 12 1 merging_ready []
                   6 5 0 12 H0 _ _ _ _ _ _ _ _ _ _)).
  - reflexivity.
  - reflexivity.
  - reflexivity.
  - reflexivity.
  - reflexivity.
  - vm_compute. discriminate.
  - discriminate.
  - vm_compute. lia.
  - reflexivity.
  - vm_compute. lia.
Defined.

(** C4, as stated, fails: the prediction of [merged_division] has a node
    with two predecessors, the candidate ancestor 11 that the walk from
    node 12 ends at; the corrector raises nothing and records the
    buffer. *)
Lemma merge_off_walk_no_error :
  predecessors (pred_graph merged_ready) 11 = [9; 10]%nat
  ∧ division_pairs merged_ready = [(12, 1)%nat]
  ∧ _get_pred_by_t (pred_graph merged_ready) 12 1 = Ok (Some 11%nat)
  ∧ ¬ raises (_correct_shifted_divisions merged_ready 1)
  ∧ _correct_shifted_divisions merged_ready 1
    = Ok (write_pair 1 merged_ready (12, 1)%nat).
Proof.
  split_and!; try reflexivity.
  vm_compute. tauto.
Qed.

(** C3, as stated, fails: in [late_division] node 1 at frame 5 divides
    into 2 and 3, the predicted node 12 at frame 6 divides into 13 and
    14, the pair (1, 12) is not matched, the single predecessor 11 of 12
    is at frame 5 and matched to 1, and 13 and 14 are matched to 2 and 3;
    with [max_frame_buffer = 1] both divisions keep the [np.nan] entry. *)
Lemma late_division_not_corrected :
  get_divisions late_gt = [1%nat]
  ∧ successors late_gt 1 = [2; 3]%nat
  ∧ frame_of late_gt 1 = Some 5
  ∧ get_divisions late_pred = [12%nat]
  ∧ successors late_pred 12 = [13; 14]%nat
  ∧ frame_of late_pred 12 = Some 6
  ∧ in_mapper late_division (Some 1%nat) (Some 12%nat) = false
  ∧ predecessors late_pred 12 = [11%nat]
  ∧ frame_of late_pred 11 = Some 5
  ∧ in_mapper late_division (Some 1%nat) (Some 11%nat) = true
  ∧ get_pred_gt_match late_division <$> successors late_pred 12
    = Some <$> successors late_gt 1
  ∧ ∃ m', evaluate_division_events late_division 1 = Ok m'
      ∧ node_has_flag (gt_graph m') 1 FN_DIV = true
      ∧ node_has_flag (pred_graph m') 12 FP_DIV = true
      ∧ buffer_of (gt_graph m') 1 = Some NaN
      ∧ buffer_of (pred_graph m') 12 = Some NaN.
Proof.
  split_and!; try reflexivity.
  eexists. split; [vm_compute; reflexivity|].
  split_and!; reflexivity.
Qed.

(** C3: in [shifted_division] the ground-truth daughters 2 and 3
    continue into frame 7 as 4 and 5, and the predicted daughters 13 and
    14, at frame 7, are matched to 4 and 5.  With [max_frame_buffer = 1]
    both divisions get [min_buffer_correct = 1]; node 1 keeps [FN_DIV]
    and node 12 keeps [FP_DIV] as their only flags. *)
Theorem shifted_division_corrected :
  get_divisions shifted_gt = [1%nat]
  ∧ successors shifted_gt 1 = [2; 3]%nat
  ∧ frame_of shifted_gt 1 = Some 5
  ∧ get_divisions late_pred = [12%nat]
  ∧ successors late_pred 12 = [13; 14]%nat
  ∧ frame_of late_pred 12 = Some 6
  ∧ in_mapper shifted_division (Some 1%nat) (Some 12%nat) = false
  ∧ predecessors late_pred 12 = [11%nat]
  ∧ frame_of late_pred 11 = Some 5
  ∧ in_mapper shifted_division (Some 1%nat) (Some 11%nat) = true
  ∧ get_pred_gt_match shifted_division <$> successors late_pred 12
    = (λ d, _get_succ_by_t shifted_gt d 1) <$> successors shifted_gt 1
  ∧ ∃ m', evaluate_division_events shifted_division 1 = Ok m'
      ∧ flags <$> node_info (gt_graph m') 1 = Some [FN_DIV]
      ∧ flags <$> node_info (pred_graph m') 12 = Some [FP_DIV]
      ∧ buffer_of (gt_graph m') 1 = Some (Frames 1)
      ∧ buffer_of (pred_graph m') 12 = Some (Frames 1).
Proof.
  split_and!; try reflexivity.
  eexists. split; [vm_compute; reflexivity|].
  split_and!; reflexivity.
Qed.

(** ** The orchestrator *)

Section orchestrator_facts.
Implicit Types (m : Matched) (g : TrackingGraph) (k fp fn : node)
  (pr : node * node) (n v : Z) (f : NodeFlag).

Lemma recorded_set_nan g a k :
  recorded (set_min_buffer_correct g a NaN) k
  = if decide (k = a) then false else recorded g k.
Proof.
  unfold recorded. rewrite node_info_set_buffer.
  destruct (decide (k = a)); [|done]. by destruct (node_info g k).
Qed.

Lemma recorded_foldl_nan (l : list node) g k :
  recorded (foldl (λ g (x : node), set_min_buffer_correct g x NaN) g l) k
  = if decide (k ∈ l) then false else recorded g k.
Proof.
  revert g. induction l as [|a l IH]; intros g; simpl.
  - destruct (decide (k ∈ [])) as [H|]; [by apply elem_of_nil in H|done].
  - rewrite IH, recorded_set_nan.
    destruct (decide (k ∈ l)) as [Hin|Hin], (decide (k ∈ a :: l)) as [Hin'|Hin'],
      (decide (k = a)) as [->|Hne]; try done; exfalso;
      rewrite ?elem_of_cons in *; naive_solver.
Qed.

Lemma get_nodes_with_flag_foldl_nan (l : list node) g f :
  get_nodes_with_flag (foldl (λ g (x : node), set_min_buffer_correct g x NaN) g l) f
  = get_nodes_with_flag g f.
Proof.
  revert g. induction l as [|a l IH]; intros g; simpl; [done|].
  by rewrite IH, get_nodes_with_flag_set_buffer.
Qed.

(** After the marking no FP or FN division carries a recorded buffer. *)
Lemma init_buffers_unresolved m :
  (∀ fp, fp ∈ get_nodes_with_flag (pred_graph (init_buffers m)) FP_DIV →
     recorded (pred_graph (init_buffers m)) fp = false)
  ∧ (∀ fn, fn ∈ get_nodes_with_flag (gt_graph (init_buffers m)) FN_DIV →
       recorded (gt_graph (init_buffers m)) fn = false).
Proof.
  unfold init_buffers, mark_nan. simpl. split.
  - intros fp. rewrite get_nodes_with_flag_foldl_nan, recorded_foldl_nan.
    intros H. by destruct (decide _).
  - intros fn. rewrite get_nodes_with_flag_foldl_nan, recorded_foldl_nan.
    intros H. by destruct (decide _).
Qed.

Lemma elem_of_product (a b : list node) (x y : node) :
  (x, y) ∈ product a b ↔ x ∈ a ∧ y ∈ b.
Proof.
  unfold product. rewrite list_elem_of_bind. split.
  - intros (x' & (y' & [= -> ->] & ?)%list_elem_of_fmap & ?). done.
  - intros [? ?]. exists x. split; [|done]. apply list_elem_of_fmap. eauto.
Qed.

Lemma division_pairs_ext m m' :
  same_lineage m m' → division_pairs m' = division_pairs m.
Proof.
  intros (_ & _ & _ & _ & _ & _ & _ & Hg & Hp).
  unfold division_pairs. by rewrite Hg, Hp.
Qed.

Lemma reconcilable_pos n m fp fn : reconcilable n m fp fn = true → 1 ≤ n.
Proof.
  unfold reconcilable.
  destruct (frame_of (pred_graph m) fp) as [t_fp|]; [|done].
  destruct (frame_of (gt_graph m) fn) as [t_fn|]; [|done].
  intros [H _]%andb_true_iff. apply negb_true_iff, orb_false_iff in H as [H1 H2].
  apply bool_decide_eq_false in H1, H2. lia.
Qed.

Lemma correct_passes_app (l1 l2 : list Z) m m' :
  correct_passes (l1 ++ l2) m = Ok m' ↔
  ∃ m1, correct_passes l1 m = Ok m1 ∧ correct_passes l2 m1 = Ok m'.
Proof.
  revert m. induction l1 as [|d l1 IH]; intros m; simpl.
  - split; [eauto|]. by intros (? & [= <-] & ?).
  - destruct (_correct_shifted_divisions m d) as [m0|e]; simpl.
    + apply IH.
    + split; [done|]. by intros (? & ? & _).
Qed.

Lemma correct_passes_same_lineage (l : list Z) m m' :
  correct_passes l m = Ok m' → same_lineage m m'.
Proof.
  revert m. induction l as [|d l IH]; intros m; simpl.
  - intros [= <-]. apply same_lineage_refl.
  - destruct (_correct_shifted_divisions m d) as [m0|e] eqn:E; simpl; [|done].
    intros H. apply correct_shifted_divisions_Ok in E as [ws E].
    eapply same_lineage_trans; eauto using correct_pairs_same_lineage.
Qed.

(** No pass overwrites a recorded buffer. *)
Lemma correct_passes_buffers_kept (l : list Z) m m' :
  correct_passes l m = Ok m' →
  buffers_kept (gt_graph m) (gt_graph m')
  ∧ buffers_kept (pred_graph m) (pred_graph m').
Proof.
  revert m. induction l as [|d l IH]; intros m; simpl.
  - intros [= <-]. by split; intros ? ? ?.
  - destruct (_correct_shifted_divisions m d) as [m0|e] eqn:E; simpl; [|done].
    intros H. apply correct_shifted_divisions_Ok in E as [ws E].
    destruct (correct_pairs_buffers_kept _ _ _ _ _ E) as [A1 A2].
    destruct (IH _ H) as [B1 B2].
    split; intros k v Hk; auto.
Qed.

Lemma buffer_range_succ (k : nat) :
  buffer_range (Z.of_nat (S k)) = buffer_range (Z.of_nat k) ++ [Z.of_nat (S k)].
Proof.
  unfold buffer_range. rewrite !Nat2Z.id, seq_S, fmap_app. done.
Qed.

Lemma buffer_range_split (k max : Z) :
  0 ≤ k ≤ max →
  ∃ l, buffer_range max = buffer_range k ++ l.
Proof.
  intros Hk. unfold buffer_range.
  exists (Z.of_nat <$> seq (1 + Z.to_nat k) (Z.to_nat max - Z.to_nat k)).
  rewrite <- fmap_app, <- seq_app. do 2 f_equal. lia.
Qed.
End orchestrator_facts.

(** The state after the passes for the buffers [1..k], started from a
    dataset in which no FP or FN division carries a recorded buffer:
    a recorded buffer [v] comes with a partner that carries the same
    buffer, with which the node reconciles at [v] and at no smaller
    buffer; and of any FP and FN division that reconcile at a buffer
    [n ≤ k], one carries a recorded buffer of at most [n]. *)
Lemma passes_invariant (m0 : Matched) (k : nat) (mk : Matched) :
  (∀ fp, fp ∈ get_nodes_with_flag (pred_graph m0) FP_DIV →
     recorded (pred_graph m0) fp = false) →
  (∀ fn, fn ∈ get_nodes_with_flag (gt_graph m0) FN_DIV →
     recorded (gt_graph m0) fn = false) →
  correct_passes (buffer_range (Z.of_nat k)) m0 = Ok mk →
  (∀ fp v, fp ∈ get_nodes_with_flag (pred_graph m0) FP_DIV →
     buffer_of (pred_graph mk) fp = Some (Frames v) →
     1 ≤ v ≤ Z.of_nat k
     ∧ ∃ fn, fn ∈ get_nodes_with_flag (gt_graph m0) FN_DIV
         ∧ buffer_of (gt_graph mk) fn = Some (Frames v)
         ∧ reconcilable v m0 fp fn = true
         ∧ ∀ n, reconcilable n m0 fp fn = true → v ≤ n)
  ∧ (∀ fn v, fn ∈ get_nodes_with_flag (gt_graph m0) FN_DIV →
       buffer_of (gt_graph mk) fn = Some (Frames v) →
       1 ≤ v ≤ Z.of_nat k
       ∧ ∃ fp, fp ∈ get_nodes_with_flag (pred_graph m0) FP_DIV
           ∧ buffer_of (pred_graph mk) fp = Some (Frames v)
           ∧ reconcilable v m0 fp fn = true
           ∧ ∀ n, reconcilable n m0 fp fn = true → v ≤ n)
  ∧ (∀ fp fn n, fp ∈ get_nodes_with_flag (pred_graph m0) FP_DIV →
       fn ∈ get_nodes_with_flag (gt_graph m0) FN_DIV →
       1 ≤ n ≤ Z.of_nat k → reconcilable n m0 fp fn = true →
       (∃ u, u ≤ n ∧ buffer_of (pred_graph mk) fp = Some (Frames u))
       ∨ (∃ u, u ≤ n ∧ buffer_of (gt_graph mk) fn = Some (Frames u))).
Proof.
  intros U1 U2. revert mk. induction k as [|k IH]; intros mk.
  { intros [= <-]. split_and!.
    - intros fp v Hfp Hb. apply U1 in Hfp.
      by apply (recorded_false_buffer_of _ _ v) in Hfp.
    - intros fn v Hfn Hb. apply U2 in Hfn.
      by apply (recorded_false_buffer_of _ _ v) in Hfn.
    - intros ? ? ? _ _ ?. lia. }
  rewrite buffer_range_succ.
  intros (m1 & H1 & H2)%correct_passes_app.
  destruct (IH _ H1) as (A1 & A2 & K).
  pose proof (correct_passes_same_lineage _ _ _ H1) as Hs.
  simpl in H2.
  destruct (_correct_shifted_divisions m1 (Z.of_nat (S k))) as [m2|e] eqn:E;
    simpl in H2; [|done].
  injection H2 as ->.
  apply correct_shifted_divisions_Ok in E as [ws E].
  rewrite (division_pairs_ext _ _ Hs) in E.
  destruct (correct_pairs_buffers_kept _ _ _ _ _ E) as [Kg Kp].
  (* a pair written in this pass *)
  assert (Hnew : ∀ pr, pr ∈ ws →
    pr.1 ∈ get_nodes_with_flag (pred_graph m0) FP_DIV
    ∧ pr.2 ∈ get_nodes_with_flag (gt_graph m0) FN_DIV
    ∧ buffer_of (pred_graph mk) pr.1 = Some (Frames (Z.of_nat (S k)))
    ∧ buffer_of (gt_graph mk) pr.2 = Some (Frames (Z.of_nat (S k)))
    ∧ reconcilable (Z.of_nat (S k)) m0 pr.1 pr.2 = true
    ∧ ∀ n, reconcilable n m0 pr.1 pr.2 = true → Z.of_nat (S k) ≤ n).
  { intros [fp fn] Hin.
    destruct (correct_pairs_log _ _ _ _ _ _ E Hin) as (Hp & R1 & R2 & R3 & B1 & B2).
    simpl in *. apply elem_of_product in Hp as [Hfp Hfn].
    rewrite (reconcilable_ext _ m0 m1) in R3 by done.
    split_and!; try done.
    intros n Hn. destruct (Z_lt_le_dec n (Z.of_nat (S k))) as [Hlt|]; [|done].
    exfalso. pose proof (reconcilable_pos _ _ _ _ Hn).
    destruct (K fp fn n Hfp Hfn ltac:(lia) Hn) as [(u & _ & Hu)|(u & _ & Hu)].
    - by apply (recorded_false_buffer_of _ _ u) in R1.
    - by apply (recorded_false_buffer_of _ _ u) in R2. }
  assert (B1 : ∀ fp v, fp ∈ get_nodes_with_flag (pred_graph m0) FP_DIV →
     buffer_of (pred_graph mk) fp = Some (Frames v) →
     1 ≤ v ≤ Z.of_nat (S k)
     ∧ ∃ fn, fn ∈ get_nodes_with_flag (gt_graph m0) FN_DIV
         ∧ buffer_of (gt_graph mk) fn = Some (Frames v)
         ∧ reconcilable v m0 fp fn = true
         ∧ ∀ n, reconcilable n m0 fp fn = true → v ≤ n).
  { intros fp v Hfp Hb.
    destruct (correct_pairs_provenance _ _ _ _ _ fp (Frames v) E) as [P _].
    destruct (P Hb) as [Hold|[[= ->] (pr & -> & Hin)%list_elem_of_fmap]].
    - destruct (A1 fp v Hfp Hold) as (? & fn & ? & ? & ? & ?).
      split; [lia|]. exists fn. split_and!; auto.
    - destruct (Hnew pr Hin) as (_ & ? & _ & ? & ? & ?).
      split; [lia|]. exists pr.2. split_and!; auto. }
  assert (B2 : ∀ fn v, fn ∈ get_nodes_with_flag (gt_graph m0) FN_DIV →
     buffer_of (gt_graph mk) fn = Some (Frames v) →
     1 ≤ v ≤ Z.of_nat (S k)
     ∧ ∃ fp, fp ∈ get_nodes_with_flag (pred_graph m0) FP_DIV
         ∧ buffer_of (pred_graph mk) fp = Some (Frames v)
         ∧ reconcilable v m0 fp fn = true
         ∧ ∀ n, reconcilable n m0 fp fn = true → v ≤ n).
  { intros fn v Hfn Hb.
    destruct (correct_pairs_provenance _ _ _ _ _ fn (Frames v) E) as [_ P].
    destruct (P Hb) as [Hold|[[= ->] (pr & -> & Hin)%list_elem_of_fmap]].
    - destruct (A2 fn v Hfn Hold) as (? & fp & ? & ? & ? & ?).
      split; [lia|]. exists fp. split_and!; auto.
    - destruct (Hnew pr Hin) as (? & _ & ? & _ & ? & ?).
      split; [lia|]. exists pr.1. split_and!; auto. }
  split_and!; [done..|].
  intros fp fn n Hfp Hfn Hn Hr.
  destruct (Z_lt_le_dec n (Z.of_nat (S k))) as [Hlt|Hge].
  - destruct (K fp fn n Hfp Hfn ltac:(lia) Hr) as [(u & ? & Hu)|(u & ? & Hu)];
      [left|right]; exists u; auto.
  - assert (n = Z.of_nat (S k)) as -> by lia.
    assert (Hin : (fp, fn) ∈ division_pairs m0) by by apply elem_of_product.
    rewrite <- (reconcilable_ext _ m0 m1) in Hr by done.
    destruct (correct_pairs_cover _ _ _ _ _ (fp, fn) E Hin Hr)
      as [[u Hu]%recorded_buffer_of|[u Hu]%recorded_buffer_of]; simpl in Hu.
    + left. exists u. split; [|done]. destruct (B1 fp u Hfp Hu) as [? _]. lia.
    + right. exists u. split; [|done]. destruct (B2 fn u Hfn Hu) as [? _]. lia.
Qed.

Lemma buffer_range_to_nat (max_frame_buffer : Z) :
  buffer_range max_frame_buffer = buffer_range (Z.of_nat (Z.to_nat max_frame_buffer)).
Proof. unfold buffer_range. by rewrite Nat2Z.id. Qed.

(** C1: when [evaluate_division_events] returns, (1) a buffer recorded
    after the passes [1..k] is still the recorded buffer at the end: no
    later pass overwrites it; (2) the loop body skips every pair one of
    whose nodes carries a recorded buffer; (3) a buffer [v] recorded on
    an FP division lies in [1..max_frame_buffer], an FN division carries
    the same buffer, the two reconcile at [v] and at no smaller buffer,
    and every FN division with which the FP division reconciles at a
    buffer [n < v] was resolved at a buffer of at most [n]; (4) the same
    with the roles of FP and FN divisions exchanged. *)
Theorem min_buffer_correct_minimal (m : Matched) (max_frame_buffer : Z) (m' : Matched) :
  evaluate_division_events m max_frame_buffer = Ok m' →
  (∀ k, 0 ≤ k ≤ max_frame_buffer →
     ∃ mk, correct_passes (buffer_range k) (init_buffers (_classify_divisions m)) = Ok mk
       ∧ buffers_kept (pred_graph mk) (pred_graph m')
       ∧ buffers_kept (gt_graph mk) (gt_graph m'))
  ∧ (∀ n mk pr,
       is_Some (node_info (pred_graph mk) pr.1) →
       is_Some (node_info (gt_graph mk) pr.2) →
       recorded (pred_graph mk) pr.1 || recorded (gt_graph mk) pr.2 = true →
       correct_pair n mk pr = Ok (mk, false))
  ∧ (∀ fp v, fp ∈ get_nodes_with_flag (pred_graph m') FP_DIV →
       buffer_of (pred_graph m') fp = Some (Frames v) →
       1 ≤ v ≤ max_frame_buffer
       ∧ (∃ fn, fn ∈ get_nodes_with_flag (gt_graph m') FN_DIV
            ∧ buffer_of (gt_graph m') fn = Some (Frames v)
            ∧ reconcilable v m' fp fn = true
            ∧ ∀ n, reconcilable n m' fp fn = true → v ≤ n)
       ∧ (∀ n fn, n < v → fn ∈ get_nodes_with_flag (gt_graph m') FN_DIV →
            reconcilable n m' fp fn = true →
            ∃ u, u ≤ n ∧ buffer_of (gt_graph m') fn = Some (Frames u)))
  ∧ (∀ fn v, fn ∈ get_nodes_with_flag (gt_graph m') FN_DIV →
       buffer_of (gt_graph m') fn = Some (Frames v) →
       1 ≤ v ≤ max_frame_buffer
       ∧ (∃ fp, fp ∈ get_nodes_with_flag (pred_graph m') FP_DIV
            ∧ buffer_of (pred_graph m') fp = Some (Frames v)
            ∧ reconcilable v m' fp fn = true
            ∧ ∀ n, reconcilable n m' fp fn = true → v ≤ n)
       ∧ (∀ n fp, n < v → fp ∈ get_nodes_with_flag (pred_graph m') FP_DIV →
            reconcilable n m' fp fn = true →
            ∃ u, u ≤ n ∧ buffer_of (pred_graph m') fp = Some (Frames u))).
Proof.
  unfold evaluate_division_events.
  set (m0 := init_buffers (_classify_divisions m)). intros Hrun.
  pose proof (correct_passes_same_lineage _ _ _ Hrun) as Hs.
  pose proof Hs as (_ & _ & _ & _ & _ & _ & _ & Fg & Fp).
  destruct (init_buffers_unresolved (_classify_divisions m)) as [U1 U2].
  pose proof Hrun as Hrun'. rewrite buffer_range_to_nat in Hrun'.
  destruct (passes_invariant m0 _ m' U1 U2 Hrun') as (A1 & A2 & K).
  split_and!.
  - intros k Hk. destruct (buffer_range_split k max_frame_buffer Hk) as [l Hl].
    rewrite Hl in Hrun. apply correct_passes_app in Hrun as (mk & H1 & H2).
    exists mk. destruct (correct_passes_buffers_kept _ _ _ H2). done.
  - intros n mk pr. apply correct_pair_skip.
  - intros fp v Hfp Hb. rewrite Fp in Hfp.
    destruct (A1 fp v Hfp Hb) as (Hv & fn & Hfn & Hbn & Hr & Hmin).
    split; [lia|]. split.
    + exists fn. rewrite Fg. split_and!; try done.
      * by rewrite (reconcilable_ext _ m0 m').
      * intros n. rewrite (reconcilable_ext _ m0 m') by done. apply Hmin.
    + intros n fn' Hn Hfn' Hr'. rewrite Fg in Hfn'.
      rewrite (reconcilable_ext _ m0 m') in Hr' by done.
      pose proof (reconcilable_pos _ _ _ _ Hr').
      destruct (K fp fn' n Hfp Hfn' ltac:(lia) Hr') as [(u & ? & Hu)|(u & ? & Hu)].
      * rewrite Hb in Hu. injection Hu as <-. lia.
      * eauto.
  - intros fn v Hfn Hb. rewrite Fg in Hfn.
    destruct (A2 fn v Hfn Hb) as (Hv & fp & Hfp & Hbp & Hr & Hmin).
    split; [lia|]. split.
    + exists fp. rewrite Fp. split_and!; try done.
      * by rewrite (reconcilable_ext _ m0 m').
      * intros n. rewrite (reconcilable_ext _ m0 m') by done. apply Hmin.
    + intros n fp' Hn Hfp' Hr'. rewrite Fp in Hfp'.
      rewrite (reconcilable_ext _ m0 m') in Hr' by done.
      pose proof (reconcilable_pos _ _ _ _ Hr').
      destruct (K fp' fn n Hfp' Hfn ltac:(lia) Hr') as [(u & ? & Hu)|(u & ? & Hu)].
      * eauto.
      * rewrite Hb in Hu. injection Hu as <-. lia.
Qed.

(** Closes one case of the iteration orders below: the dataset is
    evaluated and the FP division [fp] is the one that records 2. *)
Ltac exists_later fp Hfn :=
  repeat (apply elem_of_cons in Hfn as [->|Hfn]);
  [..|by apply elem_of_nil in Hfn];
  (eexists; exists fp; split; [vm_compute; reflexivity|];
   split_and!; try reflexivity; by_evaluation).

(** C1, as stated, fails in its last clause: the recorded value need
    not be the smallest buffer at which the division is reconcilable.
    In [rival_division] the FP divisions 20 and 23 both reconcile with
    the FN division 2 at buffer 1.  Whatever the order in which the FP
    and the FN divisions are iterated, the FP division that comes first
    takes 2 at buffer 1 and the other one is attributed, at buffer 2, to
    the FN division two frames away from it: it records 2 although it
    reconciles with 2 at buffer 1.  The statement ranges over all the
    orders of the two FP divisions and of the three FN divisions. *)
Lemma recorded_buffer_not_smallest :
  Forall (λ fp_order : list node,
    Forall (λ fn_order : list node,
      ∃ m' fp,
        evaluate_division_events (rival_division fp_order fn_order) 2 = Ok m'
        ∧ get_nodes_with_flag (pred_graph m') FP_DIV = fp_order
        ∧ get_nodes_with_flag (gt_graph m') FN_DIV = fn_order
        ∧ fp ∈ fp_order
        ∧ buffer_of (pred_graph m') fp = Some (Frames 2)
        ∧ buffer_of (gt_graph m') 2 = Some (Frames 1)
        ∧ reconcilable 1 m' fp 2 = true)
      (permutations [2; 4; 8]%nat))
    (permutations [20; 23]%nat).
Proof.
  apply list.Forall_forall. intros fp_order Hfp.
  apply list.Forall_forall. intros fn_order Hfn.
  change (fp_order ∈ ([[20; 23]; [23; 20]]%nat : list (list node))) in Hfp.
  change (fn_order ∈ ([[2; 4; 8]; [4; 2; 8]; [4; 8; 2]; [2; 8; 4]; [8; 2; 4];
                       [8; 4; 2]]%nat : list (list node))) in Hfn.
  repeat (apply elem_of_cons in Hfp as [->|Hfp]); [| |by apply elem_of_nil in Hfp].
  - exists_later 23%nat Hfn.
  - exists_later 20%nat Hfn.
Qed.

(** The theorem at work on [two_shifts], with three passes: the buffer
    1 recorded on the FP division 12 in the first pass is kept by the
    passes 2 and 3, and the FP division 33 records 2 together with the
    FN division 21, with which it reconciles at no smaller buffer. *)
Lemma min_buffer_correct_minimal_witness :
  evaluate_division_events two_shifts 3
  = Ok (write_pair 2 (write_pair 1 two_shifts_ready (12, 1)%nat) (33, 21)%nat)
  ∧ correct_passes (buffer_range 1) two_shifts_ready
    = Ok (write_pair 1 two_shifts_ready (12, 1)%nat)
  ∧ buffer_of (pred_graph (write_pair 1 two_shifts_ready (12, 1)%nat)) 12
    = Some (Frames 1)
  ∧ buffers_kept
      (pred_graph (write_pair 1 two_shifts_ready (12, 1)%nat))
      (pred_graph (write_pair 2 (write_pair 1 two_shifts_ready (12, 1)%nat)
                     (33, 21)%nat))
  ∧ 1 ≤ 2 ≤ 3
  ∧ ∃ fn,
      fn ∈ get_nodes_with_flag
             (gt_graph (write_pair 2 (write_pair 1 two_shifts_ready (12, 1)%nat)
                          (33, 21)%nat)) FN_DIV
      ∧ buffer_of
          (gt_graph (write_pair 2 (write_pair 1 two_shifts_ready (12, 1)%nat)
                       (33, 21)%nat)) fn
        = Some (Frames 2)
      ∧ reconcilable 2
          (write_pair 2 (write_pair 1 two_shifts_ready (12, 1)%nat) (33, 21)%nat)
          33 fn = true
      ∧ ∀ n, reconcilable n
               (write_pair 2 (write_pair 1 two_shifts_ready (12, 1)%nat) (33, 21)%nat)
               33 fn = true → 2 ≤ n.
Proof.
  assert (H : evaluate_division_events two_shifts 3
              = Ok (write_pair 2 (write_pair 1 two_shifts_ready (12, 1)%nat)
                      (33, 21)%nat)).
  { vm_compute. reflexivity. }
  assert (H1 : correct_passes (buffer_range 1) two_shifts_ready
               = Ok (write_pair 1 two_shifts_ready (12, 1)%nat)).
  { vm_compute. reflexivity. }
  split; [exact H|]. split; [exact H1|]. split; [reflexivity|].
  destruct (min_buffer_correct_minimal _ _ _ H) as (Hkept & _ & H3 & _).
  destruct (Hkept 1) as (mk & Hmk & Kp & _); [lia|].
  change (init_buffers (_classify_divisions two_shifts)) with two_shifts_ready in Hmk.
  rewrite H1 in Hmk. injection Hmk as <-.
  split; [exact Kp|].
  destruct (H3 33%nat 2) as (Hv & Hpartner & _).
  - by_evaluation.
  - reflexivity.
  - split; [exact Hv|exact Hpartner].
Defined.

(** ** Matched divisions *)

Section one_to_one.
Implicit Types (l : list (node * node)) (a b : node).

Lemma first_pred_for_elem l a b : first_pred_for l a = Some b → (a, b) ∈ l.
Proof.
  induction l as [|[x y] l IH]; simpl; [done|].
  destruct (decide (x = a)) as [->|?].
  - intros [= ->]. by left.
  - intros ?. right. auto.
Qed.

Lemma first_gt_for_elem l a b : first_gt_for l b = Some a → (a, b) ∈ l.
Proof.
  induction l as [|[x y] l IH]; simpl; [done|].
  destruct (decide (y = b)) as [->|?].
  - intros [= ->]. by left.
  - intros ?. right. auto.
Qed.

Lemma first_pred_for_NoDup l a b :
  NoDup l.*1 → (a, b) ∈ l → first_pred_for l a = Some b.
Proof.
  induction l as [|[x y] l IH]; simpl; [by intros _ ?%elem_of_nil|].
  intros [Hx Hnd]%list.NoDup_cons [[= <- <-]|Hin]%elem_of_cons.
  - by rewrite decide_True.
  - rewrite decide_False; [auto|]. intros ->. apply Hx.
    apply list_elem_of_fmap. by exists (a, b).
Qed.

Lemma first_gt_for_NoDup l a b :
  NoDup l.*2 → (a, b) ∈ l → first_gt_for l b = Some a.
Proof.
  induction l as [|[x y] l IH]; simpl; [by intros _ ?%elem_of_nil|].
  intros [Hy Hnd]%list.NoDup_cons [[= <- <-]|Hin]%elem_of_cons.
  - by rewrite decide_True.
  - rewrite decide_False; [auto|]. intros ->. apply Hy.
    apply list_elem_of_fmap. by exists (a, b).
Qed.

(** In a one-to-one mapping the two lookups are inverse to each other. *)
Lemma lookups_inverse l a b :
  NoDup l.*1 → NoDup l.*2 →
  first_pred_for l a = Some b ↔ first_gt_for l b = Some a.
Proof.
  intros H1 H2. split.
  - intros ?%first_pred_for_elem. by apply first_gt_for_NoDup.
  - intros ?%first_gt_for_elem. by apply first_pred_for_NoDup.
Qed.

Lemma elements_Counter (xs : list (option node)) : elements (Counter xs) ≡ₚ xs.
Proof.
  unfold Counter. induction xs as [|x xs IH]; simpl.
  - by rewrite gmultiset_elements_empty.
  - by rewrite gmultiset_elements_disj_union, gmultiset_elements_singleton, IH.
Qed.

Lemma Counter_eqb_Permutation (xs ys : list (option node)) :
  Counter_eqb xs ys = true ↔ xs ≡ₚ ys.
Proof.
  unfold Counter_eqb. rewrite bool_decide_eq_true. split.
  - intros H. by rewrite <- (elements_Counter xs), H, elements_Counter.
  - intros H. unfold Counter. by rewrite H.
Qed.

Lemma transfer_Permutation (fwd bwd : node → option node) (D E : list node) :
  (∀ a b, fwd a = Some b → bwd b = Some a) →
  fwd <$> D ≡ₚ Some <$> E → Some <$> D ≡ₚ bwd <$> E.
Proof.
  intros Hinv H.
  transitivity ((λ o : option node, o ≫= bwd) <$> (fwd <$> D)).
  - rewrite <- list_fmap_compose.
    rewrite (list_fmap_ext Some ((λ o : option node, o ≫= bwd) ∘ fwd) D); [done|].
    intros i d Hd. simpl.
    assert (Hin : fwd d ∈ Some <$> E).
    { rewrite <- H. apply list_elem_of_fmap_2. by eapply list_elem_of_lookup_2. }
    apply list_elem_of_fmap in Hin as (e & He & _). rewrite He. simpl.
    symmetry. by apply Hinv.
  - rewrite H, <- list_fmap_compose. done.
Qed.

(** With a one-to-one mapping, comparing the ground-truth daughters
    mapped forward with the predicted daughters is the same as
    comparing the ground-truth daughters with the predicted daughters
    mapped back, which is what the source does. *)
Lemma Counter_eqb_direction l (D E : list node) :
  NoDup l.*1 → NoDup l.*2 →
  Counter_eqb (first_pred_for l <$> D) (Some <$> E)
  = Counter_eqb (Some <$> D) (first_gt_for l <$> E).
Proof.
  intros H1 H2. apply eq_true_iff_eq. rewrite !Counter_eqb_Permutation. split.
  - apply transfer_Permutation. intros a b. by apply lookups_inverse.
  - intros H. symmetry. symmetry in H. revert H.
    apply transfer_Permutation. intros a b. by apply lookups_inverse.
Qed.
End one_to_one.

Section matched_divisions.
Implicit Types (m : Matched) (st : Matched * list node) (g p k : node)
  (f : NodeFlag) (gs work : list node).

Lemma node_has_flag_set_same (gr : TrackingGraph) k f f' :
  is_Some (node_info gr k) →
  node_has_flag (set_flag_on_node gr k f) k f'
  = bool_decide (f' = f) || node_has_flag gr k f'.
Proof.
  intros [i Hi]. unfold node_has_flag.
  rewrite node_info_set_flag, decide_True, Hi by done. simpl.
  apply has_flag_add_flag.
Qed.

Lemma NoDup_get_divisions (gr : TrackingGraph) :
  NoDup (graph_nodes gr).*1 → NoDup (get_divisions gr).
Proof. apply list.NoDup_filter. Qed.

Lemma gt_loop_gt_other gs st g f :
  g ∉ gs →
  node_has_flag (gt_graph (foldl classify_gt_division st gs).1) g f
  = node_has_flag (gt_graph st.1) g f.
Proof.
  revert st. induction gs as [|a gs IH]; intros st Hg; simpl; [done|].
  apply not_elem_of_cons in Hg as [Hne Hg].
  rewrite IH by done. by apply classify_gt_division_gt_other.
Qed.

Lemma classify_gt_division_pred_other st g p f :
  get_gt_pred_match st.1 g ≠ Some p →
  node_has_flag (pred_graph (classify_gt_division st g).1) p f
  = node_has_flag (pred_graph st.1) p f.
Proof.
  intros Hne.
  destruct (classify_gt_division_cases st g) as [->|(q & fl & Hq & _ & ->)]; simpl;
    [done|].
  apply node_has_flag_set_ne. left. congruence.
Qed.

Lemma gt_loop_pred_other gs st p f :
  (∀ g, g ∈ gs → get_gt_pred_match st.1 g ≠ Some p) →
  node_has_flag (pred_graph (foldl classify_gt_division st gs).1) p f
  = node_has_flag (pred_graph st.1) p f.
Proof.
  revert st. induction gs as [|a gs IH]; intros st Hgs; simpl; [done|].
  rewrite IH.
  - apply classify_gt_division_pred_other, Hgs. by left.
  - intros g Hg. unfold get_gt_pred_match. rewrite classify_gt_division_mapping.
    apply Hgs. by right.
Qed.

Lemma gt_loop_work_NoDup gs st :
  NoDup st.2 → NoDup (foldl classify_gt_division st gs).2.
Proof.
  revert st. induction gs as [|a gs IH]; intros st Hnd; simpl; [done|].
  apply IH.
  destruct (classify_gt_division_cases st a) as [->|(q & fl & _ & _ & ->)]; simpl;
    [done|]. by apply list_remove_NoDup_2.
Qed.
End matched_divisions.

(** C2: when no node occurs in two pairs of the mapping, a ground-truth
    division [g] whose matched predicted node [p] is a predicted
    division gets, together with [p], the flag [TP_DIV] if the multiset
    of the daughters of [g] mapped to their predicted counterparts (or
    [None]) equals the multiset of the daughters of [p], and the flag
    [WC_DIV] otherwise; the classifier gives neither node another flag. *)
Theorem matched_division_TP_or_WC (m : Matched) (g p : node) :
  division_annotations (gt_graph m) && division_annotations (pred_graph m) = false →
  NoDup (mapping m).*1 → NoDup (mapping m).*2 →
  NoDup (graph_nodes (gt_graph m)).*1 → NoDup (graph_nodes (pred_graph m)).*1 →
  g ∈ get_divisions (gt_graph m) →
  get_gt_pred_match m g = Some p →
  p ∈ get_divisions (pred_graph m) →
  let fl :=
    if Counter_eqb (get_gt_pred_match m <$> successors (gt_graph m) g)
                   (Some <$> successors (pred_graph m) p)
    then TP_DIV else WC_DIV in
  (∀ f, node_has_flag (gt_graph (_classify_divisions m)) g f
        = bool_decide (f = fl) || node_has_flag (gt_graph m) g f)
  ∧ (∀ f, node_has_flag (pred_graph (_classify_divisions m)) p f
          = bool_decide (f = fl) || node_has_flag (pred_graph m) p f).
Proof.
  intros Hrun M1 M2 N1 N2 Hg Hm Hp fl.
  pose proof (NoDup_get_divisions _ N1) as D1.
  pose proof (NoDup_get_divisions _ N2) as D2.
  assert (Huniq : ∀ a, a ≠ g → get_gt_pred_match m a ≠ Some p).
  { intros a Hne Ha. apply Hne.
    apply first_pred_for_elem, (first_gt_for_NoDup _ _ _ M2) in Ha, Hm. congruence. }
  destruct (list_elem_of_split_l _ _ Hg) as (gs1 & gs2 & Hsplit & Hg1).
  assert (Hg2 : g ∉ gs2).
  { rewrite Hsplit in D1. apply list.NoDup_app in D1 as (_ & _ & D1).
    by apply list.NoDup_cons in D1 as [? _]. }
  set (st0 := (m, get_divisions (pred_graph m))).
  set (st1 := foldl classify_gt_division st0 gs1).
  assert (Hst : classify_gt_divisions m
                = foldl classify_gt_division (classify_gt_division st1 g) gs2).
  { unfold classify_gt_divisions. by rewrite Hsplit, foldl_app. }
  assert (Hmap1 : mapping st1.1 = mapping m) by apply gt_loop_mapping.
  assert (Hm1 : get_gt_pred_match st1.1 g = Some p).
  { unfold get_gt_pred_match. by rewrite Hmap1. }
  assert (Hp1 : p ∈ st1.2).
  { apply gt_loop_work_keep; [|done]. intros a Ha. apply Huniq. by intros ->. }
  assert (Hnd1 : NoDup st1.2) by by apply gt_loop_work_NoDup.
  pose proof (classify_gt_division_div st1 g p Hm1 Hp1) as Hstep. simpl in Hstep.
  destruct (gt_loop_successors gs1 st0 g) as [Sg _].
  destruct (gt_loop_successors gs1 st0 p) as [_ Sp].
  fold st1 in Sg, Sp. simpl in Sg, Sp.
  unfold get_pred_gt_match in Hstep. rewrite Sg, Sp, Hmap1 in Hstep.
  rewrite <- (Counter_eqb_direction (mapping m)) in Hstep by done.
  fold (get_gt_pred_match m) in Hstep. fold fl in Hstep.
  assert (Sg1 : is_Some (node_info (gt_graph st1.1) g)).
  { apply gt_loop_is_Some. simpl. by apply get_divisions_is_node. }
  assert (Sp1 : is_Some (node_info (pred_graph st1.1) p)).
  { apply gt_loop_is_Some. simpl. by apply get_divisions_is_node. }
  split; intros f.
  - destruct (classify_divisions_run m Hrun g f) as [-> _].
    rewrite Hst, gt_loop_gt_other, Hstep by done. simpl.
    rewrite node_has_flag_set_same by done.
    by rewrite (gt_loop_gt_other gs1 st0).
  - destruct (classify_divisions_run m Hrun p f) as [_ ->].
    rewrite flag_false_positives_other.
    + rewrite Hst, gt_loop_pred_other, Hstep.
      * simpl. rewrite node_has_flag_set_same by done.
        rewrite (gt_loop_pred_other gs1 st0); [done|].
        intros a Ha. apply Huniq. by intros ->.
      * intros a Ha. rewrite Hstep. unfold get_gt_pred_match. simpl.
        rewrite Hmap1. apply Huniq. by intros ->.
    + left. rewrite Hst. intros Hin%gt_loop_work_subset.
      rewrite Hstep in Hin. simpl in Hin. by apply list_remove_NoDup in Hin.
Qed.

Lemma matched_division_TP_or_WC_witness :
  division_annotations (gt_graph once_matched)
    && division_annotations (pred_graph once_matched) = false
  ∧ get_gt_pred_match once_matched 1 = Some 11%nat
  ∧ node_has_flag (gt_graph (_classify_divisions once_matched)) 1 TP_DIV = true
  ∧ node_has_flag (pred_graph (_classify_divisions once_matched)) 11 TP_DIV = true.
Proof.
  split; [reflexivity|]. split; [reflexivity|].
  assert (H : (∀ f, node_has_flag (gt_graph (_classify_divisions once_matched)) 1 f
                    = bool_decide (f = TP_DIV)
                      || node_has_flag (gt_graph once_matched) 1 f)
            ∧ (∀ f, node_has_flag (pred_graph (_classify_divisions once_matched)) 11 f
                    = bool_decide (f = TP_DIV)
                      || node_has_flag (pred_graph once_matched) 11 f)).
  { apply (matched_division_TP_or_WC once_matched 1%nat 11%nat).
    - reflexivity.
    - by_evaluation.
    - by_evaluation.
    - by_evaluation.
    - by_evaluation.
    - by_evaluation.
    - reflexivity.
    - by_evaluation. }
  destruct H as [H1 H2]. split; [apply (H1 TP_DIV)|apply (H2 TP_DIV)].
Defined.

(** C2, as stated, fails: in [twice_matched] the daughters 2 and 3 of
    the ground-truth division 1 map to 12 and 13, the daughters of the
    matched predicted division 11, so the two multisets are equal; the
    classifier maps 12 back to node 7, its first match, and flags both
    divisions [WC_DIV], not [TP_DIV]. *)
Lemma twice_matched_flagged_WC :
  get_divisions (gt_graph twice_matched) = [1%nat]
  ∧ get_gt_pred_match twice_matched 1 = Some 11%nat
  ∧ get_divisions (pred_graph twice_matched) = [11%nat]
  ∧ Counter_eqb
      (get_gt_pred_match twice_matched <$> successors (gt_graph twice_matched) 1)
      (Some <$> successors (pred_graph twice_matched) 11) = true
  ∧ node_has_flag (gt_graph (_classify_divisions twice_matched)) 1 TP_DIV = false
  ∧ node_has_flag (pred_graph (_classify_divisions twice_matched)) 11 TP_DIV = false
  ∧ node_has_flag (gt_graph (_classify_divisions twice_matched)) 1 WC_DIV = true
  ∧ node_has_flag (pred_graph (_classify_divisions twice_matched)) 11 WC_DIV = true.
Proof. split_and!; vm_compute; reflexivity. Qed.

(** ** The per-frame matcher *)

Section iou_facts.
Context {F : Type} (fzero : F) (fdiv : Z → Z → F) (fge : F → F → bool).
Implicit Types (iou : list (list F)) (row : list F) (i j g p : nat)
  (gt res ogl orl indices : list nat) (t v : F).

Lemma table_get_zeros (r c : nat) i j :
  table_get (replicate r (replicate c fzero)) i j
  = if decide (i < r ∧ j < c)%nat then Some fzero else None.
Proof.
  unfold table_get.
  destruct (decide (i < r)%nat) as [Hi|Hi].
  - rewrite lookup_replicate_2 by done. simpl.
    destruct (decide (j < c)%nat) as [Hj|Hj].
    + rewrite lookup_replicate_2 by done. by rewrite decide_True.
    + rewrite decide_False by lia. apply lookup_ge_None.
      rewrite length_replicate. lia.
  - rewrite decide_False by lia.
    rewrite (proj2 (lookup_ge_None _ _)); [done|].
    rewrite length_replicate. lia.
Qed.

Lemma table_set_Ok iou i j v :
  is_Some (table_get iou i j) →
  ∃ iou', table_set iou i j v = Ok iou'
    ∧ ∀ i' j', table_get iou' i' j'
               = if decide (i' = i ∧ j' = j) then Some v else table_get iou i' j'.
Proof.
  unfold table_get, table_set. intros [x Hx].
  destruct (iou !! i) as [row|] eqn:Hrow; simpl in Hx; [|done].
  pose proof (lookup_lt_Some _ _ _ Hx) as Hj.
  pose proof (lookup_lt_Some _ _ _ Hrow) as Hi.
  rewrite decide_True by done. eexists. split; [done|].
  intros i' j'. rewrite list_lookup_insert.
  destruct (decide (i' = i)) as [->|Hne].
  - rewrite decide_True by done. simpl. rewrite list_lookup_insert.
    destruct (decide (j' = j)) as [->|Hne'].
    + by rewrite !decide_True.
    + rewrite !decide_False by (intros [? ?]; congruence). by rewrite Hrow.
  - by rewrite !decide_False by (intros [? ?]; congruence).
Qed.

Lemma proposed_cons ogl orl i indices g p :
  ogl !! i = Some g → orl !! i = Some p →
  proposed ogl orl (i :: indices) = (g, p) :: proposed ogl orl indices.
Proof. intros Hg Hp. unfold proposed. csimpl. by rewrite Hg, Hp. Qed.

(** The array after the loop: the proposed pairs hold their IoU, the
    other entries are as before. *)
Lemma fill_iou_Ok gt res ogl orl indices iou :
  length gt = length res →
  (∀ i, i ∈ indices → is_Some (ogl !! i) ∧ is_Some (orl !! i)) →
  (∀ g p, (g, p) ∈ proposed ogl orl indices → is_Some (table_get iou g p)) →
  ∃ iou', fill_iou fdiv gt res ogl orl indices iou = Ok iou'
    ∧ ∀ g p, table_get iou' g p
             = if decide ((g, p) ∈ proposed ogl orl indices)
               then Some (iou_value fdiv gt res g p)
               else table_get iou g p.
Proof.
  clear fzero fge.
  intros Hlen. revert iou. induction indices as [|i indices IH]; intros iou Hidx Hin.
  - exists iou. split; [done|]. intros g p.
    rewrite decide_False; [done|]. apply not_elem_of_nil.
  - destruct (Hidx i) as [[g0 Hg0] [p0 Hp0]]; [by left|].
    rewrite (proposed_cons _ _ _ _ _ _ Hg0 Hp0) in Hin |- *.
    simpl. unfold getitem. rewrite Hg0, Hp0. simpl.
    rewrite decide_True by done.
    destruct (table_set_Ok iou g0 p0
                (fdiv (intersection_sum gt res g0 p0) (union_sum gt res g0 p0)))
      as (iou1 & -> & Hget1).
    { apply Hin. by left. }
    simpl. destruct (IH iou1) as (iou' & -> & Hget).
    { intros k Hk. apply Hidx. by right. }
    { intros g p Hgp. rewrite Hget1. case_decide; [done|]. apply Hin. by right. }
    exists iou'. split; [done|]. intros g p. rewrite Hget, Hget1.
    destruct (decide ((g, p) ∈ proposed ogl orl indices)) as [H1|H1].
    + rewrite decide_True; [done|]. by right.
    + destruct (decide (g = g0 ∧ p = p0)) as [[-> ->]|H2].
      * rewrite decide_True; [done|]. by left.
      * rewrite decide_False; [done|].
        intros [[= -> ->]|?]%elem_of_cons; naive_solver.
Qed.

Lemma elem_of_row_where t (j0 : nat) row j :
  j ∈ row_where fge t j0 row ↔
  (j0 ≤ j)%nat ∧ ∃ x, row !! (j - j0)%nat = Some x ∧ fge x t = true.
Proof.
  revert j0. induction row as [|x row IH]; intros j0; simpl.
  - split; [by intros ?%elem_of_nil|]. by intros (_ & ? & ? & _).
  - assert (Htail : j ∈ row_where fge t (S j0) row ↔
              (j0 < j)%nat ∧ ∃ y, (x :: row) !! (j - j0)%nat = Some y ∧ fge y t = true).
    { rewrite IH. split.
      - intros (Hj & y & Hy & Hge). split; [lia|]. exists y. split; [|done].
        replace (j - j0)%nat with (S (j - S j0)) by lia. done.
      - intros (Hj & y & Hy & Hge). split; [lia|]. exists y. split; [|done].
        replace (j - j0)%nat with (S (j - S j0)) in Hy by lia. done. }
    destruct (fge x t) eqn:Hx.
    + rewrite elem_of_cons, Htail. split.
      * intros [->|(Hj & y & Hy & Hge)].
        -- split; [lia|]. exists x. by rewrite Nat.sub_diag.
        -- split; [lia|]. eauto.
      * intros (Hj & y & Hy & Hge).
        destruct (decide (j = j0)) as [->|Hne]; [by left|right].
        split; [lia|]. eauto.
    + rewrite Htail. split.
      * intros (Hj & y & Hy & Hge). split; [lia|]. eauto.
      * intros (Hj & y & Hy & Hge).
        destruct (decide (j = j0)) as [->|Hne].
        -- rewrite Nat.sub_diag in Hy. simpl in Hy. congruence.
        -- split; [lia|]. eauto.
Qed.

Lemma NoDup_row_where t (j0 : nat) row : NoDup (row_where fge t j0 row).
Proof.
  revert j0. induction row as [|x row IH]; intros j0; simpl; [constructor|].
  destruct (fge x t); [|done].
  apply list.NoDup_cons. split; [|done].
  rewrite elem_of_row_where. lia.
Qed.

Lemma elem_of_table_where t (i0 : nat) iou i j :
  (i, j) ∈ table_where fge t i0 iou ↔
  (i0 ≤ i)%nat ∧ ∃ x, table_get iou (i - i0) j = Some x ∧ fge x t = true.
Proof.
  revert i0. induction iou as [|row iou IH]; intros i0; simpl.
  - split; [by intros ?%elem_of_nil|]. by intros (_ & ? & ? & _).
  - rewrite elem_of_app, IH, list_elem_of_fmap. unfold table_get. split.
    + intros [(j' & [= -> ->] & Hj)|(Hi & x & Hx & Hge)].
      * apply elem_of_row_where in Hj as (_ & x & Hx & Hge).
        split; [lia|]. exists x. rewrite Nat.sub_diag. simpl.
        by rewrite Nat.sub_0_r in Hx.
      * split; [lia|]. exists x. split; [|done].
        replace (i - i0)%nat with (S (i - S i0)) by lia. done.
    + intros (Hi & x & Hx & Hge).
      destruct (decide (i = i0)) as [->|Hne].
      * left. exists j. split; [done|]. apply elem_of_row_where.
        split; [lia|]. exists x. rewrite Nat.sub_diag in Hx. simpl in Hx.
        by rewrite Nat.sub_0_r.
      * right. split; [lia|]. exists x. split; [|done].
        replace (i - i0)%nat with (S (i - S i0)) in Hx by lia. done.
Qed.

Lemma NoDup_table_where t (i0 : nat) iou : NoDup (table_where fge t i0 iou).
Proof.
  revert i0. induction iou as [|row iou IH]; intros i0; simpl; [constructor|].
  apply list.NoDup_app. split_and!.
  - apply NoDup_fmap_2; [|apply NoDup_row_where]. by intros ? ? [= ->].
  - intros [i j] (j' & [= -> ->] & _)%list_elem_of_fmap.
    rewrite elem_of_table_where. lia.
  - apply IH.
Qed.

Lemma np_max_ge (a : list nat) (mx x : nat) :
  np_max a = Ok mx → x ∈ a → (x ≤ mx)%nat.
Proof.
  destruct a as [|y a]; simpl; [done|]. intros [= <-].
  assert (Hfold : ∀ l z, (z ≤ foldl Nat.max z l)%nat
                         ∧ ∀ x, x ∈ l → (x ≤ foldl Nat.max z l)%nat).
  { induction l as [|w l IH]; intros z; simpl.
    - split; [lia|]. by intros ? ?%elem_of_nil.
    - destruct (IH (Nat.max z w)) as [H1 H2]. split; [lia|].
      intros x' [->|Hx]%elem_of_cons; [lia|auto]. }
  destruct (Hfold a y) as [H1 H2].
  intros [->|Hx]%elem_of_cons; auto.
Qed.

Lemma np_max_elem (a : list nat) (mx : nat) : np_max a = Ok mx → mx ∈ a.
Proof.
  destruct a as [|y a]; simpl; [done|]. intros [= <-].
  assert (Hfold : ∀ l z, foldl Nat.max z l = z ∨ foldl Nat.max z l ∈ l).
  { induction l as [|w l IH]; intros z; simpl; [by left|].
    destruct (IH (Nat.max z w)) as [->|Hin].
    - destruct (Nat.max_spec z w) as [[_ ->]|[_ ->]]; [right; by left|by left].
    - right. by right. }
  destruct (Hfold a y) as [->|Hin]; [by left|by right].
Qed.

Lemma elem_of_proposed_seq ogl orl g p :
  length ogl = length orl →
  (g, p) ∈ proposed ogl orl (seq 0 (length ogl)) ↔ (g, p) ∈ zip ogl orl.
Proof.
  intros Hlen. unfold proposed. rewrite list_elem_of_bind, list_elem_of_lookup.
  split.
  - intros (i & Hi & _).
    destruct (ogl !! i) as [g'|] eqn:Hg; [|by apply elem_of_nil in Hi].
    destruct (orl !! i) as [p'|] eqn:Hp; [|by apply elem_of_nil in Hi].
    apply list_elem_of_singleton in Hi as [= -> ->].
    exists i. apply lookup_zip_with_Some. eauto.
  - intros (i & (g' & p' & [= -> ->] & Hg & Hp)%lookup_zip_with_Some).
    exists i. rewrite Hg, Hp. split; [by apply list_elem_of_singleton|].
    apply elem_of_seq. apply lookup_lt_Some in Hg. lia.
Qed.
End iou_facts.

(** ** Integer types *)

Lemma dtype_modulus_pos (d : int_dtype) : 0 < dtype_modulus d.
Proof. unfold dtype_modulus. apply Z.pow_pos_nonneg; lia. Qed.

(** A value of the type is stored as it is. *)
Lemma wrap_id (d : int_dtype) (z : Z) : 0 ≤ z ≤ dtype_max d → wrap d z = z.
Proof.
  pose proof (dtype_modulus_pos d) as Hpos.
  unfold wrap, dtype_max. destruct (signed d).
  - unfold dtype_modulus in *. destruct (bits d) as [|b]; simpl Z.of_N in *.
    + change (2 ^ 0) with 1. change (1 / 2) with 0. lia.
    + set (X := 2 ^ (Z.pos b - 1)).
      assert (HX : 2 ^ Z.pos b = X * 2).
      { unfold X. rewrite Z.mul_comm, <- Z.pow_succ_r by lia. f_equal. lia. }
      rewrite HX, Z.div_mul by lia. intros Hz.
      rewrite Z.mod_small by lia. lia.
  - intros Hz. apply Z.mod_small. lia.
Qed.

(** Wrapping does not make a value that is not negative larger. *)
Lemma wrap_le (d : int_dtype) (z : Z) : 0 ≤ z → wrap d z ≤ z.
Proof.
  pose proof (dtype_modulus_pos d) as Hpos. intros Hz.
  unfold wrap. destruct (signed d).
  - assert (0 ≤ dtype_modulus d / 2) by (apply Z.div_pos; lia).
    pose proof (Z.mod_le (z + dtype_modulus d / 2) (dtype_modulus d)). lia.
  - apply Z.mod_le; lia.
Qed.

(** ** The loop's IoU and the IoU of the regions *)

Lemma elem_of_region (frame : list nat) (l i : nat) :
  i ∈ region frame l ↔ frame !! i = Some l.
Proof.
  unfold region. rewrite elem_of_list_to_set, list_elem_of_filter, elem_of_seq.
  split; [by intros [? _]|]. intros H. split; [done|].
  apply lookup_lt_Some in H. lia.
Qed.

Lemma region_bound (frame : list nat) (l : nat) : length frame ∉ region frame l.
Proof. rewrite elem_of_region. intros H%lookup_lt_Some. lia. Qed.

Lemma region_snoc (frame : list nat) (x l : nat) :
  region (frame ++ [x]) l
  = region frame l ∪ (if decide (x = l) then {[length frame]} else ∅).
Proof.
  apply set_eq. intros i. rewrite elem_of_union, !elem_of_region.
  destruct (decide (i < length frame)%nat) as [Hi|Hi].
  - rewrite lookup_app_l by done. split; [by left|]. intros [?|Hin]; [done|].
    destruct (decide (x = l)); [|by apply elem_of_empty in Hin].
    apply elem_of_singleton in Hin. lia.
  - rewrite lookup_app_r by lia. split.
    + intros Hx. right.
      destruct (i - length frame)%nat as [|k] eqn:Hk; simpl in Hx; [|done].
      injection Hx as ->. rewrite decide_True by done.
      apply elem_of_singleton. lia.
    + intros [H%lookup_lt_Some|Hin]; [lia|].
      destruct (decide (x = l)) as [->|]; [|by apply elem_of_empty in Hin].
      apply elem_of_singleton in Hin as ->. by rewrite Nat.sub_diag.
Qed.

Lemma size_add (A : gset nat) (n : nat) : n ∉ A → size (A ∪ {[n]}) = S (size A).
Proof.
  intros Hn. rewrite size_union by set_solver. rewrite size_singleton. lia.
Qed.

(** Induction on two lists of the same length, from the right. *)
Lemma same_length_ind_r (P : list nat → list nat → Prop) :
  P [] [] →
  (∀ l1 l2 x y, length l1 = length l2 → P l1 l2 → P (l1 ++ [x]) (l2 ++ [y])) →
  ∀ l1 l2, length l1 = length l2 → P l1 l2.
Proof.
  intros H0 Hs l1. induction l1 as [|x l1 IH] using rev_ind; intros l2 Hlen.
  - destruct l2; [done|discriminate].
  - destruct l2 as [|y l2 _] using rev_ind.
    + rewrite length_app in Hlen. simpl in Hlen. lia.
    + rewrite !length_app in Hlen. simpl in Hlen.
      apply Hs; [lia|]. apply IH. lia.
Qed.

(** The count of the loop is the size of the intersection of the two
    regions. *)
Lemma intersection_sum_region (gt res : list nat) (g p : nat) :
  length gt = length res →
  intersection_sum gt res g p = Z.of_nat (size (region gt g ∩ region res p)).
Proof.
  unfold intersection_sum. intros Hlen. f_equal. revert gt res Hlen.
  apply same_length_ind_r; [done|].
  intros l1 l2 x y Hlen IH.
  rewrite zip_with_app, list.filter_app, length_app, IH, !region_snoc by done.
  pose proof (region_bound l1 g) as B1. pose proof (region_bound l2 p) as B2.
  rewrite <- Hlen in B2 |- *. simpl.
  destruct (decide (x = g)) as [->|Hx], (decide (y = p)) as [->|Hy].
  - rewrite filter_cons_True by done. simpl.
    replace ((region l1 g ∪ {[length l1]}) ∩ (region l2 p ∪ {[length l1]}))
      with ((region l1 g ∩ region l2 p) ∪ {[length l1]}) by set_solver.
    rewrite size_add by set_solver. lia.
  - rewrite filter_cons_False by (simpl; naive_solver). simpl.
    replace ((region l1 g ∪ {[length l1]}) ∩ (region l2 p ∪ ∅))
      with (region l1 g ∩ region l2 p) by set_solver. lia.
  - rewrite filter_cons_False by (simpl; naive_solver). simpl.
    replace ((region l1 g ∪ ∅) ∩ (region l2 p ∪ {[length l1]}))
      with (region l1 g ∩ region l2 p) by set_solver. lia.
  - rewrite filter_cons_False by (simpl; naive_solver). simpl.
    replace ((region l1 g ∪ ∅) ∩ (region l2 p ∪ ∅))
      with (region l1 g ∩ region l2 p) by set_solver. lia.
Qed.

(** The count of the loop is the size of the union of the two regions. *)
Lemma union_sum_region (gt res : list nat) (g p : nat) :
  length gt = length res →
  union_sum gt res g p = Z.of_nat (size (region gt g ∪ region res p)).
Proof.
  unfold union_sum. intros Hlen. f_equal. revert gt res Hlen.
  apply same_length_ind_r; [done|].
  intros l1 l2 x y Hlen IH.
  rewrite zip_with_app, list.filter_app, length_app, IH, !region_snoc by done.
  pose proof (region_bound l1 g) as B1. pose proof (region_bound l2 p) as B2.
  rewrite <- Hlen in B2 |- *. simpl.
  destruct (decide (x = g)) as [->|Hx], (decide (y = p)) as [->|Hy].
  - rewrite filter_cons_True by (simpl; auto). simpl.
    replace ((region l1 g ∪ {[length l1]}) ∪ (region l2 p ∪ {[length l1]}))
      with ((region l1 g ∪ region l2 p) ∪ {[length l1]}) by set_solver.
    rewrite size_add by set_solver. lia.
  - rewrite filter_cons_True by (simpl; auto). simpl.
    replace ((region l1 g ∪ {[length l1]}) ∪ (region l2 p ∪ ∅))
      with ((region l1 g ∪ region l2 p) ∪ {[length l1]}) by set_solver.
    rewrite size_add by set_solver. lia.
  - rewrite filter_cons_True by (simpl; auto). simpl.
    replace ((region l1 g ∪ ∅) ∪ (region l2 p ∪ {[length l1]}))
      with ((region l1 g ∪ region l2 p) ∪ {[length l1]}) by set_solver.
    rewrite size_add by set_solver. lia.
  - rewrite filter_cons_False by (simpl; naive_solver). simpl.
    replace ((region l1 g ∪ ∅) ∪ (region l2 p ∪ ∅))
      with (region l1 g ∪ region l2 p) by set_solver. lia.
Qed.

(** The value that the loop writes is the IoU of the two regions. *)
Lemma iou_value_IoU {F : Type} (fdiv : Z → Z → F) (gt res : list nat) (g p : nat) :
  length gt = length res →
  iou_value fdiv gt res g p = IoU fdiv (region gt g) (region res p).
Proof.
  intros Hlen. unfold iou_value, IoU.
  by rewrite intersection_sum_region, union_sum_region.
Qed.

Section iou_theorems.
Context {F : Type} (fzero : F) (fdiv : Z → Z → F) (fge : F → F → bool)
  (get_labels_with_overlap : list nat → list nat → list nat * list nat)
  (get_nodes_in_frame : TrackingGraph → Z → list node)
  (get_nodes_with_attribute : TrackingGraph → (nat → bool) → list node → list node).


(** C9: the whole-dataset matching raises on invalid input.  When an
    input is not a tracking graph, [match_iou] raises [ValueError];
    when both inputs are tracking graphs whose segmentations differ in
    shape, [match_iou] and [_compute_mapping] raise [ValueError]; when
    the segmentation of an input is [None], [_compute_mapping] raises
    [ValueError] and [match_iou] raises as well.  In each case
    neither function returns a mapping. *)
Theorem invalid_input_raises (gt pred : py_object) (threshold : F) :
  (isinstance_TrackingGraph gt = false
   ∨ isinstance_TrackingGraph pred = false
   ∨ get_segmentation gt = Ok None
   ∨ get_segmentation pred = Ok None
   ∨ ∃ s1 s2, get_segmentation gt = Ok (Some s1)
       ∧ get_segmentation pred = Ok (Some s2) ∧ shape s1 ≠ shape s2) →
  raises (match_iou fzero fdiv fge get_labels_with_overlap get_nodes_in_frame
      get_nodes_with_attribute gt pred threshold)
  ∧ raises (_compute_mapping fzero fdiv fge get_labels_with_overlap get_nodes_in_frame
      get_nodes_with_attribute threshold gt pred)
  ∧ (isinstance_TrackingGraph gt = false ∨ isinstance_TrackingGraph pred = false →
     match_iou fzero fdiv fge get_labels_with_overlap get_nodes_in_frame
      get_nodes_with_attribute gt pred threshold
     = Raise ValueError)
  ∧ ((∃ s1 s2, get_segmentation gt = Ok (Some s1)
        ∧ get_segmentation pred = Ok (Some s2) ∧ shape s1 ≠ shape s2) →
     match_iou fzero fdiv fge get_labels_with_overlap get_nodes_in_frame
      get_nodes_with_attribute gt pred threshold
     = Raise ValueError
     ∧ _compute_mapping fzero fdiv fge get_labels_with_overlap get_nodes_in_frame
      get_nodes_with_attribute threshold gt pred
       = Raise ValueError)
  ∧ (get_segmentation gt = Ok None
     ∨ (∃ s1, get_segmentation gt = Ok (Some s1)) ∧ get_segmentation pred = Ok None →
     _compute_mapping fzero fdiv fge get_labels_with_overlap get_nodes_in_frame
      get_nodes_with_attribute threshold gt pred
     = Raise ValueError).
Proof.
  intros Hinv.
  assert (Hshape : ∀ s1 s2, get_segmentation gt = Ok (Some s1) →
            get_segmentation pred = Ok (Some s2) → shape s1 ≠ shape s2 →
            match_iou fzero fdiv fge get_labels_with_overlap get_nodes_in_frame
      get_nodes_with_attribute gt pred threshold
            = Raise ValueError).
  { intros s1 s2 H1 H2 Hne. unfold match_iou.
    destruct gt as [g|o1]; [|done]. destruct pred as [p|o2]; [|done].
    simpl in H1, H2. injection H1 as ->. injection H2 as ->.
    by rewrite decide_True. }
  split_and!.
  - unfold match_iou.
    destruct gt as [g|o1]; [|done]. destruct pred as [p|o2]; [|done].
    destruct Hinv as [?|[?|[Hs|[Hs|(s1 & s2 & H1 & H2 & Hne)]]]]; try done.
    + simpl in Hs. injection Hs as ->. done.
    + simpl in Hs. injection Hs as ->. by destruct (segmentation g).
    + simpl in H1, H2. injection H1 as ->. injection H2 as ->.
      by rewrite decide_True.
  - unfold _compute_mapping.
    destruct (get_segmentation gt) as [[s1|]|e1] eqn:E1; simpl; [|done..].
    destruct (get_segmentation pred) as [[s2|]|e2] eqn:E2; simpl; [|done..].
    destruct Hinv as [Hi|[Hi|[?|[?|(s1' & s2' & [= <-] & [= <-] & Hne)]]]];
      try done.
    + unfold match_iou. destruct gt; [done|]. simpl. done.
    + unfold match_iou. destruct gt, pred; try done.
    + by rewrite (Hshape s1 s2).
  - intros [Hi|Hi]; unfold match_iou; destruct gt, pred; done.
  - intros (s1 & s2 & H1 & H2 & Hne). split; [by eapply Hshape|].
    unfold _compute_mapping. rewrite H1, H2. simpl.
    by rewrite (Hshape s1 s2).
  - unfold _compute_mapping. intros [->|[[s1 ->] ->]]; done.
Qed.
End iou_theorems.



Example match_nodes_frames :
  _match_nodes fraction_zero fraction_div fraction_ge shared_labels uint8 uint8
               frame_a frame_b (3, 5) = Ok ([1; 2]%nat, [1; 2]%nat)
  ∧ _match_nodes fraction_zero fraction_div fraction_ge shared_labels uint8 uint8
                 frame_a frame_b (1, 1) = Ok ([2%nat], [2%nat]).
Proof. split; vm_compute; reflexivity. Qed.

Lemma invalid_input_raises_witness :
  isinstance_TrackingGraph (another_object None) = false
  ∧ match_iou fraction_zero fraction_div fraction_ge shared_labels
              nodes_in_frame nodes_with_attribute
              (another_object None) (a_tracking_graph late_gt) (3, 5)
    = Raise ValueError.
Proof.
  split; [reflexivity|].
  destruct (invalid_input_raises fraction_zero fraction_div fraction_ge shared_labels
              nodes_in_frame nodes_with_attribute
              (another_object None) (a_tracking_graph late_gt) (3, 5))
    as (_ & _ & H & _).
  - left. reflexivity.
  - apply H. left. reflexivity.
Defined.

(** * Further properties of the two modules *)

(** ** The walks [_get_pred_by_t] and [_get_succ_by_t] *)

Section walk_facts.
Implicit Types (g : TrackingGraph) (n x y : node) (j k : nat).

Lemma elem_of_successors g n y : y ∈ successors g n ↔ (n, y) ∈ graph_edges g.
Proof.
  unfold successors. rewrite list_elem_of_fmap. split.
  - intros ([a b] & -> & [Ha Hin]%list_elem_of_filter). simpl in *. by subst.
  - intros Hin. exists (n, y). split; [done|]. by apply list_elem_of_filter.
Qed.

Lemma elem_of_predecessors g n y : y ∈ predecessors g n ↔ (y, n) ∈ graph_edges g.
Proof.
  unfold predecessors. rewrite list_elem_of_fmap. split.
  - intros ([a b] & -> & [Ha Hin]%list_elem_of_filter). simpl in *. by subst.
  - intros Hin. exists (y, n). split; [done|]. by apply list_elem_of_filter.
Qed.

Lemma merge_free_predecessors g n y :
  merge_free g = true → (y, n) ∈ graph_edges g → predecessors g n = [y].
Proof.
  intros Hmf Hin. unfold merge_free in Hmf.
  rewrite forallb_forall in Hmf.
  assert (Hlen : (length (predecessors g n) ≤ 1)%nat).
  { apply (bool_decide_unpack _). apply Is_true_true.
    apply (Hmf (y, n)). by apply list_elem_of_In. }
  apply elem_of_predecessors in Hin.
  destruct (predecessors g n) as [|a [|b l]]; simpl in Hlen.
  - by apply elem_of_nil in Hin.
  - by apply list_elem_of_singleton in Hin as ->.
  - lia.
Qed.

(** Walking back [j + k] steps is walking back [j] steps and then [k]. *)
Lemma pred_steps_add g j k n :
  pred_steps g (j + k) n
  = o ← pred_steps g j n;
    match o with
    | Some x => pred_steps g k x
    | None => Ok None
    end.
Proof.
  revert n. induction j as [|j IH]; intros n; simpl; [done|].
  destruct (predecessors g n) as [|p [|q l]]; simpl; auto.
Qed.

Lemma succ_steps_add g j k n :
  succ_steps g (j + k) n = succ_steps g j n ≫= succ_steps g k.
Proof.
  revert n. induction j as [|j IH]; intros n; simpl; [done|].
  destruct (successors g n) as [|s [|q l]]; simpl; auto.
Qed.
End walk_facts.

(** X1: in a graph without merges, a forward walk undone by a backward
    walk of the same length comes back to the start: if
    [_get_succ_by_t] reaches [x] from [n] then [_get_pred_by_t] reaches
    [n] from [x], and raises nothing. *)
Theorem walk_forward_then_back (g : TrackingGraph) (n x : node) (delta_frames : Z) :
  merge_free g = true →
  _get_succ_by_t g n delta_frames = Some x →
  _get_pred_by_t g x delta_frames = Ok (Some n).
Proof.
  intros Hmf. unfold _get_succ_by_t, _get_pred_by_t.
  generalize (Z.to_nat delta_frames) as k. clear delta_frames.
  intros k. revert n x. induction k as [|k IH]; intros n x Hx.
  - simpl in *. by injection Hx as ->.
  - simpl in Hx.
    destruct (successors g n) as [|s [|q l]] eqn:Hs; [done| |done].
    specialize (IH _ _ Hx).
    replace (S k) with (k + 1)%nat by lia.
    rewrite pred_steps_add, IH. simpl.
    assert (Hin : (n, s) ∈ graph_edges g).
    { apply elem_of_successors. rewrite Hs. by left. }
    by rewrite (merge_free_predecessors g s n Hmf Hin).
Qed.

Lemma walk_forward_then_back_witness :
  merge_free shifted_gt = true
  ∧ _get_succ_by_t shifted_gt 2 1 = Some 4%nat
  ∧ _get_pred_by_t shifted_gt 4 1 = Ok (Some 2%nat).
Proof.
  split; [reflexivity|]. split; [reflexivity|].
  apply (walk_forward_then_back shifted_gt 2%nat 4%nat 1); reflexivity.
Defined.

Lemma consecutive_frames_edge (g : TrackingGraph) (a b : node) :
  consecutive_frames g = true → (a, b) ∈ graph_edges g →
  ∃ t, frame_of g a = Some t ∧ frame_of g b = Some (t + 1).
Proof.
  unfold consecutive_frames. rewrite forallb_forall.
  intros H Hin%list_elem_of_In. specialize (H _ Hin).
  unfold edge_consecutive in H. simpl in H.
  destruct (frame_of g a) as [t|]; [|done].
  destruct (frame_of g b) as [t'|]; [|done].
  apply bool_decide_eq_true in H as ->. eauto.
Qed.

(** X2: in a graph whose edges all lead from one frame to the next, a
    walk of [delta_frames] steps that reaches a node reaches it
    [delta_frames] frames earlier ([_get_pred_by_t]) or later
    ([_get_succ_by_t]) than the start. *)
Theorem walk_reaches_target_frame (g : TrackingGraph) (n x : node)
    (delta_frames t : Z) :
  consecutive_frames g = true →
  0 ≤ delta_frames →
  frame_of g n = Some t →
  (_get_pred_by_t g n delta_frames = Ok (Some x) →
   frame_of g x = Some (t - delta_frames))
  ∧ (_get_succ_by_t g n delta_frames = Some x →
     frame_of g x = Some (t + delta_frames)).
Proof.
  intros Hc Hd. unfold _get_pred_by_t, _get_succ_by_t.
  rewrite <- (Z2Nat.id delta_frames) at 2 4 by done.
  generalize (Z.to_nat delta_frames) as k. clear delta_frames Hd.
  intros k. revert n t. induction k as [|k IH]; intros n t Ht; simpl.
  - split; intros [= <-]; rewrite Ht; f_equal; lia.
  - split.
    + destruct (predecessors g n) as [|p [|q l]] eqn:Hp; [done| |done].
      assert (Hin : (p, n) ∈ graph_edges g).
      { apply elem_of_predecessors. rewrite Hp. by left. }
      destruct (consecutive_frames_edge g p n Hc Hin) as (tp & Hfp & Hfn).
      rewrite Ht in Hfn. injection Hfn as ->.
      intros Hx. destruct (IH p tp Hfp) as [IH1 _].
      rewrite (IH1 Hx). f_equal. lia.
    + destruct (successors g n) as [|s [|q l]] eqn:Hs; [done| |done].
      assert (Hin : (n, s) ∈ graph_edges g).
      { apply elem_of_successors. rewrite Hs. by left. }
      destruct (consecutive_frames_edge g n s Hc Hin) as (tn & Hfn & Hfs).
      rewrite Ht in Hfn. injection Hfn as <-.
      intros Hx. destruct (IH s (t + 1) Hfs) as [_ IH2].
      rewrite (IH2 Hx). f_equal. lia.
Qed.

Lemma walk_reaches_target_frame_witness :
  consecutive_frames contested_pred = true
  ∧ 0 ≤ 2
  ∧ frame_of contested_pred 23 = Some 6
  ∧ _get_pred_by_t contested_pred 23 2 = Ok (Some 20%nat)
  ∧ frame_of contested_pred 20 = Some (6 - 2).
Proof.
  split; [reflexivity|]. split; [lia|]. split; [reflexivity|].
  split; [reflexivity|].
  apply (walk_reaches_target_frame contested_pred 23%nat 20%nat 2 6);
    [reflexivity|lia|reflexivity|reflexivity].
Defined.

(** X3: from a node of the graph, [_get_pred_by_t] returns [None]
    exactly when the walk reaches,
    in fewer steps than asked for, a node without predecessor. *)
Theorem pred_walk_None (g : TrackingGraph) (n : node) (delta_frames : Z) :
  is_Some (node_info g n) →
  _get_pred_by_t g n delta_frames = Ok None ↔
  ∃ (i : nat) (x : node),
    (i < Z.to_nat delta_frames)%nat
    ∧ pred_steps g i n = Ok (Some x)
    ∧ predecessors g x = [].
Proof.
  intros _. unfold _get_pred_by_t. generalize (Z.to_nat delta_frames) as k.
  intros k. revert n. induction k as [|k IH]; intros n; simpl.
  - split; [done|]. intros (i & x & ? & _). lia.
  - destruct (predecessors g n) as [|p [|q l]] eqn:Hp.
    + split; [|done]. intros _. exists 0%nat, n. split_and!; [lia|done..].
    + rewrite IH. split.
      * intros (i & x & ? & ? & ?). exists (S i), x. simpl. rewrite Hp.
        split_and!; [lia|done..].
      * intros ([|i] & x & Hi & Hx & Hnil); simpl in Hx.
        -- injection Hx as <-. congruence.
        -- rewrite Hp in Hx. exists i, x. split_and!; [lia|done..].
    + split; [done|]. intros ([|i] & x & Hi & Hx & Hnil); simpl in Hx.
      * injection Hx as <-. congruence.
      * by rewrite Hp in Hx.
Qed.

Lemma pred_walk_None_witness :
  is_Some (node_info late_pred 12)
  ∧ _get_pred_by_t late_pred 12 2 = Ok None.
Proof.
  assert (H : is_Some (node_info late_pred 12)) by (eexists; reflexivity).
  split; [exact H|].
  apply (proj2 (pred_walk_None late_pred 12%nat 2 H)).
  exists 1%nat, 11%nat. split; [vm_compute; lia|]. split; reflexivity.
Defined.

(** X4: from a node of the graph, [_get_pred_by_t] raises exactly when
    the walk reaches, before its last step, a node with more than one
    predecessor, and the exception is then a [ValueError]; a merge
    beyond the last step, or behind a node without predecessors, is not
    seen. *)
Theorem pred_walk_raises (g : TrackingGraph) (n : node) (delta_frames : Z) (e : exn) :
  is_Some (node_info g n) →
  _get_pred_by_t g n delta_frames = Raise e ↔
  e = ValueError
  ∧ ∃ (i : nat) (x : node),
      (i < Z.to_nat delta_frames)%nat ∧ pred_steps g i n = Ok (Some x)
      ∧ (2 ≤ length (predecessors g x))%nat.
Proof. intros _. apply pred_steps_Raise. Qed.

Lemma pred_walk_raises_witness :
  is_Some (node_info merged_pred 12)
  ∧ _get_pred_by_t merged_pred 12 1 = Ok (Some 11%nat)
  ∧ _get_pred_by_t merged_pred 12 2 = Raise ValueError.
Proof.
  assert (H : is_Some (node_info merged_pred 12)) by (eexists; reflexivity).
  split; [exact H|]. split; [reflexivity|].
  apply (proj2 (pred_walk_raises merged_pred 12%nat 2 ValueError H)).
  split; [reflexivity|]. exists 1%nat, 11%nat.
  split; [vm_compute; lia|]. split; [reflexivity|vm_compute; lia].
Defined.

(** X5: from a node of the graph, [_get_succ_by_t] returns [None]
    exactly when the walk reaches,
    in fewer steps than asked for, a node that has no successor or more
    than one. *)
Theorem succ_walk_None (g : TrackingGraph) (n : node) (delta_frames : Z) :
  is_Some (node_info g n) →
  _get_succ_by_t g n delta_frames = None ↔
  ∃ (i : nat) (x : node),
    (i < Z.to_nat delta_frames)%nat
    ∧ succ_steps g i n = Some x
    ∧ length (successors g x) ≠ 1%nat.
Proof.
  intros _. unfold _get_succ_by_t. generalize (Z.to_nat delta_frames) as k.
  intros k. revert n. induction k as [|k IH]; intros n; simpl.
  - split; [done|]. intros (i & x & ? & _). lia.
  - destruct (successors g n) as [|s [|q l]] eqn:Hs.
    + split; [|done]. intros _. exists 0%nat, n.
      split_and!; [lia|done|by rewrite Hs].
    + rewrite IH. split.
      * intros (i & x & ? & ? & ?). exists (S i), x. simpl. rewrite Hs.
        split_and!; [lia|done..].
      * intros ([|i] & x & Hi & Hx & Hlen); simpl in Hx.
        -- injection Hx as <-. by rewrite Hs in Hlen.
        -- rewrite Hs in Hx. exists i, x. split_and!; [lia|done..].
    + split; [|done]. intros _. exists 0%nat, n.
      split_and!; [lia|done|by rewrite Hs].
Qed.

Lemma succ_walk_None_witness :
  is_Some (node_info late_pred 11)
  ∧ _get_succ_by_t late_pred 11 1 = Some 12%nat
  ∧ _get_succ_by_t late_pred 11 2 = None.
Proof.
  assert (H : is_Some (node_info late_pred 11)) by (eexists; reflexivity).
  split; [exact H|]. split; [reflexivity|].
  apply (proj2 (succ_walk_None late_pred 11%nat 2 H)).
  exists 1%nat, 12%nat. split; [vm_compute; lia|]. split; [reflexivity|].
  vm_compute. lia.
Defined.

(** ** The footprint of the classifier *)

Section classifier_footprint.
Implicit Types (m : Matched) (st : Matched * list node) (g : TrackingGraph)
  (k p : node) (f : NodeFlag) (gs work : list node).

Lemma flags_added_refl (i : NodeInfo) : flags_added i i.
Proof. by repeat split. Qed.

Lemma flags_added_trans (i1 i2 i3 : NodeInfo) :
  flags_added i1 i2 → flags_added i2 i3 → flags_added i1 i3.
Proof.
  intros (A1 & A2 & A3 & A4) (B1 & B2 & B3 & B4).
  repeat split; try congruence. intros x Hx. auto.
Qed.

Lemma flags_added_add_flag f (i : NodeInfo) : flags_added i (add_flag f i).
Proof.
  repeat split. simpl. destruct (has_flag f i); [done|].
  intros x Hx. by right.
Qed.

Lemma only_flags_added_refl g : only_flags_added g g.
Proof.
  repeat split. induction (graph_nodes g) as [|e l IH]; constructor; [|done].
  split; [done|apply flags_added_refl].
Qed.

Lemma only_flags_added_trans g1 g2 g3 :
  only_flags_added g1 g2 → only_flags_added g2 g3 → only_flags_added g1 g3.
Proof.
  intros (A1 & A2 & A3 & A4 & A5) (B1 & B2 & B3 & B4 & B5).
  repeat split; try congruence.
  revert A5 B5. generalize (graph_nodes g1) (graph_nodes g2) (graph_nodes g3).
  intros l1 l2 l3 H12. revert l3.
  induction H12 as [|e1 e2 l1 l2 [He H1] _ IH]; intros l3 H23.
  - inversion H23. constructor.
  - inversion H23 as [|? e3 ? l3' [He' H2] H23']; subst. constructor; [|auto].
    split; [congruence|]. by eapply flags_added_trans.
Qed.

Lemma only_flags_added_set_flag g k f : only_flags_added g (set_flag_on_node g k f).
Proof.
  repeat split. simpl. unfold update_node.
  induction (graph_nodes g) as [|[a i] l IH]; csimpl; constructor; [|done].
  destruct (decide (a = k)); simpl; (split; [done|]);
    [apply flags_added_add_flag|apply flags_added_refl].
Qed.

Lemma only_flags_added_annotations g (b : bool) :
  only_flags_added g (set_division_annotations g b).
Proof.
  repeat split. simpl.
  induction (graph_nodes g) as [|e l IH]; constructor; [|done].
  split; [done|apply flags_added_refl].
Qed.

Lemma classify_gt_division_footprint st k :
  only_flags_added (gt_graph st.1) (gt_graph (classify_gt_division st k).1)
  ∧ only_flags_added (pred_graph st.1) (pred_graph (classify_gt_division st k).1).
Proof.
  destruct (classify_gt_division_cases st k) as [->|(q & fl & _ & _ & ->)]; simpl;
    split; auto using only_flags_added_refl, only_flags_added_set_flag.
Qed.

Lemma gt_loop_footprint gs st :
  only_flags_added (gt_graph st.1) (gt_graph (foldl classify_gt_division st gs).1)
  ∧ only_flags_added (pred_graph st.1)
                     (pred_graph (foldl classify_gt_division st gs).1).
Proof.
  revert st. induction gs as [|a gs IH]; intros st; simpl.
  - split; apply only_flags_added_refl.
  - destruct (IH (classify_gt_division st a)) as [H1 H2].
    destruct (classify_gt_division_footprint st a) as [H3 H4].
    split; eapply only_flags_added_trans; eauto.
Qed.

Lemma flag_false_positives_footprint work m :
  only_flags_added (pred_graph m) (pred_graph (flag_false_positives m work))
  ∧ mapping (flag_false_positives m work) = mapping m.
Proof.
  revert m. induction work as [|a work IH]; intros m; simpl.
  - split; [apply only_flags_added_refl|done].
  - destruct (IH (with_pred m (set_flag_on_node (pred_graph m) a FP_DIV)))
      as [H1 H2].
    split; [|done].
    eapply only_flags_added_trans; [|exact H1]. apply only_flags_added_set_flag.
Qed.
Lemma classify_divisions_only_flags m :
  mapping (_classify_divisions m) = mapping m
  ∧ only_flags_added (gt_graph m) (gt_graph (_classify_divisions m))
  ∧ only_flags_added (pred_graph m) (pred_graph (_classify_divisions m)).
Proof.
  unfold _classify_divisions.
  destruct (division_annotations (gt_graph m) && division_annotations (pred_graph m)).
  { split_and!; [done|apply only_flags_added_refl..]. }
  simpl.
  destruct (gt_loop_footprint (get_divisions (gt_graph m))
              (m, get_divisions (pred_graph m))) as [H1 H2].
  fold (classify_gt_divisions m) in H1, H2. simpl in H1, H2.
  destruct (flag_false_positives_footprint (classify_gt_divisions m).2
              (classify_gt_divisions m).1) as [H3 H4].
  split_and!.
  - rewrite H4. apply gt_loop_mapping.
  - rewrite flag_false_positives_gt.
    eapply only_flags_added_trans; [exact H1|]. apply only_flags_added_annotations.
  - eapply only_flags_added_trans; [exact H2|].
    eapply only_flags_added_trans; [exact H3|]. apply only_flags_added_annotations.
Qed.
End classifier_footprint.

(** X6: the classifier writes flags and the annotations-done booleans
    and nothing else.  The mapping, the edges, the segmentation and the
    frame range of both graphs are as before, the nodes are the same in
    the same order, every node keeps its frame, its label and its
    ["min_buffer_correct"] entry, and no flag is removed. *)
Theorem classify_divisions_footprint (m : Matched) :
  mapping (_classify_divisions m) = mapping m
  ∧ only_flags_added (gt_graph m) (gt_graph (_classify_divisions m))
  ∧ only_flags_added (pred_graph m) (pred_graph (_classify_divisions m)).
Proof. apply classify_divisions_only_flags. Qed.

(** ** What the classifier writes, node by node *)

Section classifier_writes.
Implicit Types (m : Matched) (st : Matched * list node) (g p k : node)
  (f fl : NodeFlag) (gs work : list node).

(** Every iteration is one of the two, and the second one writes
    [TP_DIV] or [WC_DIV]. *)
Lemma classify_gt_division_flag_cases st g :
  classify_gt_division st g
  = (with_gt st.1 (set_flag_on_node (gt_graph st.1) g FN_DIV), st.2)
  ∨ ∃ p fl, (fl = TP_DIV ∨ fl = WC_DIV)
      ∧ get_gt_pred_match st.1 g = Some p ∧ p ∈ st.2
      ∧ classify_gt_division st g
        = (with_pred (with_gt st.1 (set_flag_on_node (gt_graph st.1) g fl))
                     (set_flag_on_node (pred_graph st.1) p fl),
           list_remove p st.2).
Proof.
  destruct (get_gt_pred_match st.1 g) as [p|] eqn:Hm.
  - destruct (decide (p ∈ st.2)) as [Hp|Hp].
    + right. pose proof (classify_gt_division_div st g p Hm Hp) as H.
      simpl in H. exists p.
      destruct (Counter_eqb _ _); [exists TP_DIV|exists WC_DIV]; auto.
    + left. apply classify_gt_division_FN. eauto.
  - left. apply classify_gt_division_FN. auto.
Qed.

Lemma node_info_set_flag_ne (gr : TrackingGraph) k f k' :
  k' ≠ k → node_info (set_flag_on_node gr k f) k' = node_info gr k'.
Proof. intros Hne. by rewrite node_info_set_flag, decide_False. Qed.

Lemma gt_loop_gt_info gs st k :
  k ∉ gs →
  node_info (gt_graph (foldl classify_gt_division st gs).1) k
  = node_info (gt_graph st.1) k.
Proof.
  revert st. induction gs as [|a gs IH]; intros st Hk; simpl; [done|].
  apply not_elem_of_cons in Hk as [Hne Hk]. rewrite IH by done.
  destruct (classify_gt_division_cases st a) as [->|(q & fl & _ & _ & ->)]; simpl;
    by apply node_info_set_flag_ne.
Qed.

Lemma gt_loop_pred_info gs st k :
  k ∉ st.2 →
  node_info (pred_graph (foldl classify_gt_division st gs).1) k
  = node_info (pred_graph st.1) k.
Proof.
  revert st. induction gs as [|a gs IH]; intros st Hk; simpl; [done|].
  rewrite IH.
  - destruct (classify_gt_division_cases st a) as [->|(q & fl & _ & Hq & ->)]; simpl;
      [done|].
    apply node_info_set_flag_ne. by intros ->.
  - by intros ?%classify_gt_division_work_subset.
Qed.

Lemma flag_false_positives_info work m k :
  k ∉ work →
  node_info (pred_graph (flag_false_positives m work)) k = node_info (pred_graph m) k.
Proof.
  revert m. induction work as [|a work IH]; intros m Hk; simpl; [done|].
  apply not_elem_of_cons in Hk as [Hne Hk].
  unfold flag_false_positives in IH. rewrite IH by done. simpl.
  by apply node_info_set_flag_ne.
Qed.

Lemma flag_false_positives_in work m p f :
  p ∈ work → is_Some (node_info (pred_graph m) p) →
  node_has_flag (pred_graph (flag_false_positives m work)) p f
  = bool_decide (f = FP_DIV) || node_has_flag (pred_graph m) p f.
Proof.
  intros Hp Hs. destruct (decide (f = FP_DIV)) as [->|Hne].
  - by rewrite flag_false_positives_flags.
  - rewrite bool_decide_eq_false_2 by done.
    apply flag_false_positives_other. by right.
Qed.

(** A ground-truth division is written once by the loop. *)
Lemma gt_loop_gt_once gs st g :
  NoDup gs → g ∈ gs → is_Some (node_info (gt_graph st.1) g) →
  ∃ fl, (fl = FN_DIV ∨ fl = TP_DIV ∨ fl = WC_DIV)
    ∧ ∀ f, node_has_flag (gt_graph (foldl classify_gt_division st gs).1) g f
           = bool_decide (f = fl) || node_has_flag (gt_graph st.1) g f.
Proof.
  revert st. induction gs as [|a gs IH]; intros st Hnd Hg Hs; simpl.
  { by apply elem_of_nil in Hg. }
  apply list.NoDup_cons in Hnd as [Ha Hnd].
  destruct (decide (a = g)) as [->|Hne].
  - destruct (classify_gt_division_flag_cases st g)
      as [->|(q & fl & Hfl & _ & _ & ->)]; simpl.
    + exists FN_DIV. split; [auto|]. intros f.
      rewrite gt_loop_gt_other by done. simpl.
      by apply node_has_flag_set_same.
    + exists fl. split; [naive_solver|]. intros f.
      rewrite gt_loop_gt_other by done. simpl.
      by apply node_has_flag_set_same.
  - apply elem_of_cons in Hg as [->|Hg]; [done|].
    destruct (IH (classify_gt_division st a) Hnd Hg) as (fl & Hfl & H).
    { by apply classify_gt_division_is_Some. }
    exists fl. split; [done|]. intros f.
    rewrite H. f_equal. apply classify_gt_division_gt_other. congruence.
Qed.

(** A predicted division of the working list is either still in the
    list, untouched, when the loop ends, or it was taken from the list
    and written once. *)
Lemma gt_loop_pred_once gs st p :
  NoDup st.2 → (∀ q, q ∈ st.2 → is_Some (node_info (pred_graph st.1) q)) →
  p ∈ st.2 →
  (p ∈ (foldl classify_gt_division st gs).2
   ∧ ∀ f, node_has_flag (pred_graph (foldl classify_gt_division st gs).1) p f
          = node_has_flag (pred_graph st.1) p f)
  ∨ ((p ∉ (foldl classify_gt_division st gs).2)
     ∧ ∃ fl, (fl = TP_DIV ∨ fl = WC_DIV)
         ∧ ∀ f, node_has_flag (pred_graph (foldl classify_gt_division st gs).1) p f
                = bool_decide (f = fl) || node_has_flag (pred_graph st.1) p f).
Proof.
  revert st. induction gs as [|a gs IH]; intros st Hnd Hs Hp; simpl.
  { left. done. }
  destruct (classify_gt_division_flag_cases st a)
    as [E|(q & fl & Hfl & _ & Hq & E)]; rewrite E.
  - apply (IH (with_gt st.1 (set_flag_on_node (gt_graph st.1) a FN_DIV), st.2));
      done.
  - destruct (decide (q = p)) as [->|Hne].
    + right. split.
      * intros Hin%gt_loop_work_subset. simpl in Hin.
        by apply list_remove_NoDup in Hin.
      * exists fl. split; [done|]. intros f. unfold node_has_flag.
        rewrite gt_loop_pred_info by (simpl; by apply list_remove_NoDup).
        simpl. fold (node_has_flag (set_flag_on_node (pred_graph st.1) p fl) p f).
        fold (node_has_flag (pred_graph st.1) p f).
        apply node_has_flag_set_same. by apply Hs.
    + assert (Hsame : ∀ f,
        node_has_flag (set_flag_on_node (pred_graph st.1) q fl) p f
        = node_has_flag (pred_graph st.1) p f).
      { intros f. apply node_has_flag_set_ne. left. congruence. }
      destruct (IH (with_pred (with_gt st.1 (set_flag_on_node (gt_graph st.1) a fl))
                      (set_flag_on_node (pred_graph st.1) q fl),
                    list_remove q st.2)) as [[H1 H2]|(H1 & fl' & Hfl' & H2)].
      * simpl. by apply list_remove_NoDup_2.
      * simpl. intros k Hk%list_remove_subset.
        apply is_Some_node_info_set_flag. by apply Hs.
      * simpl. apply list_remove_other; [congruence|done].
      * left. split; [done|]. intros f. rewrite H2. simpl. apply Hsame.
      * right. split; [done|]. exists fl'. split; [done|]. intros f.
        rewrite H2. simpl. by rewrite Hsame.
Qed.

(** A flag [TP_DIV] or [WC_DIV] that appears in the loop appears on a
    ground-truth division and on its matched predicted division. *)
Lemma gt_loop_pairing_gt gs st g fl :
  fl = TP_DIV ∨ fl = WC_DIV →
  (∀ q, q ∈ st.2 → is_Some (node_info (pred_graph st.1) q)) →
  node_has_flag (gt_graph st.1) g fl = false →
  node_has_flag (gt_graph (foldl classify_gt_division st gs).1) g fl = true →
  g ∈ gs ∧ ∃ p, get_gt_pred_match st.1 g = Some p ∧ p ∈ st.2
    ∧ node_has_flag (pred_graph (foldl classify_gt_division st gs).1) p fl = true.
Proof.
  intros Hfl. revert st. induction gs as [|a gs IH]; intros st Hs H0 H1; simpl in *.
  { congruence. }
  destruct (node_has_flag (gt_graph (classify_gt_division st a).1) g fl) eqn:Hstep.
  - destruct (classify_gt_division_flag_cases st a)
      as [E|(q & fl' & Hfl' & Hm & Hq & E)]; rewrite E in Hstep |- *; simpl in Hstep.
    + rewrite node_has_flag_set_ne in Hstep by (right; naive_solver). congruence.
    + destruct (decide (g = a ∧ fl = fl')) as [[-> ->]|Hne].
      * split; [by left|]. exists q. split_and!; [done..|].
        apply gt_loop_mono. simpl. apply node_has_flag_set_eq. by apply Hs.
      * rewrite node_has_flag_set_ne in Hstep; [congruence|].
        destruct (decide (g = a)); [right|left]; naive_solver.
  - destruct (IH (classify_gt_division st a)) as (Hg & p & Hm & Hp & Hflag);
      [|done..|].
    { intros q Hq%classify_gt_division_work_subset.
      apply classify_gt_division_is_Some. by apply Hs. }
    split; [by right|]. exists p. split_and!; [|by eapply classify_gt_division_work_subset|done].
    unfold get_gt_pred_match in *. by rewrite classify_gt_division_mapping in Hm.
Qed.

Lemma gt_loop_pairing_pred gs st p fl :
  fl = TP_DIV ∨ fl = WC_DIV →
  (∀ a, a ∈ gs → is_Some (node_info (gt_graph st.1) a)) →
  node_has_flag (pred_graph st.1) p fl = false →
  node_has_flag (pred_graph (foldl classify_gt_division st gs).1) p fl = true →
  ∃ g, g ∈ gs ∧ get_gt_pred_match st.1 g = Some p ∧ p ∈ st.2
    ∧ node_has_flag (gt_graph (foldl classify_gt_division st gs).1) g fl = true.
Proof.
  intros Hfl. revert st. induction gs as [|a gs IH]; intros st Hs H0 H1; simpl in *.
  { congruence. }
  destruct (node_has_flag (pred_graph (classify_gt_division st a).1) p fl) eqn:Hstep.
  - destruct (classify_gt_division_flag_cases st a)
      as [E|(q & fl' & Hfl' & Hm & Hq & E)]; rewrite E in Hstep |- *; simpl in Hstep.
    + congruence.
    + destruct (decide (p = q ∧ fl = fl')) as [[-> ->]|Hne].
      * exists a. split_and!; [by left|done..|].
        apply gt_loop_mono. simpl. apply node_has_flag_set_eq. apply Hs. by left.
      * rewrite node_has_flag_set_ne in Hstep; [congruence|].
        destruct (decide (p = q)); [right|left]; naive_solver.
  - destruct (IH (classify_gt_division st a)) as (g & Hg & Hm & Hp & Hflag);
      [|done..|].
    { intros b Hb. apply classify_gt_division_is_Some. apply Hs. by right. }
    exists g. split_and!; [by right| |by eapply classify_gt_division_work_subset|done].
    unfold get_gt_pred_match in *. by rewrite classify_gt_division_mapping in Hm.
Qed.
End classifier_writes.

(** X7: the classifier writes on division nodes only.  A node that is
    not a division of its graph has, after the call, the attributes it
    had before. *)
Theorem classify_divisions_divisions_only (m : Matched) (k : node) :
  ((k ∉ get_divisions (gt_graph m)) →
   node_info (gt_graph (_classify_divisions m)) k = node_info (gt_graph m) k)
  ∧ ((k ∉ get_divisions (pred_graph m)) →
     node_info (pred_graph (_classify_divisions m)) k = node_info (pred_graph m) k).
Proof.
  unfold _classify_divisions.
  destruct (division_annotations (gt_graph m) && division_annotations (pred_graph m));
    [done|].
  unfold node_info. simpl.
  split; intros Hk.
  - rewrite flag_false_positives_gt.
    by apply (gt_loop_gt_info _ (m, get_divisions (pred_graph m))).
  - fold (node_info (pred_graph (flag_false_positives (classify_gt_divisions m).1
                                   (classify_gt_divisions m).2)) k).
    rewrite flag_false_positives_info.
    + by apply (gt_loop_pred_info _ (m, get_divisions (pred_graph m))).
    + intros Hin. by apply gt_loop_work_subset in Hin.
Qed.

Lemma classify_divisions_divisions_only_witness :
  ((2%nat : node) ∉ get_divisions (gt_graph late_division))
  ∧ node_info (gt_graph (_classify_divisions late_division)) 2
    = node_info (gt_graph late_division) 2.
Proof.
  assert (H : (2%nat : node) ∉ get_divisions (gt_graph late_division)).
  { by_evaluation. }
  split; [exact H|].
  exact (proj1 (classify_divisions_divisions_only late_division 2%nat) H).
Defined.

(** X8: a classification that is not skipped writes exactly one flag
    on every division.  On a ground-truth division it is [FN_DIV],
    [TP_DIV] or [WC_DIV], never [FP_DIV]; on a predicted division it is
    [FP_DIV], [TP_DIV] or [WC_DIV], never [FN_DIV].  The node keys of
    each graph are pairwise different, as they are in a graph. *)
Theorem classify_divisions_one_flag (m : Matched) :
  division_annotations (gt_graph m) && division_annotations (pred_graph m) = false →
  NoDup (graph_nodes (gt_graph m)).*1 → NoDup (graph_nodes (pred_graph m)).*1 →
  (∀ g, g ∈ get_divisions (gt_graph m) →
     ∃ fl, (fl = FN_DIV ∨ fl = TP_DIV ∨ fl = WC_DIV)
       ∧ ∀ f, node_has_flag (gt_graph (_classify_divisions m)) g f
              = bool_decide (f = fl) || node_has_flag (gt_graph m) g f)
  ∧ (∀ p, p ∈ get_divisions (pred_graph m) →
       ∃ fl, (fl = FP_DIV ∨ fl = TP_DIV ∨ fl = WC_DIV)
         ∧ ∀ f, node_has_flag (pred_graph (_classify_divisions m)) p f
                = bool_decide (f = fl) || node_has_flag (pred_graph m) p f).
Proof.
  intros Hrun N1 N2.
  pose proof (NoDup_get_divisions _ N1) as D1.
  pose proof (NoDup_get_divisions _ N2) as D2.
  set (st0 := (m, get_divisions (pred_graph m))).
  split.
  - intros g Hg.
    destruct (gt_loop_gt_once (get_divisions (gt_graph m)) st0 g D1 Hg)
      as (fl & Hfl & H).
    { by apply get_divisions_is_node. }
    exists fl. split; [done|]. intros f.
    destruct (classify_divisions_run m Hrun g f) as [-> _]. apply H.
  - intros p Hp.
    assert (Hnodes : ∀ q, q ∈ st0.2 → is_Some (node_info (pred_graph st0.1) q)).
    { intros q Hq. by apply get_divisions_is_node. }
    destruct (gt_loop_pred_once (get_divisions (gt_graph m)) st0 p D2 Hnodes Hp)
      as [[H1 H2]|(H1 & fl & Hfl & H2)]; fold (classify_gt_divisions m) in H1, H2.
    + exists FP_DIV. split; [auto|]. intros f.
      destruct (classify_divisions_run m Hrun p f) as [_ ->].
      rewrite flag_false_positives_in; [by rewrite H2|done|].
      apply gt_loop_is_Some. by apply Hnodes.
    + exists fl. split; [naive_solver|]. intros f.
      destruct (classify_divisions_run m Hrun p f) as [_ ->].
      rewrite flag_false_positives_other by by left. apply H2.
Qed.

Lemma classify_divisions_one_flag_witness :
  (1%nat : node) ∈ get_divisions (gt_graph shifted_division)
  ∧ ∃ fl, (fl = FN_DIV ∨ fl = TP_DIV ∨ fl = WC_DIV)
      ∧ ∀ f, node_has_flag (gt_graph (_classify_divisions shifted_division)) 1 f
             = bool_decide (f = fl) || node_has_flag (gt_graph shifted_division) 1 f.
Proof.
  assert (H : (1%nat : node) ∈ get_divisions (gt_graph shifted_division)).
  { by_evaluation. }
  split; [exact H|].
  refine (proj1 (classify_divisions_one_flag shifted_division _ _ _) 1%nat H).
  - reflexivity.
  - by_evaluation.
  - by_evaluation.
Defined.

(** X9: the flags [TP_DIV] and [WC_DIV] are written in pairs.  When a
    classification that is not skipped puts one of them on a ground-truth
    node, the node is a division, its matched predicted node is a
    predicted division, and that node carries the same flag; when it puts
    one of them on a predicted node, a ground-truth division matched to
    that node carries the same flag. *)
Theorem TP_WC_flags_paired (m : Matched) (fl : NodeFlag) :
  division_annotations (gt_graph m) && division_annotations (pred_graph m) = false →
  fl = TP_DIV ∨ fl = WC_DIV →
  (∀ g, node_has_flag (gt_graph m) g fl = false →
     node_has_flag (gt_graph (_classify_divisions m)) g fl = true →
     g ∈ get_divisions (gt_graph m)
     ∧ ∃ p, get_gt_pred_match m g = Some p ∧ p ∈ get_divisions (pred_graph m)
         ∧ node_has_flag (pred_graph (_classify_divisions m)) p fl = true)
  ∧ (∀ p, node_has_flag (pred_graph m) p fl = false →
       node_has_flag (pred_graph (_classify_divisions m)) p fl = true →
       p ∈ get_divisions (pred_graph m)
       ∧ ∃ g, g ∈ get_divisions (gt_graph m) ∧ get_gt_pred_match m g = Some p
           ∧ node_has_flag (gt_graph (_classify_divisions m)) g fl = true).
Proof.
  intros Hrun Hfl.
  set (st0 := (m, get_divisions (pred_graph m))).
  assert (Hfp : fl ≠ FP_DIV) by naive_solver.
  assert (Hafter : ∀ k,
    node_has_flag (gt_graph (_classify_divisions m)) k fl
    = node_has_flag (gt_graph (classify_gt_divisions m).1) k fl
    ∧ node_has_flag (pred_graph (_classify_divisions m)) k fl
      = node_has_flag (pred_graph (classify_gt_divisions m).1) k fl).
  { intros k. destruct (classify_divisions_run m Hrun k fl) as [-> ->].
    split; [done|]. apply flag_false_positives_other. by right. }
  split.
  - intros g H0 H1. destruct (Hafter g) as [E _]. rewrite E in H1.
    destruct (gt_loop_pairing_gt (get_divisions (gt_graph m)) st0 g fl Hfl)
      as (Hg & p & Hm & Hp & Hflag); [|done..|].
    { intros q Hq. by apply get_divisions_is_node. }
    split; [done|]. exists p. split_and!; [done..|].
    destruct (Hafter p) as [_ ->]. done.
  - intros p H0 H1. destruct (Hafter p) as [_ E]. rewrite E in H1.
    destruct (gt_loop_pairing_pred (get_divisions (gt_graph m)) st0 p fl Hfl)
      as (g & Hg & Hm & Hp & Hflag); [|done..|].
    { intros a Ha. by apply get_divisions_is_node. }
    split; [done|]. exists g. split_and!; [done..|].
    destruct (Hafter g) as [-> _]. done.
Qed.

Lemma TP_WC_flags_paired_witness :
  node_has_flag (gt_graph once_matched) 1 TP_DIV = false
  ∧ node_has_flag (gt_graph (_classify_divisions once_matched)) 1 TP_DIV = true
  ∧ ∃ p, get_gt_pred_match once_matched 1 = Some p
      ∧ p ∈ get_divisions (pred_graph once_matched)
      ∧ node_has_flag (pred_graph (_classify_divisions once_matched)) p TP_DIV = true.
Proof.
  assert (H0 : node_has_flag (gt_graph once_matched) 1 TP_DIV = false)
    by reflexivity.
  assert (H1 : node_has_flag (gt_graph (_classify_divisions once_matched)) 1 TP_DIV
               = true) by reflexivity.
  split; [exact H0|]. split; [exact H1|].
  refine (proj2 (proj1 (TP_WC_flags_paired once_matched TP_DIV _ _) 1%nat H0 H1)).
  - reflexivity.
  - left. reflexivity.
Defined.

(** ** The footprint of the corrector *)

Section corrector_footprint.
Implicit Types (m : Matched) (g : TrackingGraph) (k : node)
  (pr : node * node) (pairs ws : list (node * node)) (n : Z).

Lemma only_buffers_changed_refl g : only_buffers_changed g g.
Proof.
  repeat split. induction (graph_nodes g) as [|e l IH]; constructor; done.
Qed.

Lemma only_buffers_changed_trans g1 g2 g3 :
  only_buffers_changed g1 g2 → only_buffers_changed g2 g3 →
  only_buffers_changed g1 g3.
Proof.
  intros (A1 & A2 & A3 & A4 & A5 & A6) (B1 & B2 & B3 & B4 & B5 & B6).
  repeat split; try congruence.
  revert A6 B6. generalize (graph_nodes g1) (graph_nodes g2) (graph_nodes g3).
  intros l1 l2 l3 H12. revert l3.
  induction H12 as [|e1 e2 l1 l2 (He & F1 & F2 & F3) _ IH]; intros l3 H23.
  - inversion H23. constructor.
  - inversion H23 as [|? e3 ? l3' (He' & G1 & G2 & G3) H23']; subst.
    constructor; [|auto]. repeat split; congruence.
Qed.

Lemma only_buffers_changed_set g k (bv : buffer_value) :
  only_buffers_changed g (set_min_buffer_correct g k bv).
Proof.
  repeat split. simpl. unfold update_node.
  induction (graph_nodes g) as [|[a i] l IH]; csimpl; constructor; [|done].
  by destruct (decide (a = k)).
Qed.

Lemma only_buffers_changed_foldl (l : list node) g (bv : buffer_value) :
  only_buffers_changed g (foldl (λ g (x : node), set_min_buffer_correct g x bv) g l).
Proof.
  revert g. induction l as [|a l IH]; intros g; simpl.
  - apply only_buffers_changed_refl.
  - eapply only_buffers_changed_trans; [apply only_buffers_changed_set|apply IH].
Qed.

Lemma correct_pair_footprint n m pr m' (w : bool) :
  correct_pair n m pr = Ok (m', w) →
  mapping m' = mapping m
  ∧ only_buffers_changed (gt_graph m) (gt_graph m')
  ∧ only_buffers_changed (pred_graph m) (pred_graph m').
Proof.
  intros (_ & _ & [(_ & -> & _)|(_ & -> & _)])%correct_pair_Ok; simpl;
    split_and!; auto using only_buffers_changed_refl, only_buffers_changed_set.
Qed.

Lemma correct_pairs_footprint n pairs m m' ws :
  correct_pairs n pairs m = Ok (m', ws) →
  mapping m' = mapping m
  ∧ only_buffers_changed (gt_graph m) (gt_graph m')
  ∧ only_buffers_changed (pred_graph m) (pred_graph m').
Proof.
  revert m ws. induction pairs as [|pr pairs IH]; intros m ws.
  - intros [= <- <-]. split_and!; auto using only_buffers_changed_refl.
  - intros (m1 & w & ws' & H1 & H2 & _)%correct_pairs_cons.
    destruct (correct_pair_footprint _ _ _ _ _ H1) as (A1 & A2 & A3).
    destruct (IH _ _ H2) as (B1 & B2 & B3).
    split_and!; [congruence|by eapply only_buffers_changed_trans..].
Qed.

Lemma correct_passes_footprint (l : list Z) m m' :
  correct_passes l m = Ok m' →
  mapping m' = mapping m
  ∧ only_buffers_changed (gt_graph m) (gt_graph m')
  ∧ only_buffers_changed (pred_graph m) (pred_graph m').
Proof.
  revert m. induction l as [|d l IH]; intros m; simpl.
  - intros [= <-]. split_and!; auto using only_buffers_changed_refl.
  - destruct (_correct_shifted_divisions m d) as [m0|e] eqn:E; simpl; [|done].
    intros H. apply correct_shifted_divisions_Ok in E as [ws E].
    destruct (correct_pairs_footprint _ _ _ _ _ E) as (A1 & A2 & A3).
    destruct (IH _ H) as (B1 & B2 & B3).
    split_and!; [congruence|by eapply only_buffers_changed_trans..].
Qed.

Lemma init_buffers_footprint m :
  mapping (init_buffers m) = mapping m
  ∧ only_buffers_changed (gt_graph m) (gt_graph (init_buffers m))
  ∧ only_buffers_changed (pred_graph m) (pred_graph (init_buffers m)).
Proof.
  unfold init_buffers, mark_nan. simpl.
  split_and!; [done|apply only_buffers_changed_foldl..].
Qed.
End corrector_footprint.

(** X10: a call of the corrector that returns has changed
    ["min_buffer_correct"] entries and nothing else: the mapping, the
    edges, the segmentation, the frame range and the annotations-done
    boolean of both graphs are as before, the nodes are the same in the
    same order, and every node keeps its frame, its label and its
    flags. *)
Theorem correct_shifted_divisions_footprint (m : Matched) (n_frames : Z) (m' : Matched) :
  _correct_shifted_divisions m n_frames = Ok m' →
  mapping m' = mapping m
  ∧ only_buffers_changed (gt_graph m) (gt_graph m')
  ∧ only_buffers_changed (pred_graph m) (pred_graph m').
Proof.
  intros [ws H]%correct_shifted_divisions_Ok.
  by eapply correct_pairs_footprint.
Qed.

Lemma correct_shifted_divisions_footprint_witness :
  _correct_shifted_divisions shifted_ready 1 = Ok (write_pair 1 shifted_ready (12, 1)%nat)
  ∧ only_buffers_changed (gt_graph shifted_ready)
      (gt_graph (write_pair 1 shifted_ready (12, 1)%nat)).
Proof.
  assert (H : _correct_shifted_divisions shifted_ready 1
              = Ok (write_pair 1 shifted_ready (12, 1)%nat)).
  { vm_compute. reflexivity. }
  split; [exact H|].
  exact (proj1 (proj2 (correct_shifted_divisions_footprint _ _ _ H))).
Defined.

(** X11: after the baseline classification the orchestrator changes
    ["min_buffer_correct"] entries only: between the classified dataset
    and the dataset that [evaluate_division_events] returns, the
    mapping and, up to those entries, both graphs are the same; the
    flags are those of the classification. *)
Theorem evaluate_division_events_footprint (m : Matched) (max_frame_buffer : Z)
    (m' : Matched) :
  evaluate_division_events m max_frame_buffer = Ok m' →
  mapping m' = mapping m
  ∧ only_buffers_changed (gt_graph (_classify_divisions m)) (gt_graph m')
  ∧ only_buffers_changed (pred_graph (_classify_divisions m)) (pred_graph m').
Proof.
  unfold evaluate_division_events. intros H.
  destruct (correct_passes_footprint _ _ _ H) as (A1 & A2 & A3).
  destruct (init_buffers_footprint (_classify_divisions m)) as (B1 & B2 & B3).
  destruct (classify_divisions_only_flags m) as (C1 & _).
  split_and!; [congruence|by eapply only_buffers_changed_trans..].
Qed.

Lemma evaluate_division_events_footprint_witness :
  evaluate_division_events shifted_division 1
  = Ok (write_pair 1 shifted_ready (12, 1)%nat)
  ∧ mapping (write_pair 1 shifted_ready (12, 1)%nat) = mapping shifted_division.
Proof.
  assert (H : evaluate_division_events shifted_division 1
              = Ok (write_pair 1 shifted_ready (12, 1)%nat)).
  { vm_compute. reflexivity. }
  split; [exact H|].
  exact (proj1 (evaluate_division_events_footprint _ _ _ H)).
Defined.

(** ** Buffers that correct nothing *)

Section no_buffer.
Implicit Types (m : Matched) (g : TrackingGraph) (k : node)
  (pr : node * node) (pairs ws : list (node * node)) (n : Z).

Lemma get_nodes_with_flag_is_node g k (f : NodeFlag) :
  k ∈ get_nodes_with_flag g f → is_Some (node_info g k).
Proof.
  unfold get_nodes_with_flag. intros (e & -> & [_ He]%list_elem_of_filter)%list_elem_of_fmap.
  apply lookup_node_is_Some. apply list_elem_of_fmap. eauto.
Qed.

Lemma division_pairs_are_nodes m pr :
  pr ∈ division_pairs m →
  is_Some (node_info (pred_graph m) pr.1) ∧ is_Some (node_info (gt_graph m) pr.2).
Proof.
  destruct pr as [fp fn]. intros [H1 H2]%elem_of_product.
  split; by eapply get_nodes_with_flag_is_node.
Qed.

Lemma correct_pair_no_buffer n m pr :
  n ≤ 0 →
  is_Some (node_info (pred_graph m) pr.1) → is_Some (node_info (gt_graph m) pr.2) →
  correct_pair n m pr = Ok (m, false).
Proof.
  intros Hn [ifp Hfp] [ifn Hfn]. unfold correct_pair. rewrite Hfp, Hfn.
  destruct (is_not_nan ifp || is_not_nan ifn); [done|].
  repeat case_bool_decide; simpl; try done. lia.
Qed.

Lemma correct_pairs_all_skipped n pairs m :
  (∀ pr, pr ∈ pairs → correct_pair n m pr = Ok (m, false)) →
  correct_pairs n pairs m = Ok (m, []).
Proof.
  induction pairs as [|pr pairs IH]; intros H; simpl; [done|].
  rewrite H by by left. simpl. rewrite IH; [done|].
  intros pr' Hpr'. apply H. by right.
Qed.
End no_buffer.

(** X12: with a frame buffer of zero or less the corrector returns
    without an exception and without a write, whatever the dataset: no
    pair of an FP and an FN division is within the buffer and in
    different frames. *)
Theorem correct_shifted_divisions_no_buffer (m : Matched) (n_frames : Z) :
  n_frames ≤ 0 → _correct_shifted_divisions m n_frames = Ok m.
Proof.
  intros Hn. unfold _correct_shifted_divisions.
  rewrite correct_pairs_all_skipped; [done|].
  intros pr [H1 H2]%division_pairs_are_nodes. by apply correct_pair_no_buffer.
Qed.

Lemma correct_shifted_divisions_no_buffer_witness :
  _correct_shifted_divisions merging_ready 0 = Ok merging_ready.
Proof. apply (correct_shifted_divisions_no_buffer merging_ready 0). lia. Defined.

(** ** Exceptions of the corrector *)

Section corrector_exceptions.
Implicit Types (m : Matched) (g : TrackingGraph) (k x : node)
  (pr : node * node) (pairs ws : list (node * node)) (n : Z) (e : exn).

Lemma predecessors_ext g g' k :
  graph_edges g' = graph_edges g → predecessors g' k = predecessors g k.
Proof. unfold predecessors. by intros ->. Qed.

Lemma merge_free_ext g g' :
  graph_edges g' = graph_edges g → merge_free g' = merge_free g.
Proof.
  intros He. unfold merge_free. rewrite He.
  assert (Hp : ∀ k, predecessors g' k = predecessors g k)
    by (intros k; by apply predecessors_ext).
  clear He. induction (graph_edges g) as [|e l IH]; simpl; [done|].
  by rewrite IH, Hp.
Qed.

(** A node with two predecessors makes the graph fail the check. *)
Lemma merge_free_false g x :
  (2 ≤ length (predecessors g x))%nat → merge_free g = false.
Proof.
  intros Hl. destruct (merge_free g) eqn:Hmf; [|done]. exfalso.
  destruct (predecessors g x) as [|y l] eqn:Hp; simpl in Hl; [lia|].
  assert (Hin : (y, x) ∈ graph_edges g).
  { apply elem_of_predecessors. rewrite Hp. by left. }
  rewrite (merge_free_predecessors g x y Hmf Hin) in Hp.
  injection Hp as <-. simpl in Hl. lia.
Qed.

Lemma lineages_match_Raise m (fp fn : node) (t_fp t_fn : Z) e :
  lineages_match m fp fn t_fp t_fn = Raise e →
  e = ValueError
  ∧ (merge_free (gt_graph m) = false ∨ merge_free (pred_graph m) = false).
Proof.
  unfold lineages_match, _get_pred_by_t. case_bool_decide.
  - destruct (pred_steps (gt_graph m) _ fn) as [o|e'] eqn:Hw; simpl.
    + destruct (negb _); [done|]. by destruct (negb _).
    + intros [= ->]. apply pred_steps_Raise in Hw as (-> & i & x & _ & _ & Hl).
      split; [done|]. left. by eapply merge_free_false.
  - destruct (pred_steps (pred_graph m) _ fp) as [o|e'] eqn:Hw; simpl.
    + destruct (negb _); [done|]. by destruct (negb _).
    + intros [= ->]. apply pred_steps_Raise in Hw as (-> & i & x & _ & _ & Hl).
      split; [done|]. right. by eapply merge_free_false.
Qed.

(** The loop raises at the first pair whose body raises. *)
Lemma correct_pairs_Raise n pairs m e :
  correct_pairs n pairs m = Raise e →
  ∃ l1 pr l2 m1 ws1,
    pairs = l1 ++ pr :: l2
    ∧ correct_pairs n l1 m = Ok (m1, ws1)
    ∧ correct_pair n m1 pr = Raise e.
Proof.
  revert m. induction pairs as [|p0 pairs IH]; intros m; simpl; [done|].
  destruct (correct_pair n m p0) as [[m0 w]|e0] eqn:E0; simpl.
  - destruct (correct_pairs n pairs m0) as [[m2 ws2]|e2] eqn:E2; simpl; [done|].
    intros [= ->].
    destruct (IH _ E2) as (l1 & pr & l2 & m1 & ws1 & -> & H1 & H2).
    exists (p0 :: l1), pr, l2, m1, ((if w then [p0] else []) ++ ws1).
    split_and!; [done| |done].
    apply correct_pairs_cons. exists m0, w, ws1. done.
  - intros [= ->]. exists [], p0, pairs, m, []. done.
Qed.

Lemma same_lineage_is_node m m' :
  same_lineage m m' →
  (∀ k, is_Some (node_info (gt_graph m) k) → is_Some (node_info (gt_graph m') k))
  ∧ (∀ k, is_Some (node_info (pred_graph m) k) → is_Some (node_info (pred_graph m') k)).
Proof.
  intros (_ & _ & _ & Hg & Hp & _). split; intros k [i Hi].
  - specialize (Hg k). unfold frame_of in Hg. rewrite Hi in Hg.
    destruct (node_info (gt_graph m') k); [eauto|done].
  - specialize (Hp k). unfold frame_of in Hp. rewrite Hi in Hp.
    destruct (node_info (pred_graph m') k); [eauto|done].
Qed.

Lemma correct_pairs_Raise_merge n pairs m e :
  (∀ pr, pr ∈ pairs →
     is_Some (node_info (pred_graph m) pr.1) ∧ is_Some (node_info (gt_graph m) pr.2)) →
  correct_pairs n pairs m = Raise e →
  e = ValueError
  ∧ (merge_free (gt_graph m) = false ∨ merge_free (pred_graph m) = false).
Proof.
  intros Hnodes (l1 & pr & l2 & m1 & ws1 & -> & H1 & H2)%correct_pairs_Raise.
  pose proof (correct_pairs_same_lineage _ _ _ _ _ H1) as Hs.
  destruct (same_lineage_is_node _ _ Hs) as [Sg Sp].
  destruct (Hnodes pr) as [[ifp Hfp]%Sp [ifn Hfn]%Sg].
  { apply elem_of_app. right. by left. }
  apply correct_pair_Raise in H2
    as [[_ [?|?]]|(t_fp & t_fn & _ & _ & _ & _ & _ & _ & Hl)]; [congruence..|].
  rewrite (lineages_match_ext m m1) in Hl by done.
  by apply lineages_match_Raise in Hl.
Qed.

Lemma correct_shifted_divisions_Raise m n e :
  _correct_shifted_divisions m n = Raise e →
  e = ValueError
  ∧ (merge_free (gt_graph m) = false ∨ merge_free (pred_graph m) = false).
Proof.
  unfold _correct_shifted_divisions.
  destruct (correct_pairs n (division_pairs m) m) as [r|e'] eqn:E; simpl; [done|].
  intros [= ->]. eapply correct_pairs_Raise_merge; [|done].
  apply division_pairs_are_nodes.
Qed.

Lemma correct_passes_Raise (l : list Z) m e :
  correct_passes l m = Raise e →
  e = ValueError
  ∧ (merge_free (gt_graph m) = false ∨ merge_free (pred_graph m) = false).
Proof.
  revert m. induction l as [|d l IH]; intros m; simpl; [done|].
  destruct (_correct_shifted_divisions m d) as [m0|e0] eqn:E; simpl.
  - intros H. apply correct_shifted_divisions_Ok in E as [ws E].
    destruct (correct_pairs_same_lineage _ _ _ _ _ E) as (_ & Hg & Hp & _).
    destruct (IH _ H) as [-> Hmf]. split; [done|].
    by rewrite <- (merge_free_ext _ _ Hg), <- (merge_free_ext _ _ Hp).
  - intros [= ->]. by apply correct_shifted_divisions_Raise in E.
Qed.
End corrector_exceptions.

(** X13: the only exception that the corrector raises is the
    [ValueError] of the backward walk, and it raises it only on a
    dataset one of whose graphs has a node with more than one
    predecessor.  In particular the lookups of the node attributes never
    fail. *)
Theorem correct_shifted_divisions_raises_on_merge_only (m : Matched) (n_frames : Z)
    (e : exn) :
  _correct_shifted_divisions m n_frames = Raise e →
  e = ValueError
  ∧ (merge_free (gt_graph m) = false ∨ merge_free (pred_graph m) = false).
Proof. apply correct_shifted_divisions_Raise. Qed.

Lemma correct_shifted_divisions_raises_on_merge_only_witness :
  _correct_shifted_divisions merging_ready 1 = Raise ValueError
  ∧ (merge_free (gt_graph merging_ready) = false
     ∨ merge_free (pred_graph merging_ready) = false).
Proof.
  assert (H : _correct_shifted_divisions merging_ready 1 = Raise ValueError).
  { vm_compute. reflexivity. }
  split; [exact H|].
  exact (proj2 (correct_shifted_divisions_raises_on_merge_only _ _ _ H)).
Defined.

(** X14: on graphs without merges [evaluate_division_events] returns a
    dataset, for every mapping and every maximal buffer; and an
    exception of [evaluate_division_events], on any dataset, is a
    [ValueError]. *)
Theorem evaluate_division_events_total (m : Matched) (max_frame_buffer : Z) :
  (merge_free (gt_graph m) = true → merge_free (pred_graph m) = true →
   ∃ m', evaluate_division_events m max_frame_buffer = Ok m')
  ∧ (∀ e, evaluate_division_events m max_frame_buffer = Raise e → e = ValueError).
Proof.
  assert (Hraise : ∀ e, evaluate_division_events m max_frame_buffer = Raise e →
            e = ValueError
            ∧ (merge_free (gt_graph m) = false ∨ merge_free (pred_graph m) = false)).
  { unfold evaluate_division_events. intros e [-> Hmf]%correct_passes_Raise.
    split; [done|].
    destruct (init_buffers_footprint (_classify_divisions m))
      as (_ & (Eg & _) & (Ep & _)).
    destruct (classify_divisions_only_flags m) as (_ & (Eg' & _) & (Ep' & _)).
    rewrite (merge_free_ext _ _ Eg), (merge_free_ext _ _ Ep) in Hmf.
    by rewrite (merge_free_ext _ _ Eg'), (merge_free_ext _ _ Ep') in Hmf. }
  split.
  - intros H1 H2.
    destruct (evaluate_division_events m max_frame_buffer) as [m'|e] eqn:E; [eauto|].
    destruct (Hraise e eq_refl) as [_ [?|?]]; congruence.
  - intros e He. by destruct (Hraise e He).
Qed.

Lemma evaluate_division_events_total_witness :
  merge_free (gt_graph contested_division) = true
  ∧ merge_free (pred_graph contested_division) = true
  ∧ ∃ m', evaluate_division_events contested_division 2 = Ok m'.
Proof.
  split; [reflexivity|]. split; [reflexivity|].
  apply (proj1 (evaluate_division_events_total contested_division 2)); reflexivity.
Defined.

(** ** Running the evaluation again *)

Section evaluate_again.
Implicit Types (m : Matched) (g : TrackingGraph) (k x : node) (f : NodeFlag)
  (pr : node * node) (pairs ws : list (node * node)) (n : Z) (l : list node).

(** The marking loop, as one pass over the nodes. *)
Lemma foldl_nan_nodes l g :
  foldl (λ g (x : node), set_min_buffer_correct g x NaN) g l
  = with_nodes g
      ((λ e : node * NodeInfo,
          if decide (e.1 ∈ l) then (e.1, set_buffer NaN e.2) else e)
         <$> graph_nodes g).
Proof.
  revert g. induction l as [|a l IH]; intros g; simpl.
  - destruct g as [ns es sg sf ef da]. unfold with_nodes. simpl. f_equal.
    induction ns as [|e ns IHns]; csimpl; [done|].
    by rewrite <- IHns.
  - rewrite IH. unfold set_min_buffer_correct, with_nodes, update_node. simpl.
    f_equal. rewrite <- list_fmap_compose. apply list_fmap_ext.
    intros _ [b i] _. simpl.
    destruct (decide (b = a)) as [->|Hne]; simpl.
    + rewrite (decide_True (P := a ∈ a :: l)) by by left.
      by destruct (decide (a ∈ l)).
    + destruct (decide (b ∈ l)) as [Hin|Hin].
      * rewrite decide_True; [done|]. by right.
      * rewrite decide_False; [done|]. rewrite not_elem_of_cons. done.
Qed.

Lemma mark_nan_set_buffer g k (bv : buffer_value) f :
  k ∈ get_nodes_with_flag g f →
  mark_nan (set_min_buffer_correct g k bv) f = mark_nan g f.
Proof.
  intros Hk. unfold mark_nan. rewrite get_nodes_with_flag_set_buffer.
  rewrite !foldl_nan_nodes. unfold set_min_buffer_correct, with_nodes, update_node.
  simpl. f_equal. rewrite <- list_fmap_compose. apply list_fmap_ext.
  intros _ [b i] _. simpl.
  destruct (decide (b = k)) as [->|Hne]; simpl; [|done].
  by rewrite !decide_True.
Qed.

Lemma mark_nan_idemp g f : mark_nan (mark_nan g f) f = mark_nan g f.
Proof.
  unfold mark_nan at 1. unfold mark_nan at 2.
  rewrite get_nodes_with_flag_foldl_nan. fold (mark_nan g f).
  unfold mark_nan. rewrite !foldl_nan_nodes. unfold with_nodes. simpl.
  f_equal. rewrite <- list_fmap_compose. apply list_fmap_ext.
  intros _ [b i] _. simpl.
  destruct (decide (b ∈ get_nodes_with_flag g f)) as [Hin|Hin]; simpl.
  - by rewrite decide_True.
  - by rewrite decide_False.
Qed.

Lemma init_buffers_idemp m : init_buffers (init_buffers m) = init_buffers m.
Proof. unfold init_buffers. simpl. by rewrite !mark_nan_idemp. Qed.

Lemma init_buffers_write n m pr :
  pr ∈ division_pairs m → init_buffers (write_pair n m pr) = init_buffers m.
Proof.
  destruct pr as [fp fn]. intros [H1 H2]%elem_of_product.
  unfold init_buffers, write_pair. simpl.
  by rewrite !mark_nan_set_buffer.
Qed.

Lemma correct_pairs_init_buffers n pairs m m' ws :
  (∀ pr, pr ∈ pairs → pr ∈ division_pairs m) →
  correct_pairs n pairs m = Ok (m', ws) → init_buffers m' = init_buffers m.
Proof.
  revert m ws. induction pairs as [|p0 pairs IH]; intros m ws Hsub.
  - by intros [= <- <-].
  - intros (m1 & w & ws' & H1 & H2 & _)%correct_pairs_cons.
    pose proof (correct_pair_same_lineage _ _ _ _ _ H1) as Hs.
    rewrite (IH m1 ws').
    + apply correct_pair_Ok in H1 as (_ & _ & [(_ & -> & _)|(_ & -> & _)]); [|done].
      apply init_buffers_write, Hsub. by left.
    + intros pr Hpr. rewrite (division_pairs_ext _ _ Hs). apply Hsub. by right.
    + done.
Qed.

Lemma correct_passes_init_buffers (deltas : list Z) m m' :
  correct_passes deltas m = Ok m' → init_buffers m' = init_buffers m.
Proof.
  revert m. induction deltas as [|d deltas IH]; intros m; simpl.
  - by intros [= <-].
  - destruct (_correct_shifted_divisions m d) as [m0|e] eqn:E; simpl; [|done].
    intros H. apply correct_shifted_divisions_Ok in E as [ws E].
    rewrite (IH _ H). by eapply correct_pairs_init_buffers.
Qed.
End evaluate_again.

(** X15: the evaluation is idempotent.  When
    [evaluate_division_events] returns a dataset, a second call on that
    dataset with the same maximal buffer returns it unchanged: the
    classification is skipped, the marking resets the entries of the FP
    and FN divisions to [np.nan], and the passes record the same buffers
    again. *)
Theorem evaluate_division_events_idempotent (m : Matched) (max_frame_buffer : Z)
    (m' : Matched) :
  evaluate_division_events m max_frame_buffer = Ok m' →
  evaluate_division_events m' max_frame_buffer = Ok m'.
Proof.
  unfold evaluate_division_events. intros H.
  destruct (correct_passes_footprint _ _ _ H)
    as (_ & (_ & _ & _ & _ & Dg & _) & (_ & _ & _ & _ & Dp & _)).
  destruct (init_buffers_footprint (_classify_divisions m))
    as (_ & (_ & _ & _ & _ & Dg' & _) & (_ & _ & _ & _ & Dp' & _)).
  assert (Hskip : _classify_divisions m' = m').
  { unfold _classify_divisions at 1. rewrite Dg, Dp, Dg', Dp'.
    assert (Hdone : division_annotations (gt_graph (_classify_divisions m)) = true
                    ∧ division_annotations (pred_graph (_classify_divisions m)) = true).
    { unfold _classify_divisions.
      destruct (division_annotations (gt_graph m)) eqn:H1;
        destruct (division_annotations (pred_graph m)) eqn:H2; simpl; auto. }
    destruct Hdone as [-> ->]. done. }
  rewrite Hskip, (correct_passes_init_buffers _ _ _ H), init_buffers_idemp. done.
Qed.

Lemma evaluate_division_events_idempotent_witness :
  evaluate_division_events shifted_division 1
  = Ok (write_pair 1 shifted_ready (12, 1)%nat)
  ∧ evaluate_division_events (write_pair 1 shifted_ready (12, 1)%nat) 1
    = Ok (write_pair 1 shifted_ready (12, 1)%nat).
Proof.
  assert (H : evaluate_division_events shifted_division 1
              = Ok (write_pair 1 shifted_ready (12, 1)%nat)).
  { vm_compute. reflexivity. }
  split; [exact H|].
  exact (evaluate_division_events_idempotent _ _ _ H).
Defined.

(** ** The entries after the passes *)

Section entries.
Implicit Types (m : Matched) (g : TrackingGraph) (k x : node) (f : NodeFlag)
  (pr : node * node) (pairs ws : list (node * node)) (n : Z) (l : list node)
  (bv : buffer_value).

Lemma elem_of_buffer_range (d max : Z) : d ∈ buffer_range max ↔ 1 ≤ d ≤ max.
Proof.
  unfold buffer_range. rewrite list_elem_of_fmap. split.
  - intros (j & -> & Hj%elem_of_seq). lia.
  - intros Hd. exists (Z.to_nat d). split; [lia|]. apply elem_of_seq. lia.
Qed.

Lemma buffer_range_later (k max : Z) :
  k ≤ max →
  ∃ later, buffer_range max = buffer_range k ++ later
    ∧ ∀ d, d ∈ later → k < d ≤ max.
Proof.
  intros Hk. unfold buffer_range.
  exists (Z.of_nat <$> seq (1 + Z.to_nat k) (Z.to_nat max - Z.to_nat k)). split.
  - rewrite <- fmap_app, <- seq_app. do 2 f_equal. lia.
  - intros d (j & -> & Hj%elem_of_seq)%list_elem_of_fmap. lia.
Qed.

Lemma correct_passes_provenance (deltas : list Z) m m' x bv :
  correct_passes deltas m = Ok m' →
  (buffer_of (pred_graph m') x = Some bv →
   buffer_of (pred_graph m) x = Some bv ∨ ∃ d, d ∈ deltas ∧ bv = Frames d)
  ∧ (buffer_of (gt_graph m') x = Some bv →
     buffer_of (gt_graph m) x = Some bv ∨ ∃ d, d ∈ deltas ∧ bv = Frames d).
Proof.
  revert m. induction deltas as [|d deltas IH]; intros m; simpl.
  - intros [= <-]. auto.
  - destruct (_correct_shifted_divisions m d) as [m0|e] eqn:E; simpl; [|done].
    intros H. apply correct_shifted_divisions_Ok in E as [ws E].
    destruct (correct_pairs_provenance _ _ _ _ _ x bv E) as [P1 P2].
    destruct (IH _ H) as [I1 I2].
    split; intros Hb.
    + destruct (I1 Hb) as [Hb'|(d' & ? & ->)].
      * destruct (P1 Hb') as [?|[-> _]]; [by left|].
        right. exists d. split; [by left|done].
      * right. exists d'. split; [by right|done].
    + destruct (I2 Hb) as [Hb'|(d' & ? & ->)].
      * destruct (P2 Hb') as [?|[-> _]]; [by left|].
        right. exists d. split; [by left|done].
      * right. exists d'. split; [by right|done].
Qed.

(** An entry never disappears: it stays, or the buffer of the call
    takes its place. *)
Lemma correct_pairs_forward n pairs m m' ws x bv :
  correct_pairs n pairs m = Ok (m', ws) →
  (buffer_of (pred_graph m) x = Some bv →
   buffer_of (pred_graph m') x = Some bv
   ∨ buffer_of (pred_graph m') x = Some (Frames n))
  ∧ (buffer_of (gt_graph m) x = Some bv →
     buffer_of (gt_graph m') x = Some bv
     ∨ buffer_of (gt_graph m') x = Some (Frames n)).
Proof.
  revert m ws bv. induction pairs as [|p0 pairs IH]; intros m ws bv.
  - intros [= <- <-]. auto.
  - intros (m1 & w & ws' & H1 & H2 & _)%correct_pairs_cons.
    destruct (IH _ _ bv H2) as [I1 I2].
    destruct (IH _ _ (Frames n) H2) as [J1 J2].
    apply correct_pair_Ok in H1 as (_ & _ & [(_ & -> & _)|(_ & -> & _)]); [|done].
    split; intros Hb.
    + assert (Hstep : buffer_of (pred_graph (write_pair n m p0)) x = Some bv
                      ∨ buffer_of (pred_graph (write_pair n m p0)) x
                        = Some (Frames n)).
      { rewrite buffer_of_write_pred. destruct (decide (x = p0.1)); [|by left].
        right. unfold buffer_of in Hb.
        by destruct (node_info (pred_graph m) x). }
      destruct Hstep as [?|?]; [auto|]. destruct J1; auto.
    + assert (Hstep : buffer_of (gt_graph (write_pair n m p0)) x = Some bv
                      ∨ buffer_of (gt_graph (write_pair n m p0)) x
                        = Some (Frames n)).
      { rewrite buffer_of_write_gt. destruct (decide (x = p0.2)); [|by left].
        right. unfold buffer_of in Hb.
        by destruct (node_info (gt_graph m) x). }
      destruct Hstep as [?|?]; [auto|]. destruct J2; auto.
Qed.

Lemma correct_passes_forward (deltas : list Z) m m' x bv :
  correct_passes deltas m = Ok m' →
  (buffer_of (pred_graph m) x = Some bv →
   buffer_of (pred_graph m') x = Some bv
   ∨ ∃ d, d ∈ deltas ∧ buffer_of (pred_graph m') x = Some (Frames d))
  ∧ (buffer_of (gt_graph m) x = Some bv →
     buffer_of (gt_graph m') x = Some bv
     ∨ ∃ d, d ∈ deltas ∧ buffer_of (gt_graph m') x = Some (Frames d)).
Proof.
  revert m. induction deltas as [|d deltas IH]; intros m; simpl.
  - intros [= <-]. auto.
  - destruct (_correct_shifted_divisions m d) as [m0|e] eqn:E; simpl; [|done].
    intros H. apply correct_shifted_divisions_Ok in E as [ws E].
    destruct (correct_pairs_forward _ _ _ _ _ x bv E) as [P1 P2].
    destruct (IH _ H) as [I1 I2].
    destruct (correct_passes_buffers_kept _ _ _ H) as [Kg Kp].
    split; intros Hb.
    + destruct (P1 Hb) as [Hb'|Hb'].
      * destruct (I1 Hb') as [?|(d' & ? & ?)]; [by left|].
        right. exists d'. split; [by right|done].
      * right. exists d. split; [by left|]. by apply Kp.
    + destruct (P2 Hb) as [Hb'|Hb'].
      * destruct (I2 Hb') as [?|(d' & ? & ?)]; [by left|].
        right. exists d'. split; [by right|done].
      * right. exists d. split; [by left|]. by apply Kg.
Qed.

Lemma buffer_of_foldl_nan l g x :
  buffer_of (foldl (λ g (y : node), set_min_buffer_correct g y NaN) g l) x
  = if decide (x ∈ l) then node_info g x ≫= (λ _, Some NaN) else buffer_of g x.
Proof.
  rewrite foldl_nan_nodes. unfold buffer_of, node_info, with_nodes. simpl.
  induction (graph_nodes g) as [|[a i] ns IH]; simpl.
  - by destruct (decide (x ∈ l)).
  - destruct (decide (a ∈ l)) as [Ha|Ha]; simpl;
      destruct (decide (a = x)) as [->|Hne]; simpl.
    + by rewrite decide_True.
    + done.
    + by rewrite decide_False.
    + done.
Qed.

Lemma node_info_foldl_nan l g x :
  x ∉ l →
  node_info (foldl (λ g (y : node), set_min_buffer_correct g y NaN) g l) x
  = node_info g x.
Proof.
  revert g. induction l as [|a l IH]; intros g Hx; simpl; [done|].
  apply not_elem_of_cons in Hx as [Hne Hx].
  rewrite IH by done. by rewrite node_info_set_buffer, decide_False.
Qed.

Lemma correct_pairs_node_info n pairs m m' ws x :
  correct_pairs n pairs m = Ok (m', ws) →
  (x ∉ pairs.*1 → node_info (pred_graph m') x = node_info (pred_graph m) x)
  ∧ (x ∉ pairs.*2 → node_info (gt_graph m') x = node_info (gt_graph m) x).
Proof.
  revert m ws. induction pairs as [|p0 pairs IH]; intros m ws.
  - intros [= <- <-]. auto.
  - intros (m1 & w & ws' & H1 & H2 & _)%correct_pairs_cons.
    destruct (IH _ _ H2) as [I1 I2]. csimpl.
    apply correct_pair_Ok in H1 as (_ & _ & [(_ & -> & _)|(_ & -> & _)]).
    + split; intros [Hne Hx]%not_elem_of_cons.
      * rewrite I1 by done. simpl. by rewrite node_info_set_buffer, decide_False.
      * rewrite I2 by done. simpl. by rewrite node_info_set_buffer, decide_False.
    + split; intros [Hne Hx]%not_elem_of_cons; auto.
Qed.

Lemma division_pairs_fst m x :
  x ∈ (division_pairs m).*1 → x ∈ get_nodes_with_flag (pred_graph m) FP_DIV.
Proof.
  intros ([fp fn] & -> & [H _]%elem_of_product)%list_elem_of_fmap. done.
Qed.

Lemma division_pairs_snd m x :
  x ∈ (division_pairs m).*2 → x ∈ get_nodes_with_flag (gt_graph m) FN_DIV.
Proof.
  intros ([fp fn] & -> & [_ H]%elem_of_product)%list_elem_of_fmap. done.
Qed.

Lemma correct_passes_node_info (deltas : list Z) m m' x :
  correct_passes deltas m = Ok m' →
  (x ∉ get_nodes_with_flag (pred_graph m) FP_DIV →
   node_info (pred_graph m') x = node_info (pred_graph m) x)
  ∧ (x ∉ get_nodes_with_flag (gt_graph m) FN_DIV →
     node_info (gt_graph m') x = node_info (gt_graph m) x).
Proof.
  revert m. induction deltas as [|d deltas IH]; intros m; simpl.
  - intros [= <-]. auto.
  - destruct (_correct_shifted_divisions m d) as [m0|e] eqn:E; simpl; [|done].
    intros H. apply correct_shifted_divisions_Ok in E as [ws E].
    destruct (correct_pairs_node_info _ _ _ _ _ x E) as [P1 P2].
    destruct (IH _ H) as [I1 I2].
    destruct (correct_pairs_same_lineage _ _ _ _ _ E)
      as (_ & _ & _ & _ & _ & _ & _ & Fg & Fp).
    split; intros Hx.
    + rewrite I1 by by rewrite Fp. apply P1. intros ?%division_pairs_fst. done.
    + rewrite I2 by by rewrite Fg. apply P2. intros ?%division_pairs_snd. done.
Qed.
End entries.

(** X16: a smaller maximal buffer gives the same recorded buffers up to
    that buffer.  When the evaluation with the maximal buffer [k'] returns
    [m'], the evaluation with a maximal buffer [k ≤ k'] returns a dataset
    [mk] as well; every buffer recorded in [mk] is recorded in [m'], and
    every entry of [m'] is the entry of [mk] or a recorded buffer in
    [k+1..k']. *)
Theorem evaluate_division_events_smaller_buffer (m : Matched) (k k' : Z) (m' : Matched) :
  evaluate_division_events m k' = Ok m' → k ≤ k' →
  ∃ mk, evaluate_division_events m k = Ok mk
    ∧ buffers_kept (gt_graph mk) (gt_graph m')
    ∧ buffers_kept (pred_graph mk) (pred_graph m')
    ∧ (∀ x bv, buffer_of (gt_graph m') x = Some bv →
         buffer_of (gt_graph mk) x = Some bv ∨ ∃ v, bv = Frames v ∧ k < v ≤ k')
    ∧ (∀ x bv, buffer_of (pred_graph m') x = Some bv →
         buffer_of (pred_graph mk) x = Some bv ∨ ∃ v, bv = Frames v ∧ k < v ≤ k').
Proof.
  unfold evaluate_division_events. intros H Hk.
  destruct (buffer_range_later k k' Hk) as (later & Hsplit & Hlater).
  rewrite Hsplit in H. apply correct_passes_app in H as (mk & H1 & H2).
  exists mk. split; [done|].
  destruct (correct_passes_buffers_kept _ _ _ H2) as [Kg Kp].
  split_and!; [done..| |].
  - intros x bv Hb. destruct (correct_passes_provenance _ _ _ x bv H2) as [_ P].
    destruct (P Hb) as [?|(d & Hd & ->)]; [by left|]. right. eauto.
  - intros x bv Hb. destruct (correct_passes_provenance _ _ _ x bv H2) as [P _].
    destruct (P Hb) as [?|(d & Hd & ->)]; [by left|]. right. eauto.
Qed.

Lemma evaluate_division_events_smaller_buffer_witness :
  evaluate_division_events shifted_division 1
  = Ok (write_pair 1 shifted_ready (12, 1)%nat)
  ∧ 0 ≤ 1
  ∧ ∃ mk, evaluate_division_events shifted_division 0 = Ok mk
      ∧ buffers_kept (gt_graph mk) (gt_graph (write_pair 1 shifted_ready (12, 1)%nat)).
Proof.
  assert (H : evaluate_division_events shifted_division 1
              = Ok (write_pair 1 shifted_ready (12, 1)%nat)).
  { vm_compute. reflexivity. }
  assert (Hk : 0 ≤ 1) by lia.
  split; [exact H|]. split; [exact Hk|].
  destruct (evaluate_division_events_smaller_buffer shifted_division 0 1 _ H Hk)
    as (mk & H1 & H2 & _).
  exists mk. split; [exact H1|exact H2].
Defined.

(** X17: after the classification the orchestrator writes only on the
    nodes that carry [FN_DIV] in the ground truth and [FP_DIV] in the
    prediction: every other node has, in the dataset that
    [evaluate_division_events] returns, the attributes that the
    classification left. *)
Theorem evaluate_division_events_writes_on_errors_only (m : Matched)
    (max_frame_buffer : Z) (m' : Matched) (x : node) :
  evaluate_division_events m max_frame_buffer = Ok m' →
  ((x ∉ get_nodes_with_flag (gt_graph m') FN_DIV) →
   node_info (gt_graph m') x = node_info (gt_graph (_classify_divisions m)) x)
  ∧ ((x ∉ get_nodes_with_flag (pred_graph m') FP_DIV) →
     node_info (pred_graph m') x = node_info (pred_graph (_classify_divisions m)) x).
Proof.
  unfold evaluate_division_events. intros H.
  destruct (correct_passes_same_lineage _ _ _ H)
    as (_ & _ & _ & _ & _ & _ & _ & Fg & Fp).
  destruct (correct_passes_node_info _ _ _ x H) as [P1 P2].
  rewrite Fg, Fp. split; intros Hx.
  - rewrite P2 by done. revert Hx. unfold init_buffers, mark_nan. simpl.
    rewrite get_nodes_with_flag_foldl_nan. apply node_info_foldl_nan.
  - rewrite P1 by done. revert Hx. unfold init_buffers, mark_nan. simpl.
    rewrite get_nodes_with_flag_foldl_nan. apply node_info_foldl_nan.
Qed.

Lemma evaluate_division_events_writes_on_errors_only_witness :
  evaluate_division_events shifted_division 1
  = Ok (write_pair 1 shifted_ready (12, 1)%nat)
  ∧ node_info (gt_graph (write_pair 1 shifted_ready (12, 1)%nat)) 2
    = node_info (gt_graph (_classify_divisions shifted_division)) 2.
Proof.
  assert (H : evaluate_division_events shifted_division 1
              = Ok (write_pair 1 shifted_ready (12, 1)%nat)).
  { vm_compute. reflexivity. }
  split; [exact H|].
  apply (proj1 (evaluate_division_events_writes_on_errors_only _ _ _ 2%nat H)).
  by_evaluation.
Defined.

(** X18: when [evaluate_division_events] returns, every node that
    carries [FN_DIV] in the ground truth or [FP_DIV] in the prediction
    has a ["min_buffer_correct"] entry: [np.nan] or a buffer between 1
    and the maximal buffer. *)
Theorem evaluate_division_events_entries (m : Matched) (max_frame_buffer : Z)
    (m' : Matched) :
  evaluate_division_events m max_frame_buffer = Ok m' →
  (∀ fn, fn ∈ get_nodes_with_flag (gt_graph m') FN_DIV →
     buffer_of (gt_graph m') fn = Some NaN
     ∨ ∃ v, 1 ≤ v ≤ max_frame_buffer ∧ buffer_of (gt_graph m') fn = Some (Frames v))
  ∧ (∀ fp, fp ∈ get_nodes_with_flag (pred_graph m') FP_DIV →
       buffer_of (pred_graph m') fp = Some NaN
       ∨ ∃ v, 1 ≤ v ≤ max_frame_buffer
           ∧ buffer_of (pred_graph m') fp = Some (Frames v)).
Proof.
  unfold evaluate_division_events. intros H.
  destruct (correct_passes_same_lineage _ _ _ H)
    as (_ & _ & _ & _ & _ & _ & _ & Fg & Fp).
  rewrite Fg, Fp. split; intros x Hx.
  - destruct (correct_passes_forward _ _ _ x NaN H) as [_ P].
    destruct P as [?|(d & Hd%elem_of_buffer_range & ?)]; [|by left|right; eauto].
    revert Hx. unfold init_buffers, mark_nan. simpl.
    rewrite get_nodes_with_flag_foldl_nan, buffer_of_foldl_nan. intros Hx.
    rewrite decide_True by done.
    by destruct (get_nodes_with_flag_is_node _ _ _ Hx) as [i ->].
  - destruct (correct_passes_forward _ _ _ x NaN H) as [P _].
    destruct P as [?|(d & Hd%elem_of_buffer_range & ?)]; [|by left|right; eauto].
    revert Hx. unfold init_buffers, mark_nan. simpl.
    rewrite get_nodes_with_flag_foldl_nan, buffer_of_foldl_nan. intros Hx.
    rewrite decide_True by done.
    by destruct (get_nodes_with_flag_is_node _ _ _ Hx) as [i ->].
Qed.

Lemma evaluate_division_events_entries_witness :
  evaluate_division_events late_division 1
  = Ok (init_buffers (_classify_divisions late_division))
  ∧ (buffer_of (gt_graph (init_buffers (_classify_divisions late_division))) 1
     = Some NaN
     ∨ ∃ v, 1 ≤ v ≤ 1
         ∧ buffer_of (gt_graph (init_buffers (_classify_divisions late_division))) 1
           = Some (Frames v)).
Proof.
  assert (H : evaluate_division_events late_division 1
              = Ok (init_buffers (_classify_divisions late_division))).
  { vm_compute. reflexivity. }
  split; [exact H|].
  apply (proj1 (evaluate_division_events_entries _ _ _ H) 1%nat).
  by_evaluation.
Defined.

(** ** The shape of the result of [_match_nodes] *)

Section match_nodes_shape.
Context {F : Type} (fzero : F) (fdiv : Z → Z → F) (fge : F → F → bool)
  (get_labels_with_overlap : list nat → list nat → list nat * list nat).
Implicit Types (iou : list (list F)) (row : list F) (i j g p : nat)
  (gt res ogl orl indices : list nat) (t v : F) (gt_dtype res_dtype : int_dtype).

Lemma table_set_inv iou i j v iou' :
  table_set iou i j v = Ok iou' →
  is_Some (table_get iou i j)
  ∧ ∀ i' j', table_get iou' i' j'
             = if decide (i' = i ∧ j' = j) then Some v else table_get iou i' j'.
Proof.
  intros Hset.
  assert (Hs : is_Some (table_get iou i j)).
  { unfold table_set in Hset. unfold table_get.
    destruct (iou !! i) as [row|]; simpl; [|done].
    destruct (decide (j < length row)%nat); [|done].
    by apply lookup_lt_is_Some. }
  split; [done|].
  destruct (table_set_Ok iou i j v Hs) as (iou1 & E & Hget).
  rewrite E in Hset. by injection Hset as <-.
Qed.

Lemma fill_iou_inv gt res ogl orl indices iou iou' :
  fill_iou fdiv gt res ogl orl indices iou = Ok iou' →
  (∀ g p, is_Some (table_get iou' g p) ↔ is_Some (table_get iou g p))
  ∧ (∀ g p, (g, p) ∉ proposed ogl orl indices →
       table_get iou' g p = table_get iou g p).
Proof.
  clear fzero fge.
  revert iou. induction indices as [|i indices IH]; intros iou Hfill.
  - simpl in Hfill. injection Hfill as <-. done.
  - simpl in Hfill. unfold getitem in Hfill.
    destruct (ogl !! i) as [g0|] eqn:Hg0; simpl in Hfill; [|done].
    destruct (orl !! i) as [p0|] eqn:Hp0; simpl in Hfill; [|done].
    destruct (decide (length gt = length res)) as [Hlen|Hlen]; [|done].
    destruct (table_set iou g0 p0 _) as [iou1|e'] eqn:Hset; simpl in Hfill; [|done].
    destruct (IH _ Hfill) as [D1 D2].
    apply table_set_inv in Hset as [Hs Hget].
    rewrite (proposed_cons _ _ _ _ _ _ Hg0 Hp0). split.
    + intros g p. rewrite D1, Hget. by case_decide as Hd; [destruct Hd as [-> ->]|].
    + intros g p [Hne Hin]%not_elem_of_cons. rewrite D2, Hget by done.
      rewrite decide_False; [done|]. intros [-> ->]. done.
Qed.

Lemma proposed_zip ogl orl indices g p :
  (g, p) ∈ proposed ogl orl indices → (g, p) ∈ zip ogl orl.
Proof.
  unfold proposed. rewrite list_elem_of_bind. intros (i & Hi & _).
  destruct (ogl !! i) as [g'|] eqn:Hg; [|by apply elem_of_nil in Hi].
  destruct (orl !! i) as [p'|] eqn:Hp; [|by apply elem_of_nil in Hi].
  apply list_elem_of_singleton in Hi as [= -> ->].
  apply list_elem_of_lookup. exists i. apply lookup_zip_with_Some. eauto.
Qed.

Lemma row_where_sorted t (j0 : nat) row :
  StronglySorted lt (row_where fge t j0 row).
Proof.
  revert j0. induction row as [|x row IH]; intros j0; simpl; [constructor|].
  destruct (fge x t); [|done].
  apply StronglySorted_cons. split; [|done].
  apply list.Forall_forall. intros j Hj%elem_of_row_where. lia.
Qed.

Lemma table_where_sorted t (i0 : nat) iou :
  StronglySorted row_major (table_where fge t i0 iou).
Proof.
  revert i0. induction iou as [|row iou IH]; intros i0; simpl; [constructor|].
  apply StronglySorted_app. split_and!.
  - intros [i j] [i' j'] (j1 & [= -> ->] & _)%list_elem_of_fmap
      Hin%elem_of_table_where.
    left. simpl. lia.
  - apply (StronglySorted_fmap _ lt); [|apply row_where_sorted].
    intros j1 j2 Hlt. right. simpl. by split.
  - apply IH.
Qed.

(** The array of zeros, when [np.zeros] returns one. *)
Lemma np_zeros_Ok (r c : Z) iou :
  np_zeros fzero r c = Ok iou →
  0 ≤ r ∧ 0 ≤ c ∧ iou = replicate (Z.to_nat r) (replicate (Z.to_nat c) fzero).
Proof.
  unfold np_zeros. case_decide; [done|]. intros [= <-]. split_and!; [lia..|done].
Qed.

(** The run of [_match_nodes] that returns: the maxima, the array of
    zeros, the array when the loop is done and the result. *)
Lemma match_nodes_Ok gt_dtype res_dtype gt res t (gtcells rescells : list nat) :
  _match_nodes fzero fdiv fge get_labels_with_overlap gt_dtype res_dtype gt res t
  = Ok (gtcells, rescells) →
  ∃ max_gt max_res zeros iou,
    np_max gt = Ok max_gt ∧ np_max res = Ok max_res
    ∧ np_zeros fzero (wrap gt_dtype (Z.of_nat max_gt + 1))
        (wrap res_dtype (Z.of_nat max_res + 1)) = Ok zeros
    ∧ fill_iou fdiv gt res (get_labels_with_overlap gt res).1
        (get_labels_with_overlap gt res).2
        (seq 0 (length (get_labels_with_overlap gt res).1)) zeros = Ok iou
    ∧ gtcells = (table_where fge t 0 iou).*1
    ∧ rescells = (table_where fge t 0 iou).*2.
Proof.
  unfold _match_nodes, iou_array.
  destruct (np_max gt) as [mg|]; simpl; [|done].
  destruct (np_max res) as [mr|]; simpl; [|done].
  destruct (np_zeros _ _ _) as [zeros|] eqn:Hzeros; simpl; [|done].
  destruct (fill_iou _ _ _ _ _ _ _) as [iou|] eqn:Hfill; simpl; [|done].
  intros [= <- <-]. by exists mg, mr, zeros, iou.
Qed.
End match_nodes_shape.

Section match_nodes_shape_theorems.
Context {F : Type} (fzero : F) (fdiv : Z → Z → F) (fge : F → F → bool)
  (get_labels_with_overlap : list nat → list nat → list nat * list nat).

(** X19: the result of [_match_nodes], whenever it returns, is a pair
    of parallel sequences of the same length whose label pairs are in
    row-major order, hence pairwise different, and every returned label
    is at most the largest label of its frame. *)
Theorem match_nodes_row_major (gt_dtype res_dtype : int_dtype) (gt res : list nat)
    (threshold : F) (gtcells rescells : list nat) :
  _match_nodes fzero fdiv fge get_labels_with_overlap gt_dtype res_dtype gt res threshold
  = Ok (gtcells, rescells) →
  length gtcells = length rescells
  ∧ StronglySorted row_major (zip gtcells rescells)
  ∧ ∃ max_gt max_res,
      np_max gt = Ok max_gt ∧ np_max res = Ok max_res
      ∧ ∀ g p, (g, p) ∈ zip gtcells rescells → (g ≤ max_gt)%nat ∧ (p ≤ max_res)%nat.
Proof.
  intros (mg & mr & zeros & iou & Hmg & Hmr & Hzeros & Hfill & -> & ->)%match_nodes_Ok.
  split; [by rewrite !length_fmap|].
  rewrite zip_fst_snd. split; [apply table_where_sorted|].
  exists mg, mr. split_and!; [done..|].
  intros g p (_ & x & Hx & _)%elem_of_table_where.
  rewrite Nat.sub_0_r in Hx.
  destruct (fill_iou_inv fdiv _ _ _ _ _ _ _ Hfill) as [Hdims _].
  assert (Hs : is_Some (table_get zeros g p)).
  { apply Hdims. eauto. }
  apply np_zeros_Ok in Hzeros as (Hr & Hc & ->).
  rewrite table_get_zeros in Hs.
  pose proof (wrap_le gt_dtype (Z.of_nat mg + 1)).
  pose proof (wrap_le res_dtype (Z.of_nat mr + 1)).
  case_decide; [lia|by destruct Hs].
Qed.

(** X20: a threshold that the IoU zero passes matches label pairs that
    do not overlap.  When [_match_nodes] returns and the largest label
    of each frame is below the largest value of the integer type of the
    frame, so that the array has a row and a column for every label up
    to the largest ones, every pair of a ground-truth label and a
    predicted label, up to the largest labels of the frames, that the
    candidate finder did not propose is among the returned pairs. *)
Theorem match_nodes_threshold_zero (gt_dtype res_dtype : int_dtype)
    (gt res : list nat) (threshold : F)
    (gtcells rescells : list nat) (max_gt max_res g p : nat) :
  fge fzero threshold = true →
  _match_nodes fzero fdiv fge get_labels_with_overlap gt_dtype res_dtype gt res threshold
  = Ok (gtcells, rescells) →
  np_max gt = Ok max_gt → np_max res = Ok max_res →
  Z.of_nat max_gt < dtype_max gt_dtype → Z.of_nat max_res < dtype_max res_dtype →
  (g ≤ max_gt)%nat → (p ≤ max_res)%nat →
  (g, p) ∉ zip (get_labels_with_overlap gt res).1 (get_labels_with_overlap gt res).2 →
  (g, p) ∈ zip gtcells rescells.
Proof.
  intros Hzero
    (mg & mr & zeros & iou & Hmg & Hmr & Hzeros & Hfill & -> & ->)%match_nodes_Ok
    Hmg' Hmr' Hfit_gt Hfit_res Hg Hp Hnot.
  rewrite Hmg in Hmg'. rewrite Hmr in Hmr'.
  injection Hmg' as ->. injection Hmr' as ->.
  rewrite !wrap_id in Hzeros by lia.
  apply np_zeros_Ok in Hzeros as (_ & _ & ->).
  rewrite zip_fst_snd. apply elem_of_table_where. split; [lia|].
  exists fzero. split; [|done]. rewrite Nat.sub_0_r.
  destruct (fill_iou_inv fdiv _ _ _ _ _ _ _ Hfill) as [_ Hother].
  rewrite Hother by (by intros ?%proposed_zip).
  rewrite table_get_zeros, decide_True; [done|lia].
Qed.
End match_nodes_shape_theorems.

Lemma match_nodes_row_major_witness :
  _match_nodes fraction_zero fraction_div fraction_ge shared_labels
               uint8 uint8 frame_a frame_b (3, 5) = Ok ([1; 2]%nat, [1; 2]%nat)
  ∧ StronglySorted row_major (zip [1; 2]%nat [1; 2]%nat).
Proof.
  assert (H : _match_nodes fraction_zero fraction_div fraction_ge shared_labels
                uint8 uint8 frame_a frame_b (3, 5) = Ok ([1; 2]%nat, [1; 2]%nat)).
  { vm_compute. reflexivity. }
  split; [exact H|].
  exact (proj1 (proj2 (match_nodes_row_major _ _ _ _ _ _ _ _ _ _ _ H))).
Defined.

Lemma match_nodes_threshold_zero_witness :
  fraction_ge fraction_zero (0, 1) = true
  ∧ ((1%nat, 2%nat) ∉ zip (shared_labels frame_a frame_b).1
                          (shared_labels frame_a frame_b).2)
  ∧ _match_nodes fraction_zero fraction_div fraction_ge shared_labels
                 uint8 uint8 frame_a frame_b (0, 1)
    = Ok ([0; 0; 0; 1; 1; 1; 2; 2; 2]%nat, [0; 1; 2; 0; 1; 2; 0; 1; 2]%nat)
  ∧ (1%nat, 2%nat) ∈ zip [0; 0; 0; 1; 1; 1; 2; 2; 2]%nat [0; 1; 2; 0; 1; 2; 0; 1; 2]%nat.
Proof.
  assert (H0 : fraction_ge fraction_zero (0, 1) = true) by reflexivity.
  assert (H1 : (1%nat, 2%nat) ∉ zip (shared_labels frame_a frame_b).1
                                    (shared_labels frame_a frame_b).2).
  { by_evaluation. }
  assert (H2 : _match_nodes fraction_zero fraction_div fraction_ge shared_labels
                 uint8 uint8 frame_a frame_b (0, 1)
               = Ok ([0; 0; 0; 1; 1; 1; 2; 2; 2]%nat,
                     [0; 1; 2; 0; 1; 2; 0; 1; 2]%nat)).
  { vm_compute. reflexivity. }
  split; [exact H0|]. split; [exact H1|]. split; [exact H2|].
  refine (match_nodes_threshold_zero fraction_zero fraction_div fraction_ge
            shared_labels uint8 uint8 frame_a frame_b (0, 1) _ _ 2 2 1 2
            H0 H2 _ _ _ _ _ _ H1).
  - reflexivity.
  - reflexivity.
  - reflexivity.
  - reflexivity.
  - lia.
  - lia.
Defined.

(** ** The mapping of [match_iou] *)

Section match_iou_facts.
Context {F : Type} (fzero : F) (fdiv : Z → Z → F) (fge : F → F → bool)
  (get_labels_with_overlap : list nat → list nat → list nat * list nat)
  (get_nodes_in_frame : TrackingGraph → Z → list node)
  (get_nodes_with_attribute : TrackingGraph → (nat → bool) → list node → list node).
Implicit Types (gt pred : TrackingGraph) (sg sp : Segmentation) (t : Z)
  (ids : list (nat * nat)) (mapper r : list (node * node)) (a b : node)
  (its : list (nat * Z)) (threshold : F).

(** The pairs that the loop over the matches of one frame appends: for
    each match, the nodes that the two lookups find. *)
Lemma append_matches_Ok gt pred t ids mapper r :
  append_matches get_nodes_in_frame get_nodes_with_attribute gt pred t ids mapper
  = Ok r →
  ∃ new, r = mapper ++ new
    ∧ Forall2 (λ (id : nat * nat) (pr : node * node),
         looked_up get_nodes_in_frame get_nodes_with_attribute gt t id.1 = Some pr.1
         ∧ looked_up get_nodes_in_frame get_nodes_with_attribute pred t id.2 = Some pr.2)
        ids new.
Proof.
  revert mapper. induction ids as [|[gt_id pred_id] ids IH]; intros mapper; simpl.
  - intros [= <-]. exists []. split; [by rewrite app_nil_r|constructor].
  - unfold getitem at 1 2.
    fold (looked_up get_nodes_in_frame get_nodes_with_attribute gt t gt_id).
    fold (looked_up get_nodes_in_frame get_nodes_with_attribute pred t pred_id).
    destruct (looked_up _ _ gt t gt_id) as [a|] eqn:Ha; simpl; [|done].
    destruct (looked_up _ _ pred t pred_id) as [b|] eqn:Hb; simpl; [|done].
    intros (new & -> & Hnew)%IH.
    exists ((a, b) :: new). split; [by rewrite <- app_assoc|].
    by constructor.
Qed.

Lemma match_nodes_nonempty (dg dp : int_dtype) (fg fp : list nat) threshold
    (r0 : list nat * list nat) :
  _match_nodes fzero fdiv fge get_labels_with_overlap dg dp fg fp threshold = Ok r0 →
  fg ≠ [] ∧ fp ≠ [].
Proof.
  unfold _match_nodes, iou_array.
  destruct fg as [|x fg]; [done|]. destruct fp as [|y fp]; [done|]. done.
Qed.

(** The pairs that the loop over the frames appends, and the frames it
    reads. *)
Lemma match_frames_Ok gt pred sg sp threshold its mapper r :
  match_frames fzero fdiv fge get_labels_with_overlap
    get_nodes_in_frame get_nodes_with_attribute gt pred sg sp threshold its mapper
  = Ok r →
  ∃ new, r = mapper ++ new
    ∧ (∀ a b, (a, b) ∈ new →
         ∃ i t fg fp gtcells rescells gt_id pred_id,
           (i, t) ∈ its
           ∧ frames sg !! i = Some fg ∧ frames sp !! i = Some fp
           ∧ _match_nodes fzero fdiv fge get_labels_with_overlap
               (dtype sg) (dtype sp) fg fp threshold
             = Ok (gtcells, rescells)
           ∧ (gt_id, pred_id) ∈ zip gtcells rescells
           ∧ looked_up get_nodes_in_frame get_nodes_with_attribute gt t gt_id = Some a
           ∧ looked_up get_nodes_in_frame get_nodes_with_attribute pred t pred_id = Some b)
    ∧ (∀ i t, (i, t) ∈ its →
         ∃ fg fp, frames sg !! i = Some fg ∧ frames sp !! i = Some fp
           ∧ fg ≠ [] ∧ fp ≠ []).
Proof.
  revert mapper. induction its as [|[i t] its IH]; intros mapper; simpl.
  - intros [= <-]. exists []. split; [by rewrite app_nil_r|].
    split; [by intros ? ? ?%elem_of_nil|by intros ? ? ?%elem_of_nil].
  - unfold getitem at 1 2.
    destruct (frames sg !! i) as [fg|] eqn:Hfg; simpl; [|done].
    destruct (frames sp !! i) as [fp|] eqn:Hfp; simpl; [|done].
    destruct (_match_nodes _ _ _ _ _ _ fg fp threshold) as [[gtcells rescells]|] eqn:Hm;
      simpl; [|done].
    destruct (append_matches _ _ gt pred t (zip gtcells rescells) mapper)
      as [mapper'|] eqn:Happ; simpl; [|done].
    apply append_matches_Ok in Happ as (new1 & -> & Hnew1).
    intros (new2 & -> & Hnew2 & Hframes)%IH.
    exists (new1 ++ new2). split; [by rewrite app_assoc|]. split.
    + intros a b [Hin|Hin]%elem_of_app.
      * apply list_elem_of_lookup in Hin as [j Hj].
        destruct (Forall2_lookup_r _ _ _ _ _ Hnew1 Hj)
          as ([gt_id pred_id] & Hid & Ha & Hb).
        simpl in Ha, Hb.
        exists i, t, fg, fp, gtcells, rescells, gt_id, pred_id.
        split_and!; try done; [by left|].
        apply list_elem_of_lookup. eauto.
      * destruct (Hnew2 a b Hin)
          as (i' & t' & fg' & fp' & gc & rc & gt_id & pred_id & ? & ?).
        exists i', t', fg', fp', gc, rc, gt_id, pred_id. split; [by right|done].
    + intros i' t' [[= -> ->]|Hin]%elem_of_cons.
      * exists fg, fp. destruct (match_nodes_nonempty _ _ _ _ _ _ Hm). done.
      * by apply (Hframes i' t').
Qed.

Lemma elem_of_enumerate_frame_range gt (i : nat) t :
  (i, t) ∈ enumerate_frame_range gt ↔
  (i < Z.to_nat (end_frame gt - start_frame gt))%nat ∧ t = start_frame gt + Z.of_nat i.
Proof.
  unfold enumerate_frame_range. rewrite list_elem_of_fmap. split.
  - intros (j & [= -> ->] & Hj%elem_of_seq). split; [lia|done].
  - intros [Hi ->]. exists i. split; [done|]. apply elem_of_seq. lia.
Qed.

(** A call of [match_iou] that returns. *)
Lemma match_iou_Ok (gt_data pred_data : py_object) threshold mapper :
  match_iou fzero fdiv fge get_labels_with_overlap
    get_nodes_in_frame get_nodes_with_attribute gt_data pred_data threshold
  = Ok mapper →
  ∃ gt pred sg sp,
    gt_data = a_tracking_graph gt ∧ pred_data = a_tracking_graph pred
    ∧ segmentation gt = Some sg ∧ segmentation pred = Some sp
    ∧ shape sg = shape sp
    ∧ match_frames fzero fdiv fge get_labels_with_overlap
        get_nodes_in_frame get_nodes_with_attribute gt pred sg sp threshold
        (enumerate_frame_range gt) [] = Ok mapper.
Proof.
  unfold match_iou.
  destruct gt_data as [gt|]; [|done]. destruct pred_data as [pred|]; [|done].
  destruct (segmentation gt) as [sg|] eqn:Hsg; [|done].
  destruct (segmentation pred) as [sp|] eqn:Hsp; [|done].
  destruct (decide (shape sg ≠ shape sp)) as [Hne|Heq]; [done|].
  intros H. exists gt, pred, sg, sp. split_and!; try done.
  by destruct (decide (shape sg = shape sp)).
Qed.
End match_iou_facts.

Section match_iou_theorems.
Context {F : Type} (fzero : F) (fdiv : Z → Z → F) (fge : F → F → bool)
  (get_labels_with_overlap : list nat → list nat → list nat * list nat)
  (get_nodes_in_frame : TrackingGraph → Z → list node)
  (get_nodes_with_attribute : TrackingGraph → (nat → bool) → list node → list node).

(** X21: every pair of the mapping that [match_iou] returns comes
    from a match of one frame.  There are an index of the frame range
    of the ground truth and a label pair that [_match_nodes] matched on
    the two segmentations at that index, such that the pair joins the
    first node that the lookup on the ground truth returns for the
    first label and the first node that the lookup on the prediction
    returns for the second label, both lookups being made for the same
    frame number: the start frame of the ground truth plus the
    index. *)
Theorem match_iou_pairs_from_matches (gt pred : TrackingGraph) (threshold : F)
    (mapper : list (node * node)) (a b : node) :
  match_iou fzero fdiv fge get_labels_with_overlap
    get_nodes_in_frame get_nodes_with_attribute
    (a_tracking_graph gt) (a_tracking_graph pred) threshold = Ok mapper →
  (a, b) ∈ mapper →
  ∃ (i : nat) sg sp fg fp gtcells rescells gt_id pred_id,
    segmentation gt = Some sg ∧ segmentation pred = Some sp
    ∧ (i < Z.to_nat (end_frame gt - start_frame gt))%nat
    ∧ frames sg !! i = Some fg ∧ frames sp !! i = Some fp
    ∧ _match_nodes fzero fdiv fge get_labels_with_overlap
        (dtype sg) (dtype sp) fg fp threshold
      = Ok (gtcells, rescells)
    ∧ (gt_id, pred_id) ∈ zip gtcells rescells
    ∧ looked_up get_nodes_in_frame get_nodes_with_attribute
        gt (start_frame gt + Z.of_nat i) gt_id = Some a
    ∧ looked_up get_nodes_in_frame get_nodes_with_attribute
        pred (start_frame gt + Z.of_nat i) pred_id = Some b.
Proof.
  intros (gt' & pred' & sg & sp & [= <-] & [= <-] & Hsg & Hsp & _ & Hrun)%match_iou_Ok
    Hin.
  apply match_frames_Ok in Hrun as (new & -> & Hnew & _).
  destruct (Hnew a b Hin)
    as (i & t & fg & fp & gc & rc & gt_id & pred_id
        & [Hi ->]%elem_of_enumerate_frame_range & ? & ? & ? & ? & ? & ?).
  exists i, sg, sp, fg, fp, gc, rc, gt_id, pred_id.
  split_and!; done.
Qed.

(** X22: a call of [match_iou] that returns was given two tracking
    graphs whose segmentations have the same shape and hold, for every
    index of the frame range of the ground truth, a frame with at least
    one element; the frame range of the prediction is not read. *)
Theorem match_iou_returns_on_valid_input (gt_data pred_data : py_object)
    (threshold : F) (mapper : list (node * node)) :
  match_iou fzero fdiv fge get_labels_with_overlap
    get_nodes_in_frame get_nodes_with_attribute gt_data pred_data threshold
  = Ok mapper →
  ∃ gt pred sg sp,
    gt_data = a_tracking_graph gt ∧ pred_data = a_tracking_graph pred
    ∧ segmentation gt = Some sg ∧ segmentation pred = Some sp
    ∧ shape sg = shape sp
    ∧ ∀ i : nat, (i < Z.to_nat (end_frame gt - start_frame gt))%nat →
        ∃ fg fp, frames sg !! i = Some fg ∧ frames sp !! i = Some fp
          ∧ fg ≠ [] ∧ fp ≠ [].
Proof.
  intros (gt & pred & sg & sp & -> & -> & Hsg & Hsp & Hshape & Hrun)%match_iou_Ok.
  exists gt, pred, sg, sp. split_and!; try done.
  apply match_frames_Ok in Hrun as (new & _ & _ & Hframes).
  intros i Hi. apply (Hframes i (start_frame gt + Z.of_nat i)).
  by apply elem_of_enumerate_frame_range.
Qed.

(** X23: [_compute_mapping] returns exactly when [match_iou] does, and
    then the dataset holds the two input graphs and the mapping of
    [match_iou]: the checks of [_compute_mapping] reject no input that
    [match_iou] accepts. *)
Theorem compute_mapping_returns_match_iou (iou_threshold : F)
    (gt_data pred_data : py_object) (m : Matched) :
  _compute_mapping fzero fdiv fge get_labels_with_overlap
    get_nodes_in_frame get_nodes_with_attribute iou_threshold gt_data pred_data
  = Ok m
  ↔ gt_data = a_tracking_graph (gt_graph m)
    ∧ pred_data = a_tracking_graph (pred_graph m)
    ∧ match_iou fzero fdiv fge get_labels_with_overlap
        get_nodes_in_frame get_nodes_with_attribute gt_data pred_data iou_threshold
      = Ok (mapping m).
Proof.
  split.
  - unfold _compute_mapping.
    destruct (get_segmentation gt_data) as [[sg|]|]; simpl; [|done..].
    destruct (get_segmentation pred_data) as [[sp|]|]; simpl; [|done..].
    destruct (match_iou _ _ _ _ _ _ gt_data pred_data iou_threshold) as [mapper|] eqn:E;
      simpl; [|done].
    destruct gt_data as [gt|]; [|done]. destruct pred_data as [pred|]; [|done].
    by intros [= <-].
  - intros (Hg & Hp & Hrun). pose proof Hrun as Hrun'.
    apply match_iou_Ok in Hrun'
      as (gt & pred & sg & sp & -> & -> & Hsg & Hsp & _ & _).
    injection Hg as ->. injection Hp as ->.
    unfold _compute_mapping. simpl. rewrite Hsg, Hsp. simpl.
    unfold match_iou in Hrun. rewrite Hsg, Hsp in Hrun.
    rewrite Hrun. simpl. by destruct m.
Qed.
End match_iou_theorems.

Lemma match_iou_pairs_from_matches_witness :
  match_iou fraction_zero fraction_div fraction_ge shared_labels
    nodes_in_frame nodes_with_attribute
    (a_tracking_graph segmented_gt) (a_tracking_graph segmented_pred) (3, 5)
  = Ok [(1, 11); (2, 12)]%nat
  ∧ ∃ (i : nat) gt_id pred_id,
      looked_up nodes_in_frame nodes_with_attribute
        segmented_gt (start_frame segmented_gt + Z.of_nat i) gt_id = Some 2%nat
      ∧ looked_up nodes_in_frame nodes_with_attribute
          segmented_pred (start_frame segmented_gt + Z.of_nat i) pred_id = Some 12%nat.
Proof.
  assert (H : match_iou fraction_zero fraction_div fraction_ge shared_labels
                nodes_in_frame nodes_with_attribute
                (a_tracking_graph segmented_gt) (a_tracking_graph segmented_pred) (3, 5)
              = Ok [(1, 11); (2, 12)]%nat).
  { vm_compute. reflexivity. }
  split; [exact H|].
  destruct (match_iou_pairs_from_matches _ _ _ _ _ _ _ _ _ _ 2%nat 12%nat H)
    as (i & sg & sp & fg & fp & gc & rc & gt_id & pred_id & _ & _ & _ & _ & _ & _
        & _ & H1 & H2).
  - by_evaluation.
  - exists i, gt_id, pred_id. split; [exact H1|exact H2].
Defined.

Lemma match_iou_returns_on_valid_input_witness :
  match_iou fraction_zero fraction_div fraction_ge shared_labels
    nodes_in_frame nodes_with_attribute
    (a_tracking_graph segmented_gt) (a_tracking_graph segmented_pred) (3, 5)
  = Ok [(1, 11); (2, 12)]%nat
  ∧ ∃ gt pred sg sp,
      a_tracking_graph segmented_gt = a_tracking_graph gt
      ∧ a_tracking_graph segmented_pred = a_tracking_graph pred
      ∧ segmentation gt = Some sg ∧ segmentation pred = Some sp
      ∧ shape sg = shape sp.
Proof.
  assert (H : match_iou fraction_zero fraction_div fraction_ge shared_labels
                nodes_in_frame nodes_with_attribute
                (a_tracking_graph segmented_gt) (a_tracking_graph segmented_pred) (3, 5)
              = Ok [(1, 11); (2, 12)]%nat).
  { vm_compute. reflexivity. }
  split; [exact H|].
  destruct (match_iou_returns_on_valid_input _ _ _ _ _ _ _ _ _ _ H)
    as (gt & pred & sg & sp & H1 & H2 & H3 & H4 & H5 & _).
  exists gt, pred, sg, sp. split_and!; assumption.
Defined.

(** ** The recorded buffer and the frames of the two divisions *)

Lemma reconcilable_frames (n : Z) (m : Matched) (fp fn : node) :
  reconcilable n m fp fn = true ↔
  ∃ t_fp t_fn,
    frame_of (pred_graph m) fp = Some t_fp ∧ frame_of (gt_graph m) fn = Some t_fn
    ∧ 1 ≤ Z.abs (t_fp - t_fn) ≤ n
    ∧ lineages_match m fp fn t_fp t_fn = Ok true.
Proof.
  unfold reconcilable.
  destruct (frame_of (pred_graph m) fp) as [t_fp|]; [|naive_solver].
  destruct (frame_of (gt_graph m) fn) as [t_fn|]; [|naive_solver].
  rewrite andb_true_iff, negb_true_iff, orb_false_iff, !bool_decide_eq_false.
  split.
  - intros [[H1 H2] Hl]. exists t_fp, t_fn. split_and!; [done..|lia|lia|].
    by destruct (lineages_match m fp fn t_fp t_fn) as [[|]|].
  - intros (t1 & t2 & [= <-] & [= <-] & Hd & ->). split; [|done]. split; lia.
Qed.

(** X24: a recorded buffer is the distance in frames between the two
    divisions it reconciles.  When [evaluate_division_events] returns
    and an FP division carries the buffer [v], an FN division carries
    [v] as well and lies exactly [v] frames before or after it; the same
    holds for a buffer found on an FN division. *)
Theorem min_buffer_correct_is_frame_distance (m : Matched) (max_frame_buffer : Z)
    (m' : Matched) :
  evaluate_division_events m max_frame_buffer = Ok m' →
  (∀ fp v, fp ∈ get_nodes_with_flag (pred_graph m') FP_DIV →
     buffer_of (pred_graph m') fp = Some (Frames v) →
     ∃ fn t_fp t_fn,
       fn ∈ get_nodes_with_flag (gt_graph m') FN_DIV
       ∧ buffer_of (gt_graph m') fn = Some (Frames v)
       ∧ frame_of (pred_graph m') fp = Some t_fp
       ∧ frame_of (gt_graph m') fn = Some t_fn
       ∧ v = Z.abs (t_fp - t_fn))
  ∧ (∀ fn v, fn ∈ get_nodes_with_flag (gt_graph m') FN_DIV →
       buffer_of (gt_graph m') fn = Some (Frames v) →
       ∃ fp t_fp t_fn,
         fp ∈ get_nodes_with_flag (pred_graph m') FP_DIV
         ∧ buffer_of (pred_graph m') fp = Some (Frames v)
         ∧ frame_of (pred_graph m') fp = Some t_fp
         ∧ frame_of (gt_graph m') fn = Some t_fn
         ∧ v = Z.abs (t_fp - t_fn)).
Proof.
  unfold evaluate_division_events.
  set (m0 := init_buffers (_classify_divisions m)). intros Hrun.
  pose proof (correct_passes_same_lineage _ _ _ Hrun) as Hs.
  pose proof Hs as (_ & _ & _ & Tg & Tp & _ & _ & Fg & Fp).
  destruct (init_buffers_unresolved (_classify_divisions m)) as [U1 U2].
  rewrite buffer_range_to_nat in Hrun.
  destruct (passes_invariant m0 _ m' U1 U2 Hrun) as (A1 & A2 & _).
  assert (Hdist : ∀ fp fn v,
    reconcilable v m0 fp fn = true →
    (∀ n, reconcilable n m0 fp fn = true → v ≤ n) →
    ∃ t_fp t_fn, frame_of (pred_graph m') fp = Some t_fp
      ∧ frame_of (gt_graph m') fn = Some t_fn ∧ v = Z.abs (t_fp - t_fn)).
  { intros fp fn v Hr Hmin.
    apply reconcilable_frames in Hr as (t_fp & t_fn & H1 & H2 & Hd & Hl).
    exists t_fp, t_fn. rewrite Tg, Tp. split_and!; [done..|].
    assert (v ≤ Z.abs (t_fp - t_fn)); [|lia].
    apply Hmin. apply reconcilable_frames. exists t_fp, t_fn.
    split_and!; [done..|lia|lia|done]. }
  split.
  - intros fp v Hfp Hb. rewrite Fp in Hfp.
    destruct (A1 fp v Hfp Hb) as (_ & fn & Hfn & Hbn & Hr & Hmin).
    destruct (Hdist fp fn v Hr Hmin) as (t_fp & t_fn & ? & ? & ?).
    exists fn, t_fp, t_fn. rewrite Fg. done.
  - intros fn v Hfn Hb. rewrite Fg in Hfn.
    destruct (A2 fn v Hfn Hb) as (_ & fp & Hfp & Hbp & Hr & Hmin).
    destruct (Hdist fp fn v Hr Hmin) as (t_fp & t_fn & ? & ? & ?).
    exists fp, t_fp, t_fn. rewrite Fp. done.
Qed.

Lemma min_buffer_correct_is_frame_distance_witness :
  evaluate_division_events shifted_division 1
  = Ok (write_pair 1 shifted_ready (12, 1)%nat)
  ∧ ∃ fn t_fp t_fn,
      buffer_of (gt_graph (write_pair 1 shifted_ready (12, 1)%nat)) fn
      = Some (Frames 1)
      ∧ frame_of (pred_graph (write_pair 1 shifted_ready (12, 1)%nat)) 12 = Some t_fp
      ∧ frame_of (gt_graph (write_pair 1 shifted_ready (12, 1)%nat)) fn = Some t_fn
      ∧ 1 = Z.abs (t_fp - t_fn).
Proof.
  assert (H : evaluate_division_events shifted_division 1
              = Ok (write_pair 1 shifted_ready (12, 1)%nat)).
  { vm_compute. reflexivity. }
  split; [exact H|].
  destruct (proj1 (min_buffer_correct_is_frame_distance _ _ _ H) 12%nat 1)
    as (fn & t_fp & t_fn & _ & H1 & H2 & H3 & H4).
  - by_evaluation.
  - reflexivity.
  - exists fn, t_fp, t_fn. split_and!; assumption.
Defined.

(** ** No match is dropped *)

Section match_iou_complete.
Context {F : Type} (fzero : F) (fdiv : Z → Z → F) (fge : F → F → bool)
  (get_labels_with_overlap : list nat → list nat → list nat * list nat)
  (get_nodes_in_frame : TrackingGraph → Z → list node)
  (get_nodes_with_attribute : TrackingGraph → (nat → bool) → list node → list node).
Implicit Types (gt pred : TrackingGraph) (sg sp : Segmentation) (t : Z)
  (ids : list (nat * nat)) (mapper r : list (node * node)) (a b : node)
  (its : list (nat * Z)) (threshold : F).

Lemma match_frames_complete gt pred sg sp threshold its mapper r
    (i : nat) t (fg fp gtcells rescells : list nat) (gt_id pred_id : nat) :
  match_frames fzero fdiv fge get_labels_with_overlap
    get_nodes_in_frame get_nodes_with_attribute gt pred sg sp threshold its mapper
  = Ok r →
  (i, t) ∈ its →
  frames sg !! i = Some fg → frames sp !! i = Some fp →
  _match_nodes fzero fdiv fge get_labels_with_overlap (dtype sg) (dtype sp)
    fg fp threshold
  = Ok (gtcells, rescells) →
  (gt_id, pred_id) ∈ zip gtcells rescells →
  ∃ a b,
    (a, b) ∈ r
    ∧ looked_up get_nodes_in_frame get_nodes_with_attribute gt t gt_id = Some a
    ∧ looked_up get_nodes_in_frame get_nodes_with_attribute pred t pred_id = Some b.
Proof.
  revert mapper. induction its as [|[i0 t0] its IH]; intros mapper Hrun Hin Hfg Hfp Hm Hid.
  { by apply elem_of_nil in Hin. }
  simpl in Hrun. unfold getitem at 1 2 in Hrun.
  destruct (frames sg !! i0) as [fg0|] eqn:Hfg0; simpl in Hrun; [|done].
  destruct (frames sp !! i0) as [fp0|] eqn:Hfp0; simpl in Hrun; [|done].
  destruct (_match_nodes _ _ _ _ _ _ fg0 fp0 threshold) as [[gc0 rc0]|] eqn:Hm0;
    simpl in Hrun; [|done].
  destruct (append_matches _ _ gt pred t0 (zip gc0 rc0) mapper)
    as [mapper'|] eqn:Happ; simpl in Hrun; [|done].
  apply elem_of_cons in Hin as [[= -> ->]|Hin].
  - rewrite Hfg in Hfg0. rewrite Hfp in Hfp0.
    injection Hfg0 as <-. injection Hfp0 as <-.
    rewrite Hm in Hm0. injection Hm0 as <- <-.
    apply append_matches_Ok in Happ as (new1 & -> & Hnew1).
    apply match_frames_Ok in Hrun as (new2 & -> & _).
    apply list_elem_of_lookup in Hid as [j Hj].
    destruct (Forall2_lookup_l _ _ _ _ _ Hnew1 Hj) as ([a b] & Hab & Ha & Hb).
    exists a, b. split_and!; try done.
    apply elem_of_app. left. apply elem_of_app. right.
    apply list_elem_of_lookup. eauto.
  - by apply (IH mapper').
Qed.
End match_iou_complete.

Section match_iou_complete_theorem.
Context {F : Type} (fzero : F) (fdiv : Z → Z → F) (fge : F → F → bool)
  (get_labels_with_overlap : list nat → list nat → list nat * list nat)
  (get_nodes_in_frame : TrackingGraph → Z → list node)
  (get_nodes_with_attribute : TrackingGraph → (nat → bool) → list node → list node).

(** X25: no match is dropped.  When [match_iou] returns, every label
    pair that [_match_nodes] matches on the segmentations at an index
    of the frame range has a pair in the mapping: the first node that
    the lookup on the ground truth returns for the first label and the
    first node that the lookup on the prediction returns for the second
    label, both lookups being made for the start frame of the ground
    truth plus the index. *)
Theorem match_iou_keeps_every_match (gt pred : TrackingGraph) (threshold : F)
    (mapper : list (node * node)) (i : nat) (sg sp : Segmentation)
    (fg fp gtcells rescells : list nat) (gt_id pred_id : nat) :
  match_iou fzero fdiv fge get_labels_with_overlap
    get_nodes_in_frame get_nodes_with_attribute
    (a_tracking_graph gt) (a_tracking_graph pred) threshold = Ok mapper →
  (i < Z.to_nat (end_frame gt - start_frame gt))%nat →
  segmentation gt = Some sg → segmentation pred = Some sp →
  frames sg !! i = Some fg → frames sp !! i = Some fp →
  _match_nodes fzero fdiv fge get_labels_with_overlap (dtype sg) (dtype sp)
    fg fp threshold
  = Ok (gtcells, rescells) →
  (gt_id, pred_id) ∈ zip gtcells rescells →
  ∃ a b,
    (a, b) ∈ mapper
    ∧ looked_up get_nodes_in_frame get_nodes_with_attribute
        gt (start_frame gt + Z.of_nat i) gt_id = Some a
    ∧ looked_up get_nodes_in_frame get_nodes_with_attribute
        pred (start_frame gt + Z.of_nat i) pred_id = Some b.
Proof.
  intros (gt' & pred' & sg' & sp' & [= <-] & [= <-] & Hsg & Hsp & _ & Hrun)%match_iou_Ok
    Hi Hsg' Hsp' Hfg Hfp Hm Hid.
  rewrite Hsg in Hsg'. rewrite Hsp in Hsp'.
  injection Hsg' as ->. injection Hsp' as ->.
  apply (match_frames_complete _ _ _ _ _ _ _ _ _ _ _ _ _ _
           i (start_frame gt + Z.of_nat i) fg fp gtcells rescells gt_id pred_id Hrun);
    try done.
  by apply elem_of_enumerate_frame_range.
Qed.
End match_iou_complete_theorem.

Lemma match_iou_keeps_every_match_witness :
  match_iou fraction_zero fraction_div fraction_ge shared_labels
    nodes_in_frame nodes_with_attribute
    (a_tracking_graph segmented_gt) (a_tracking_graph segmented_pred) (3, 5)
  = Ok [(1, 11); (2, 12)]%nat
  ∧ _match_nodes fraction_zero fraction_div fraction_ge shared_labels
      uint8 uint8 frame_a frame_b (3, 5) = Ok ([1; 2]%nat, [1; 2]%nat)
  ∧ ∃ a b,
      (a, b) ∈ [(1, 11); (2, 12)]%nat
      ∧ looked_up nodes_in_frame nodes_with_attribute
          segmented_gt (start_frame segmented_gt + Z.of_nat 0) 2 = Some a
      ∧ looked_up nodes_in_frame nodes_with_attribute
          segmented_pred (start_frame segmented_gt + Z.of_nat 0) 2 = Some b.
Proof.
  assert (H : match_iou fraction_zero fraction_div fraction_ge shared_labels
                nodes_in_frame nodes_with_attribute
                (a_tracking_graph segmented_gt) (a_tracking_graph segmented_pred) (3, 5)
              = Ok [(1, 11); (2, 12)]%nat).
  { vm_compute. reflexivity. }
  assert (Hm : _match_nodes fraction_zero fraction_div fraction_ge shared_labels
                 uint8 uint8 frame_a frame_b (3, 5) = Ok ([1; 2]%nat, [1; 2]%nat)).
  { vm_compute. reflexivity. }
  split; [exact H|]. split; [exact Hm|].
  refine (match_iou_keeps_every_match fraction_zero fraction_div fraction_ge
            shared_labels nodes_in_frame nodes_with_attribute
            segmented_gt segmented_pred (3, 5) _ 0%nat
            {| shape := [1; 6]%nat; dtype := uint8; frames := [frame_a] |}
            {| shape := [1; 6]%nat; dtype := uint8; frames := [frame_b] |}
            frame_a frame_b [1; 2]%nat [1; 2]%nat 2%nat 2%nat H _ _ _ _ _ Hm _).
  - vm_compute. lia.
  - reflexivity.
  - reflexivity.
  - reflexivity.
  - reflexivity.
  - by_evaluation.
Defined.
